(** * exotrace: a shallow embedding of [exotrace/core.py]

    The program computes with IEEE doubles held in numpy arrays.  The
    embedding keeps the special values the code relies on ([inf], [nan])
    and idealises the rest: a finite double is a real number and the
    arithmetic on finite values is exact, without rounding, overflow or
    underflow.  Statements that the source documentation qualifies by
    "within tolerance" therefore appear as exact equalities, rounding
    being the only thing the tolerance absorbs.  Where the magnitude of
    the data decides the outcome (the sum of squares in [normalize]) the
    statement carries the range as a hypothesis; where rounding itself
    decides a branch (the tolerance windows of [get_Euler_angles]) the
    test is stated again over binary64, in module [B64].  There is no
    signed zero: a zero denominator is read as [+0.]. *)

From Stdlib Require Import Reals RNsatz Lra Lia ZArith List Bool.
From Stdlib Require Floats.
From stdpp Require Import base option gmap.

Local Open Scope R_scope.

(** ** Numbers: [np.float64] *)

Inductive float : Type :=
  | Fin (x : R)
  | PInf
  | NInf
  | NaN.

Definition Rleb (x y : R) : bool := if Rle_dec x y then true else false.
Definition Rltb (x y : R) : bool := if Rlt_dec x y then true else false.
Definition Reqb (x y : R) : bool := if Req_dec_T x y then true else false.

Definition isnan (a : float) : bool :=
  match a with NaN => true | _ => false end.

Definition isfinite (a : float) : bool :=
  match a with Fin _ => true | _ => false end.

Definition fneg (a : float) : float :=
  match a with
  | Fin x => Fin (- x)
  | PInf => NInf
  | NInf => PInf
  | NaN => NaN
  end.

Definition fadd (a b : float) : float :=
  match a, b with
  | NaN, _ | _, NaN => NaN
  | Fin x, Fin y => Fin (x + y)
  | PInf, NInf | NInf, PInf => NaN
  | PInf, _ | _, PInf => PInf
  | NInf, _ | _, NInf => NInf
  end.

Definition fsub (a b : float) : float := fadd a (fneg b).

(** The infinity of the sign of [x], and [nan] at zero: what [x * inf] is. *)
Definition signed_inf (x : R) : float :=
  if Rltb 0 x then PInf else if Rltb x 0 then NInf else NaN.

Definition fmul (a b : float) : float :=
  match a, b with
  | NaN, _ | _, NaN => NaN
  | Fin x, Fin y => Fin (x * y)
  | Fin x, PInf | PInf, Fin x => signed_inf x
  | Fin x, NInf | NInf, Fin x => signed_inf (- x)
  | PInf, PInf | NInf, NInf => PInf
  | PInf, NInf | NInf, PInf => NaN
  end.

Definition fdiv (a b : float) : float :=
  match a, b with
  | NaN, _ | _, NaN => NaN
  | Fin x, Fin y => if Reqb y 0 then signed_inf x else Fin (x / y)
  | Fin _, (PInf | NInf) => Fin 0
  | PInf, Fin y => if Rltb y 0 then NInf else PInf
  | NInf, Fin y => if Rltb y 0 then PInf else NInf
  | (PInf | NInf), (PInf | NInf) => NaN
  end.

Definition fsqrt (a : float) : float :=
  match a with
  | Fin x => if Rltb x 0 then NaN else Fin (sqrt x)
  | PInf => PInf
  | NInf | NaN => NaN
  end.

(** Comparisons; every comparison with [nan] is false. *)
Definition fle (a b : float) : bool :=
  match a, b with
  | NaN, _ | _, NaN => false
  | Fin x, Fin y => Rleb x y
  | NInf, _ | _, PInf => true
  | _, _ => false
  end.

Definition flt (a b : float) : bool :=
  match a, b with
  | NaN, _ | _, NaN => false
  | Fin x, Fin y => Rltb x y
  | PInf, _ | _, NInf => false
  | _, _ => true
  end.

Definition fge (a b : float) : bool := fle b a.
Definition fgt (a b : float) : bool := flt b a.

Definition feq (a b : float) : bool :=
  match a, b with
  | Fin x, Fin y => Reqb x y
  | PInf, PInf | NInf, NInf => true
  | _, _ => false
  end.

(** [np.min([a, b])] and [np.max([a, b])]: a [nan] operand wins. *)
Definition npmin2 (a b : float) : float :=
  if isnan a || isnan b then NaN else if fle a b then a else b.

Definition npmax2 (a b : float) : float :=
  if isnan a || isnan b then NaN else if fle a b then b else a.

Declare Scope float_scope.
Delimit Scope float_scope with fl.
Bind Scope float_scope with float.
Infix "+" := fadd : float_scope.
Infix "-" := fsub : float_scope.
Infix "*" := fmul : float_scope.
Infix "/" := fdiv : float_scope.
Notation "- a" := (fneg a) : float_scope.
Infix "<=?" := fle : float_scope.
Infix "<?" := flt : float_scope.
Infix ">=?" := fge : float_scope.
Infix ">?" := fgt : float_scope.
Infix "==?" := feq (at level 70) : float_scope.

(** ** Vectors: numpy arrays of shape [(3,)] *)

Record vec : Type := Vec { vx : float; vy : float; vz : float }.

Definition vsub (a b : vec) : vec :=
  Vec (vx a - vx b)%fl (vy a - vy b)%fl (vz a - vz b)%fl.

Definition vadd (a b : vec) : vec :=
  Vec (vx a + vx b)%fl (vy a + vy b)%fl (vz a + vz b)%fl.

(** [v * t] and [v / t] for a scalar [t]. *)
Definition vscale (v : vec) (t : float) : vec :=
  Vec (vx v * t)%fl (vy v * t)%fl (vz v * t)%fl.

Definition vdiv (v : vec) (t : float) : vec :=
  Vec (vx v / t)%fl (vy v / t)%fl (vz v / t)%fl.

(** [np.dot] *)
Definition dot (a b : vec) : float :=
  (vx a * vx b + vy a * vy b + vz a * vz b)%fl.

(** [np.linalg.norm] *)
Definition norm (v : vec) : float := fsqrt (dot v v).

Definition fvec (x y z : R) : vec := Vec (Fin x) (Fin y) (Fin z).
Definition nan_vec : vec := Vec NaN NaN NaN.

(** The value [x /= np.linalg.norm(x)] leaves in [x]. *)
Definition normalized (x : vec) : vec := vdiv x (norm x).

(** ** Rays and spheres *)

Record Ray : Type := mkRay { origin : vec; direction : vec; u : vec }.

(** [Ray.__init__]: [direction - origin] is a fresh array, normalised in place. *)
Definition Ray_init (origin direction : vec) : Ray :=
  mkRay origin direction (normalized (vsub direction origin)).

(** What [intersect] and [Scene] read of a body. *)
Record Body : Type := mkBody { center : vec; radius : float }.

Section Intersect.
Variables (ray : Ray) (body : Body).

Definition qa : float := dot (u ray) (u ray).
Definition origin_center : vec := vsub (origin ray) (center body).
Definition qb : float := (Fin 2 * dot (u ray) origin_center)%fl.
Definition qc : float :=
  (dot origin_center origin_center - radius body * radius body)%fl.
Definition discriminant : float := (qb * qb - Fin 4 * qa * qc)%fl.
Definition root_plus : float := ((- qb + fsqrt discriminant) / Fin 2)%fl.
Definition root_minus : float := ((- qb - fsqrt discriminant) / Fin 2)%fl.

Definition intersect : float :=
  if (discriminant >=? Fin 0)%fl then
    let t1 := root_plus in
    let t2 := root_minus in
    let (t1, t2) := (npmin2 t1 t2, npmax2 t1 t2) in
    if (t1 >=? Fin 0)%fl then t1 else t2
  else PInf.
End Intersect.

(** ** Elementary functions of numpy *)

Definition fcos (a : float) : float :=
  match a with Fin x => Fin (cos x) | _ => NaN end.

Definition fsin (a : float) : float :=
  match a with Fin x => Fin (sin x) | _ => NaN end.

Definition farccos (a : float) : float :=
  match a with
  | Fin x => if Rleb (-1) x && Rleb x 1 then Fin (acos x) else NaN
  | _ => NaN
  end.

Definition farcsin (a : float) : float :=
  match a with
  | Fin x => if Rleb (-1) x && Rleb x 1 then Fin (asin x) else NaN
  | _ => NaN
  end.

(** [atan2(y, x)] on finite arguments: the angle of the point [(x, y)]. *)
Definition Ratan2 (y x : R) : R :=
  if Rltb 0 x then atan (y / x)
  else if Rltb x 0 then
    (if Rleb 0 y then atan (y / x) + PI else atan (y / x) - PI)
  else if Rltb 0 y then PI / 2
  else if Rltb y 0 then - (PI / 2)
  else 0.

Definition farctan2 (y x : float) : float :=
  match y, x with
  | NaN, _ | _, NaN => NaN
  | Fin y, Fin x => Fin (Ratan2 y x)
  | Fin y, PInf => Fin 0
  | Fin y, NInf => if Rleb 0 y then Fin PI else Fin (- PI)
  | PInf, Fin _ => Fin (PI / 2)
  | NInf, Fin _ => Fin (- (PI / 2))
  | PInf, PInf => Fin (PI / 4)
  | PInf, NInf => Fin (3 * PI / 4)
  | NInf, PInf => Fin (- (PI / 4))
  | NInf, NInf => Fin (- (3 * PI / 4))
  end.

Definition radians (a : float) : float := (a * Fin (PI / 180))%fl.
Definition degrees (a : float) : float := (a * Fin (180 / PI))%fl.

(** Python's [%] on floats: the result has the sign of the divisor.  The
    program only divides by the literal [360.]. *)
Definition Rpymod (x y : R) : R := x - y * IZR (Int_part (x / y)).

Definition fmod (a b : float) : float :=
  match a, b with
  | Fin x, Fin y => if Reqb y 0 then NaN else Fin (Rpymod x y)
  | Fin x, PInf => if Rleb 0 x then Fin x else PInf
  | Fin x, NInf => if Rleb x 0 then Fin x else NInf
  | _, _ => NaN
  end.

(** ** Matrices of shape [(3, 3)], by rows *)

Record mat : Type := Mat { row0 : vec; row1 : vec; row2 : vec }.

Definition col0 (m : mat) : vec := Vec (vx (row0 m)) (vx (row1 m)) (vx (row2 m)).
Definition col1 (m : mat) : vec := Vec (vy (row0 m)) (vy (row1 m)) (vy (row2 m)).
Definition col2 (m : mat) : vec := Vec (vz (row0 m)) (vz (row1 m)) (vz (row2 m)).

(** [R @ P] *)
Definition matvec (m : mat) (p : vec) : vec :=
  Vec (dot (row0 m) p) (dot (row1 m) p) (dot (row2 m) p).

(** [A @ B] *)
Definition matmul (a b : mat) : mat :=
  let mrow (r : vec) := Vec (dot r (col0 b)) (dot r (col1 b)) (dot r (col2 b)) in
  Mat (mrow (row0 a)) (mrow (row1 a)) (mrow (row2 a)).

Definition Rx (alpha : float) : mat :=
  Mat (Vec (Fin 1) (Fin 0) (Fin 0))
      (Vec (Fin 0) (fcos alpha) (- fsin alpha)%fl)
      (Vec (Fin 0) (fsin alpha) (fcos alpha)).

Definition Ry (beta : float) : mat :=
  Mat (Vec (fcos beta) (Fin 0) (fsin beta))
      (Vec (Fin 0) (Fin 1) (Fin 0))
      (Vec (- fsin beta)%fl (Fin 0) (fcos beta)).

Definition Rz (gamma : float) : mat :=
  Mat (Vec (fcos gamma) (- fsin gamma)%fl (Fin 0))
      (Vec (fsin gamma) (fcos gamma) (Fin 0))
      (Vec (Fin 0) (Fin 0) (Fin 1)).

(** [rotate_basis(P, alpha, beta, gamma)]; the keyword defaults are [0.]. *)
Definition rotate_basis (P : vec) (alpha beta gamma : float) : vec :=
  let R := matmul (matmul (Rz gamma) (Ry beta)) (Rx alpha) in
  matvec R P.

(** The matrix [rotate_axis_angle] builds from the normalised axis. *)
Definition axis_angle_matrix (u : vec) (theta : float) : mat :=
  let costheta := fcos theta in
  let sintheta := fsin theta in
  let '(ux, uy, uz) := (vx u, vy u, vz u) in
  Mat (Vec (costheta + ux * ux * (Fin 1 - costheta))
           (ux * uy * (Fin 1 - costheta) - uz * sintheta)
           (ux * uz * (Fin 1 - costheta) + uy * sintheta))
      (Vec (uy * ux * (Fin 1 - costheta) + uz * sintheta)
           (costheta + uy * uy * (Fin 1 - costheta))
           (uy * uz * (Fin 1 - costheta) - ux * sintheta))
      (Vec (uz * ux * (Fin 1 - costheta) - uy * sintheta)
           (uz * uy * (Fin 1 - costheta) + ux * sintheta)
           (costheta + uz * uz * (Fin 1 - costheta)))%fl.

(** The numerical tolerance of [get_Euler_angles]. *)
Definition tol : float := Fin (1 / 10 ^ 16).

Definition get_Euler_angles (u : vec) (theta : float) : float * float * float :=
  let '(ux, uy, uz) := (vx u, vy u, vz u) in
  let theta := if (theta ==? Fin 0)%fl then tol else theta in
  let '(ux, uy) :=
    if (ux ==? Fin 0)%fl && (uy ==? Fin 0)%fl then (tol, tol) else (ux, uy) in
  let costheta := fcos theta in
  let sintheta := fsin theta in
  let RA01 := (ux * uy * (Fin 1 - costheta) - uz * sintheta)%fl in
  let RA02 := (ux * uz * (Fin 1 - costheta) + uy * sintheta)%fl in
  let RA11 := (costheta + uy * uy * (Fin 1 - costheta))%fl in
  let RA12 := (uy * uz * (Fin 1 - costheta) - ux * sintheta)%fl in
  let RA20 := (uz * ux * (Fin 1 - costheta) - uy * sintheta)%fl in
  let RA21 := (uz * uy * (Fin 1 - costheta) + ux * sintheta)%fl in
  let RA22 := (costheta + uz * uz * (Fin 1 - costheta))%fl in
  let '(cosalpha, sinalpha, cosbeta, sinbeta, cosgamma, singamma) :=
    if (RA22 <? Fin (-1) + tol)%fl && (RA22 >? Fin (-1) - tol)%fl then
      (Fin 1, Fin 0, Fin (-1), Fin 0, RA11, RA01)
    else if (RA22 <? Fin 1 + tol)%fl && (RA22 >? Fin 1 - tol)%fl then
      (Fin 1, Fin 0, Fin 1, Fin 0, RA11, (- RA01)%fl)
    else
      let cosbeta := RA22 in
      let sinbeta := fsqrt (Fin 1 - cosbeta * cosbeta)%fl in
      let norm1 := fsqrt (RA20 * RA20 + RA21 * RA21)%fl in
      let norm2 := fsqrt (RA02 * RA02 + RA12 * RA12)%fl in
      (RA02 / norm2, RA12 / norm2, cosbeta, sinbeta,
       (- RA20) / norm1, RA21 / norm1)%fl in
  let alpha := farctan2 sinalpha cosalpha in
  let beta := farctan2 sinbeta cosbeta in
  let gamma := farctan2 singamma cosgamma in
  (alpha, beta, gamma).

(** [haversine], degrees in and out. *)
Definition haversine (lat1 lon1 lat2 lon2 : float) : float :=
  let '(lat1, lon1) := (radians lat1, radians lon1) in
  let '(lat2, lon2) := (radians lat2, radians lon2) in
  let dlon := (lon2 - lon1)%fl in
  let dlat := (lat2 - lat1)%fl in
  let s1 := fsin (dlat / Fin 2) in
  let s2 := fsin (dlon / Fin 2) in
  let a := (s1 * s1 + fcos lat1 * fcos lat2 * (s2 * s2))%fl in
  let dist := (Fin 2 * farcsin (fsqrt a))%fl in
  degrees dist.

(** ** Arrays shared between caller and callee

    [normalize] divides its argument in place, so the arrays it is handed
    live in a store, keyed by object identity.  Arrays that nobody else
    holds (temporaries, grids owned by one object) are kept by value. *)

Definition loc : Type := nat.

(** The one failure of the model: reading an address that holds no array.
    No call of the program does that; numpy itself raises nothing on a
    division by zero, it warns and returns [nan] or [inf]. *)
Inductive exn : Type :=
  | NameError (l : loc).

Inductive outcome (A : Type) : Type :=
  | Returns (a : A) (σ : gmap loc vec)
  | Raises (e : exn).
Arguments Returns {A} a σ.
Arguments Raises {A} e.

Definition M (A : Type) : Type := gmap loc vec → outcome A.

#[export] Instance M_ret : MRet M := λ A a σ, Returns a σ.

#[export] Instance M_bind : MBind M := λ A B f m σ,
  match m σ with
  | Returns a σ' => f a σ'
  | Raises e => Raises e
  end.

Definition load (l : loc) : M vec := λ σ,
  match σ !! l with
  | Some v => Returns v σ
  | None => Raises (NameError l)
  end.

Definition assign (l : loc) (v : vec) : M unit := λ σ,
  Returns tt (<[l := v]> σ).

(** [normalize(x)]: [x /= np.linalg.norm(x); return x]. *)
Definition normalize (x : loc) : M loc :=
  v ← load x;
  assign x (vdiv v (norm v));;
  mret x.

(** [angle_between(v0, v1)] *)
Definition angle_between (v0 v1 : loc) : M float :=
  v0 ← normalize v0;
  v1 ← normalize v1;
  a ← load v0;
  b ← load v1;
  let theta := farccos (dot a b) in
  mret theta.

(** [rotate_axis_angle(P, u, theta)]; [P] is only read. *)
Definition rotate_axis_angle (P : vec) (u : loc) (theta : float) : M vec :=
  u ← normalize u;
  uv ← load u;
  let R := axis_angle_matrix uv theta in
  mret (matvec R P).

(** ** Grids: numpy arrays indexed [[j, i]]

    An array of shape [(res, res)] is given by its index function; only
    the indices below the shape are meaningful, and the loops of the
    source run over exactly those. *)

Definition grid (A : Type) : Type := nat → nat → A.

Definition gconst {A} (a : A) : grid A := λ _ _, a.

Definition gmap2 {A B} (f : A → B) (g : grid A) : grid B := λ j i, f (g j i).

(** [g[j, i] = a] *)
Definition gupd {A} (g : grid A) (j i : nat) (a : A) : grid A :=
  λ j' i', if (j' =? j)%nat && (i' =? i)%nat then a else g j' i'.

(** [np.ndindex(shape)], row-major. *)
Definition ndindex (shape : nat * nat) : list (nat * nat) :=
  flat_map (λ j, map (λ i, (j, i)) (seq 0 (snd shape))) (seq 0 (fst shape)).

(** [np.linspace(start, stop, num)]: [num] evenly spaced samples, the
    last one set to [stop]. *)
Definition linspace (start stop : float) (num : nat) : list float :=
  match num with
  | 1%nat => [(Fin 0 * (stop - start) + start)%fl]
  | _ =>
    let step := ((stop - start) / Fin (INR (num - 1)))%fl in
    map (λ k, if (k =? num - 1)%nat then stop
              else (Fin (INR k) * step + start)%fl)
        (seq 0 num)
  end.

(** [np.min] and [np.max] of a non-empty sequence. *)
Definition npmin (a : float) (l : list float) : float := fold_left npmin2 l a.
Definition npmax (a : float) (l : list float) : float := fold_left npmax2 l a.

(** A cell of a numpy masked array: hidden, or a visible value. *)
Inductive mcell : Type :=
  | Masked
  | Valid (v : float).

Definition mlift (f : float → float) (c : mcell) : mcell :=
  match c with Masked => Masked | Valid v => Valid (f v) end.

Definition mlift2 (f : float → float → float) (a b : mcell) : mcell :=
  match a, b with
  | Valid v, Valid w => Valid (f v w)
  | _, _ => Masked
  end.

(** [a ** 2] on a masked array: [numpy.ma.power] also masks the cells
    whose result is not finite. *)
Definition msquare (c : mcell) : mcell :=
  match c with
  | Masked => Masked
  | Valid v => if isfinite (v * v)%fl then Valid (v * v)%fl else Masked
  end.

(** ** Spots *)

Module Spot.
Record spot : Type := mk { lat : float; lon : float; radius : float; contrast : float }.
End Spot.

(** ** Star *)

Module Star.

(** [flux] is a plain [ndarray] after [__init__] and a
    [numpy.ma.MaskedArray] once [calc_flux] has run; [flux_ma] says
    which.  In a plain array every cell is visible. *)
Record star : Type := mk {
  center : vec;
  radius : float;
  axis : loc;
  inc : float;
  meridian : float;
  res : nat;
  shape : nat * nat;
  u1 : float;
  u2 : float;
  x : list float;
  y : list float;
  P : grid vec;
  N : grid vec;
  mu : grid float;
  r1 : grid float;
  theta1 : grid float;
  phi1 : grid float;
  r : grid float;
  theta : grid float;
  phi : grid float;
  lat : grid float;
  lon : grid float;
  flux : grid mcell;
  flux_ma : bool;
  spots : list Spot.spot
}.

Definition with_inc (s : star) (v : float) : star :=
  mk (center s) (radius s) (axis s) v (meridian s) (res s) (shape s)
     (u1 s) (u2 s) (x s) (y s) (P s) (N s) (mu s) (r1 s) (theta1 s) (phi1 s)
     (r s) (theta s) (phi s) (lat s) (lon s) (flux s) (flux_ma s) (spots s).

Definition with_meridian (s : star) (v : float) : star :=
  mk (center s) (radius s) (axis s) (inc s) v (res s) (shape s)
     (u1 s) (u2 s) (x s) (y s) (P s) (N s) (mu s) (r1 s) (theta1 s) (phi1 s)
     (r s) (theta s) (phi s) (lat s) (lon s) (flux s) (flux_ma s) (spots s).

Definition with_P (s : star) (v : grid vec) : star :=
  mk (center s) (radius s) (axis s) (inc s) (meridian s) (res s) (shape s)
     (u1 s) (u2 s) (x s) (y s) v (N s) (mu s) (r1 s) (theta1 s) (phi1 s)
     (r s) (theta s) (phi s) (lat s) (lon s) (flux s) (flux_ma s) (spots s).

Definition with_sph (s : star) (r' theta' phi' lat' lon' : grid float) : star :=
  mk (center s) (radius s) (axis s) (inc s) (meridian s) (res s) (shape s)
     (u1 s) (u2 s) (x s) (y s) (P s) (N s) (mu s) (r1 s) (theta1 s) (phi1 s)
     r' theta' phi' lat' lon' (flux s) (flux_ma s) (spots s).

Definition with_flux (s : star) (v : grid mcell) (ma : bool) : star :=
  mk (center s) (radius s) (axis s) (inc s) (meridian s) (res s) (shape s)
     (u1 s) (u2 s) (x s) (y s) (P s) (N s) (mu s) (r1 s) (theta1 s) (phi1 s)
     (r s) (theta s) (phi s) (lat s) (lon s) v ma (spots s).

Definition with_spots (s : star) (v : list Spot.spot) : star :=
  mk (center s) (radius s) (axis s) (inc s) (meridian s) (res s) (shape s)
     (u1 s) (u2 s) (x s) (y s) (P s) (N s) (mu s) (r1 s) (theta1 s) (phi1 s)
     (r s) (theta s) (phi s) (lat s) (lon s) (flux s) (flux_ma s) v.

(** [Star.__init__]: the caller's [axis] array is normalised in place and
    kept by reference.  (Without an [axis] argument Python passes the one
    default array of the function; that array is an [axis] like any other.) *)
Definition init (center : vec) (radius : float) (axis : loc) (res : nat) : M star :=
  axis ← normalize axis;
  mret (mk center radius axis (Fin 90) (Fin 0) res (res, res) (Fin 0) (Fin 0)
           (linspace (- radius) radius res) (linspace (- radius) radius res)
           (gconst (fvec 0 0 0)) (gconst (fvec 0 0 0))
           (gconst (Fin 0)) (gconst (Fin 0)) (gconst (Fin 0)) (gconst (Fin 0))
           (gconst (Fin 0)) (gconst (Fin 0)) (gconst (Fin 0))
           (gconst (Fin 0)) (gconst (Fin 0)) (gconst (Valid (Fin 0))) false []).

Definition add (s : star) (new : list Spot.spot) (overwrite : bool) : star :=
  if overwrite then with_spots s new else with_spots s (spots s ++ new).

(** [spotted.mask]: the grid points within [spot.radius] of the spot. *)
Definition spotted (lat lon : grid float) (spot : Spot.spot) : grid bool :=
  let dist := λ j i, haversine (lat j i) (lon j i) (Spot.lat spot) (Spot.lon spot) in
  λ j i, (dist j i <=? Spot.radius spot)%fl.

(** One turn of the loop of [calc_flux]. *)
Definition paint (lat lon : grid float) (f : grid mcell) (spot : Spot.spot) : grid mcell :=
  λ j i, if spotted lat lon spot j i then Valid (Spot.contrast spot) else f j i.

Definition calc_flux (s : star) : star :=
  let ones : grid float := gconst (Fin 1) in
  let f : grid mcell := λ j i, if isnan (r s j i) then Masked else Valid (ones j i) in
  with_flux s (fold_left (paint (lat s) (lon s)) (spots s) f) true.

(** On a masked array the arithmetic is that of [numpy.ma]; on a plain
    array it is elementwise, and [**] masks nothing. *)
Definition limb_darken (s : star) : star :=
  if flux_ma s then
    let d := λ j i, mlift (λ f, f - mu s j i)%fl (flux s j i) in
    with_flux s (λ j i,
      mlift2 fsub
        (mlift2 fsub (flux s j i) (mlift (fmul (u1 s)) (d j i)))
        (mlift (fmul (u2 s)) (msquare (d j i)))) true
  else
    with_flux s (λ j i,
      mlift (λ f, let d := (f - mu s j i)%fl in
                  (f - u1 s * d - u2 s * (d * d))%fl) (flux s j i)) false.

(** The five assignments that [rotate] and [set_inclination] share:
    spherical and geographic coordinates from [P]. *)
Definition spherical (s : star) : star :=
  let r' := gmap2 (λ p, fsqrt (vx p * vx p + vy p * vy p + vz p * vz p)%fl) (P s) in
  let theta' := λ j i, farccos (vz (P s j i) / r' j i)%fl in
  let phi' := gmap2 (λ p, farctan2 (vx p) (vy p)) (P s) in
  let lat' := gmap2 (λ t, degrees (t - Fin (PI / 2))%fl) theta' in
  let lon' := gmap2 degrees phi' in
  with_sph s r' theta' phi' lat' lon'.

(** [for j, i in np.ndindex(self.shape): self.P[j, i, :] = rotate_basis(...)] *)
Definition turn (alpha beta gamma : float) (s : star) : star :=
  with_P s (fold_left
              (λ P '(j, i), gupd P j i (rotate_basis (P j i) alpha beta gamma))
              (ndindex (shape s)) (P s)).

Definition rotate (s : star) (angle : float) : star :=
  let m := fmod (meridian s + angle)%fl (Fin 360) in
  let m := if (m >? Fin 180)%fl then (m - Fin 360)%fl else m in
  let s := with_meridian s m in
  let s := turn (Fin 0) (Fin 0) (radians (- angle)%fl) s in
  let s := spherical s in
  let s := calc_flux s in
  limb_darken s.

Definition set_meridian (s : star) (new_meridian : float) : star :=
  let angle := (new_meridian - meridian s)%fl in
  rotate s angle.

Definition set_inclination (s : star) (new_inclination : float) : star :=
  let angle := (new_inclination - inc s)%fl in
  let s := turn (radians (- angle)%fl) (Fin 0) (Fin 0) s in
  let s := spherical s in
  let s := calc_flux s in
  let s := limb_darken s in
  with_inc s new_inclination.

End Star.

(** ** Scene *)

Module Scene.

Record scene : Type := mk {
  bodies : list Body;
  res : nat;
  shape : nat * nat;
  extent : float * float;
  x : list float;
  y : list float;
  zmax : float;
  flux : grid float;
  body : grid (option Body);
  mu : grid float;
  t : grid float
}.

Definition get_extent (s : scene) : scene :=
  let '(xmin, xmax, ymin, ymax, zmax) :=
    match bodies s with
    | b :: bs =>
      let lo (k : vec → float) (b : Body) := (k (center b) - radius b)%fl in
      let hi (k : vec → float) (b : Body) := (k (center b) + radius b)%fl in
      (npmin (lo vx b) (map (lo vx) bs), npmax (hi vx b) (map (hi vx) bs),
       npmin (lo vy b) (map (lo vy) bs), npmax (hi vy b) (map (hi vy) bs),
       npmax (hi vz b) (map (hi vz) bs))
    | [] => (Fin (-1), Fin 1, Fin (-1), Fin 1, PInf)
    end in
  let extent := (npmin2 xmin ymin, npmax2 xmax ymax) in
  mk (bodies s) (res s) (shape s) extent
     (linspace (fst extent) (snd extent) (res s))
     (linspace (fst extent) (snd extent) (res s))
     zmax (flux s) (body s) (mu s) (t s).

(** [Scene.__init__] *)
Definition init (bodies : list Body) (res : nat) : scene :=
  get_extent (mk bodies res (res, res) (NaN, NaN) [] [] NaN
                 (gconst NaN) (gconst None) (gconst NaN) (gconst PInf)).

Definition add (s : scene) (new : list Body) : scene :=
  get_extent (mk (bodies s ++ new) (res s) (shape s) (extent s) (x s) (y s)
                 (zmax s) (flux s) (body s) (mu s) (t s)).

(** What a hit writes at pixel [(j, i)]. *)
Definition record_hit (s : scene) (j i : nat) (b : Body) (t' mu' : float) : scene :=
  mk (bodies s) (res s) (shape s) (extent s) (x s) (y s) (zmax s)
     (gupd (flux s) j i (Fin 1)) (gupd (body s) j i (Some b))
     (gupd (mu s) j i mu') (gupd (t s) j i t').

(** The limb-angle cosine [trace] computes at a hit. *)
Definition hit_mu (ray : Ray) (b : Body) (t' : float) : float :=
  let P := vadd (origin ray) (vscale (u ray) t') in
  (dot (vsub (origin ray) P) (vsub P (center b)) /
   (norm (vsub (origin ray) P) * norm (vsub P (center b))))%fl.

(** The body of [for body in self.bodies]; the state is [t_min] and the scene. *)
Definition try_body (ray : Ray) (j i : nat) (acc : float * scene) (b : Body)
  : float * scene :=
  let '(t_min, s) := acc in
  let t' := intersect ray b in
  if (t' >=? t_min)%fl then (t_min, s)
  else (t', record_hit s j i b t' (hit_mu ray b t')).

(** The body of [for j, i in np.ndindex(self.shape)]; indexing [self.x] or
    [self.y] out of range raises, which is [None] here. *)
Definition trace_pixel (s : scene) (ji : nat * nat) : option scene :=
  let '(j, i) := ji in
  xi ← x s !! i;
  yj ← y s !! j;
  let ray := Ray_init (Vec xi yj (zmax s)) (Vec xi yj (Fin 0)) in
  let t_min := PInf in
  Some (snd (fold_left (try_body ray j i) (bodies s) (t_min, s))).

Fixpoint for_each {A S : Type} (f : S → A → option S) (l : list A) (s : S)
  : option S :=
  match l with
  | [] => Some s
  | a :: l => s' ← f s a; for_each f l s'
  end.

Definition trace (s : scene) : option scene :=
  for_each trace_pixel (ndindex (shape s)) s.

End Scene.

(** ** Conditions on a star *)

(** The meridian is a finite number of [(-180, 180]]. *)
Definition meridian_reduced (s : Star.star) : Prop :=
  ∃ m : R, Star.meridian s = Fin m ∧ -180 < m <= 180.

(** The grid points of [P] are finite. *)
Definition finite_P (s : Star.star) : Prop :=
  ∀ j i, (j < fst (Star.shape s))%nat → (i < snd (Star.shape s))%nat →
    ∃ x y z : R, Star.P s j i = fvec x y z.

(** The flux grid is the one [calc_flux] and [limb_darken] compute from
    the star as it stands, which is how [rotate] and [set_inclination]
    leave it. *)
Definition flux_current (s : Star.star) : Prop :=
  ∀ j i, Star.flux s j i
         = Star.flux (Star.limb_darken (Star.calc_flux (Star.spherical s))) j i.

(** ** Reading a scene *)

(** What the four output grids hold at pixel [(j, i)]: flux, owning body,
    mu and depth. *)
Definition cell (s : Scene.scene) (j i : nat) : float * option Body * float * float :=
  (Scene.flux s j i, Scene.body s j i, Scene.mu s j i, Scene.t s j i).

(** The values [Scene.__init__] fills the grids with. *)
Definition default_cell : float * option Body * float * float :=
  (NaN, None, NaN, PInf).

(** What [trace] writes at a pixel whose ray hits [b] at depth [t]. *)
Definition hit_cell (ray : Ray) (b : Body) (t : float)
  : float * option Body * float * float :=
  (Fin 1, Some b, Scene.hit_mu ray b t, t).

(** The ray [trace] casts at the scene coordinates [(xi, yj)]. *)
Definition pixel_ray (s : Scene.scene) (xi yj : float) : Ray :=
  Ray_init (Vec xi yj (Scene.zmax s)) (Vec xi yj (Fin 0)).

(** The grids are square of side [res] and the coordinate arrays have
    [res] samples, which is how [__init__] and [get_extent] leave them. *)
Definition sampled (s : Scene.scene) : Prop :=
  Scene.shape s = (Scene.res s, Scene.res s) ∧
  length (Scene.x s) = Scene.res s ∧ length (Scene.y s) = Scene.res s.

(** Two scenes agree on everything [trace] reads. *)
Definition same_setup (s s' : Scene.scene) : Prop :=
  Scene.bodies s' = Scene.bodies s ∧ Scene.res s' = Scene.res s ∧
  Scene.shape s' = Scene.shape s ∧ Scene.x s' = Scene.x s ∧
  Scene.y s' = Scene.y s ∧ Scene.zmax s' = Scene.zmax s.

(** What a pixel may hold after a trace, given what it held before: the
    previous values if the ray misses every body, else the record of the
    nearest body, the first one in list order among equals. *)
Definition pixel_outcome (bodies : list Body) (ray : Ray)
    (before after : float * option Body * float * float) : Prop :=
  ((∀ b, b ∈ bodies → intersect ray b = PInf) ∧ after = before)
  ∨ (∃ pre b post, bodies = pre ++ b :: post ∧
       (intersect ray b <? PInf)%fl = true ∧
       (∀ b', b' ∈ pre → (intersect ray b <? intersect ray b')%fl = true) ∧
       (∀ b', b' ∈ post → (intersect ray b <=? intersect ray b')%fl = true) ∧
       after = hit_cell ray b (intersect ray b)).

(** Zero or [nan]: what [x - x] and [0 * x] are, for every [x]. *)
Definition zero_or_nan (f : float) : Prop := f = NaN ∨ ∃ r, f = Fin r ∧ r = 0.

(** Magnitudes at which the differences, squares and products of
    [limb_darken] stay finite in binary64. *)
Definition moderate (x : R) : Prop := Rabs x <= 10 ^ 100.

(** ** Example data *)

(** The star [Star(center=(0, 0, 0), radius=1, res=1)] as [__init__] leaves
    it, with the axis array at address [0] and the single grid point set to
    [p], as the setup code has to do before the first [rotate]. *)
Definition unit_star (p : vec) : Star.star :=
  Star.mk (fvec 0 0 0) (Fin 1) 0%nat (Fin 90) (Fin 0) 1 (1%nat, 1%nat) (Fin 0) (Fin 0)
          (linspace (- Fin 1) (Fin 1) 1) (linspace (- Fin 1) (Fin 1) 1)
          (gconst p) (gconst (fvec 0 0 0))
          (gconst (Fin 0)) (gconst (Fin 0)) (gconst (Fin 0)) (gconst (Fin 0))
          (gconst (Fin 0)) (gconst (Fin 0)) (gconst (Fin 0))
          (gconst (Fin 0)) (gconst (Fin 0)) (gconst (Valid (Fin 0))) false [].

(** The unit sphere at the origin and a unit sphere far to its right. *)
Definition ball0 : Body := mkBody (fvec 0 0 0) (Fin 1).
Definition ball10 : Body := mkBody (fvec 10 0 0) (Fin 1).

(** ** Conditions on a scene *)

(** A sphere with finite centre and radius. *)
Definition finite_body (b : Body) : Prop :=
  ∃ cx cy cz r : R, b = mkBody (fvec cx cy cz) (Fin r).

(** ** Nested lists: [get_none_array]

    The Python value [get_none_array] builds before it hands it to
    [np.array]: [None], or a list of such values. *)

#[warnings="-register-all"]
Inductive pyobj : Type :=
  | PyNone
  | PyList (items : list pyobj).

(** [arr = None; for dim in shape: arr = [arr]*dim] *)
Definition get_none_array (shape : list nat) : pyobj :=
  fold_left (λ arr dim, PyList (replicate dim arr)) shape PyNone.

(** The shape [np.array] discovers, read along the first items, and the
    item at a multi-index. *)
Fixpoint np_shape (v : pyobj) : list nat :=
  match v with
  | PyNone => []
  | PyList [] => [0%nat]
  | PyList (x :: l) => S (length l) :: np_shape x
  end.

Fixpoint np_item (idx : list nat) (v : pyobj) : option pyobj :=
  match idx with
  | [] => Some v
  | k :: idx =>
    match v with
    | PyList l => x ← l !! k; np_item idx x
    | PyNone => None
    end
  end.

(** ** Binary64: the tolerance windows of [get_Euler_angles]

    The two tests of [get_Euler_angles] against [-1 ± tol] and
    [1 ± tol], in the arithmetic numpy computes them in.  Rocq's
    primitive floats are IEEE 754 binary64, the [float64] of numpy. *)

Module B64.
Local Set Warnings "-notation-overridden".
Import PrimFloat.
Local Set Warnings "notation-overridden".

#[warnings="-inexact-float"]
Definition tol : float := 1e-16%float.

(** [(RA22 < -1 + tol) and (RA22 > -1 - tol)] *)
Definition south_window (RA22 : float) : bool :=
  ltb RA22 (add (-1)%float tol) && ltb (sub (-1)%float tol) RA22.

(** [(RA22 < 1 + tol) and (RA22 > 1 - tol)] *)
Definition north_window (RA22 : float) : bool :=
  ltb RA22 (add 1%float tol) && ltb (sub 1%float tol) RA22.

End B64.

(** * Properties *)

(** ** Deciding comparisons of reals *)

Lemma Rleb_true (x y : R) : Rleb x y = true ↔ x <= y.
Proof. unfold Rleb. destruct (Rle_dec x y); split; intros; try done; lra. Qed.

Lemma Rleb_false (x y : R) : Rleb x y = false ↔ y < x.
Proof. unfold Rleb. destruct (Rle_dec x y); split; intros; try done; lra. Qed.

Lemma Rltb_true (x y : R) : Rltb x y = true ↔ x < y.
Proof. unfold Rltb. destruct (Rlt_dec x y); split; intros; try done; lra. Qed.

Lemma Rltb_false (x y : R) : Rltb x y = false ↔ y <= x.
Proof. unfold Rltb. destruct (Rlt_dec x y); split; intros; try done; lra. Qed.

Lemma Reqb_true (x y : R) : Reqb x y = true ↔ x = y.
Proof. unfold Reqb. destruct (Req_dec_T x y); split; intros; try done. Qed.

Lemma Reqb_false (x y : R) : Reqb x y = false ↔ x <> y.
Proof. unfold Reqb. destruct (Req_dec_T x y); split; intros; try done. Qed.

(** Case analysis on every comparison of reals in sight. *)
Ltac Rcases :=
  unfold Rleb, Rltb, Reqb in *;
  repeat match goal with
  | |- context [Rle_dec ?x ?y] => destruct (Rle_dec x y)
  | |- context [Rlt_dec ?x ?y] => destruct (Rlt_dec x y)
  | |- context [Req_dec_T ?x ?y] => destruct (Req_dec_T x y)
  | H : context [Rle_dec ?x ?y] |- _ => destruct (Rle_dec x y)
  | H : context [Rlt_dec ?x ?y] |- _ => destruct (Rlt_dec x y)
  | H : context [Req_dec_T ?x ?y] |- _ => destruct (Req_dec_T x y)
  end.

Lemma fdiv_Fin (x y : R) : y <> 0 → (Fin x / Fin y)%fl = Fin (x / y).
Proof. intros Hy. simpl. by apply Reqb_false in Hy as ->. Qed.

Lemma fsqrt_Fin (x : R) : 0 <= x → fsqrt (Fin x) = Fin (sqrt x).
Proof. intros Hx. simpl. by apply Rltb_false in Hx as ->. Qed.

Lemma fle_Fin (x y : R) : (Fin x <=? Fin y)%fl = true ↔ x <= y.
Proof. apply Rleb_true. Qed.

Lemma flt_Fin (x y : R) : (Fin x <? Fin y)%fl = true ↔ x < y.
Proof. apply Rltb_true. Qed.

Lemma Fin_eq (x y : R) : x = y → Fin x = Fin y.
Proof. by intros ->. Qed.

(** ** [intersect] *)

Section IntersectFacts.

(** A negative discriminant is not [>= 0]. *)
Lemma flt_not_fge (d : float) : (d <? Fin 0)%fl = true → (d >=? Fin 0)%fl = false.
Proof. destruct d; simpl; try done. unfold fge; simpl. Rcases; intros; try done; lra. Qed.

(** With [s >= 0] the root built with [- s] is the smaller one. *)
Lemma roots_ascending (b s : float) :
  (Fin 0 <=? s)%fl = true →
  let p := ((- b + s) / Fin 2)%fl in
  let m := ((- b - s) / Fin 2)%fl in
  isnan (npmin2 p m) = false →
  npmin2 p m = m ∧ npmax2 p m = p ∧ (m <=? p)%fl = true.
Proof.
  destruct b as [b| | |], s as [s| | |]; simpl; try done;
    unfold npmin2, npmax2, fsub; simpl; Rcases; simpl; Rcases;
    intros; try done; try lra; repeat split; try done; apply Fin_eq; lra.
Qed.

(** At a zero discriminant the two roots coincide. *)
Lemma roots_tangent (b d : float) :
  (d ==? Fin 0)%fl = true →
  ((- b + fsqrt d) / Fin 2 = (- b - fsqrt d) / Fin 2)%fl.
Proof.
  destruct d as [d| | |]; simpl; try done. intros ->%Reqb_true.
  rewrite (proj2 (Rltb_false 0 0)) by lra. rewrite sqrt_0.
  destruct b as [b| | |]; simpl; try done.
  Rcases; try lra. apply Fin_eq. lra.
Qed.

End IntersectFacts.

Lemma roots_solve (ray : Ray) (body : Body) (b c : R) :
  qa ray = Fin 1 → qb ray body = Fin b → qc ray body = Fin c →
  (discriminant ray body >=? Fin 0)%fl = true →
  ∀ t', t' = root_plus ray body ∨ t' = root_minus ray body →
  (qa ray * t' * t' + qb ray body * t' + qc ray body)%fl = Fin 0.
Proof.
  intros Ha Hb Hc Hd t' Ht.
  unfold root_plus, root_minus, discriminant in *. rewrite Ha, Hb, Hc in *.
  cbn [fmul fsub fadd fneg] in Hd, Ht.
  apply fle_Fin in Hd.
  rewrite fsqrt_Fin in Ht by done.
  cbn [fmul fsub fadd fneg] in Ht.
  rewrite !fdiv_Fin in Ht by lra.
  pose proof (sqrt_sqrt _ Hd) as Hs.
  destruct Ht as [-> | ->]; cbn [fmul fsub fadd fneg]; apply Fin_eq; nra.
Qed.

(** C1, as the code has it.  With [a = dot(u, u)],
    [b = 2 dot(u, origin - center)], [c = |origin - center|^2 - radius^2]
    and [d = b^2 - 4ac], one of three cases holds.  [d < 0]: [intersect]
    returns [+inf].  [d] is [nan]: [intersect] returns [+inf] as well,
    since [nan >= 0] is false.  [d >= 0]: it computes the two roots
    [(-b + sqrt d)/2] and [(-b - sqrt d)/2], orders them ascending and
    returns the smaller one if that is [>= 0], else the larger one,
    whatever its sign; for a unit direction ([a = 1]) the two values
    solve [a t^2 + b t + c = 0].  At [d == 0] the two roots are equal. *)
Theorem intersect_spec (ray : Ray) (body : Body) :
  let oc := vsub (origin ray) (center body) in
  let a := dot (u ray) (u ray) in
  let b := (Fin 2 * dot (u ray) oc)%fl in
  let c := (dot oc oc - radius body * radius body)%fl in
  let d := (b * b - Fin 4 * a * c)%fl in
  let t1 := ((- b + fsqrt d) / Fin 2)%fl in
  let t2 := ((- b - fsqrt d) / Fin 2)%fl in
  let lo := npmin2 t1 t2 in
  let hi := npmax2 t1 t2 in
  ((d <? Fin 0)%fl = true ∨ isnan d = true ∨ (d >=? Fin 0)%fl = true) ∧
  ((d <? Fin 0)%fl = true → intersect ray body = PInf) ∧
  (isnan d = true → intersect ray body = PInf) ∧
  ((d >=? Fin 0)%fl = true →
     intersect ray body = (if (lo >=? Fin 0)%fl then lo else hi) ∧
     (isnan lo = false → lo = t2 ∧ hi = t1 ∧ (lo <=? hi)%fl = true) ∧
     (∀ b' c' t', a = Fin 1 → b = Fin b' → c = Fin c' → t' = t1 ∨ t' = t2 →
        (a * t' * t' + b * t' + c)%fl = Fin 0)) ∧
  ((d ==? Fin 0)%fl = true → t1 = t2).
Proof.
  intros oc a b c d t1 t2 lo hi.
  change d with (discriminant ray body) in *.
  change t1 with (root_plus ray body) in *.
  change t2 with (root_minus ray body) in *.
  change a with (qa ray) in *. change b with (qb ray body) in *.
  change c with (qc ray body) in *.
  split; [|split; [|split; [|split]]].
  - unfold fge. destruct (discriminant ray body) as [x| | |]; cbn; auto.
    destruct (Rlt_dec x 0) as [Hx|Hx].
    + left. by apply Rltb_true.
    + right. right. apply Rleb_true. lra.
  - intros Hd. unfold intersect. by rewrite (flt_not_fge _ Hd).
  - intros Hd. unfold intersect.
    by destruct (discriminant ray body).
  - intros Hd. split; [|split].
    + unfold intersect. by rewrite Hd.
    + intros Hnan.
      assert (Hs : (Fin 0 <=? fsqrt (discriminant ray body))%fl = true).
      { unfold fge in Hd. destruct (discriminant ray body) as [x| | |];
          simpl in *; try done.
        apply Rleb_true in Hd. rewrite (proj2 (Rltb_false x 0)) by lra.
        simpl. apply Rleb_true, sqrt_pos. }
      destruct (roots_ascending (qb ray body) (fsqrt (discriminant ray body)) Hs Hnan)
        as (Hlo & Hhi & Hle).
      unfold lo, hi, root_plus, root_minus in *.
      by rewrite Hlo, Hhi.
    + intros b' c' t' Ha Hb Hc Ht. by apply (roots_solve ray body b' c').
  - intros Hd. by apply roots_tangent.
Qed.

(** A ray cast down the z axis from [(0, 0, 2)] points along [-z]. *)
Example Ray_init_down :
  Ray_init (fvec 0 0 2) (fvec 0 0 0) = mkRay (fvec 0 0 2) (fvec 0 0 0) (fvec 0 0 (-1)).
Proof.
  unfold Ray_init, normalized, norm, dot, vdiv, vsub, fvec.
  cbn [vx vy vz fmul fsub fadd fneg].
  match goal with |- context [fsqrt (Fin ?d)] =>
    replace d with (2 * 2) by lra end.
  rewrite fsqrt_Fin by lra. rewrite sqrt_square by lra.
  rewrite !fdiv_Fin by lra.
  f_equal. f_equal; apply Fin_eq; lra.
Qed.

(** The unit sphere at the origin, seen from [(0, 0, 2)]: the near side is
    at distance [1]. *)
Example intersect_unit_sphere :
  intersect (mkRay (fvec 0 0 2) (fvec 0 0 0) (fvec 0 0 (-1)))
            (mkBody (fvec 0 0 0) (Fin 1)) = Fin 1.
Proof.
  unfold intersect, root_plus, root_minus, discriminant, qa, qb, qc,
    origin_center, dot, vsub, fvec, fge.
  cbn [vx vy vz fmul fsub fadd fneg origin center u radius].
  match goal with |- context [fsqrt (Fin ?d)] =>
    replace d with (2 * 2) by lra end.
  rewrite (proj2 (fle_Fin 0 (2 * 2))) by lra.
  rewrite fsqrt_Fin by lra. rewrite sqrt_square by lra.
  cbn [fmul fsub fadd fneg]. rewrite !fdiv_Fin by lra.
  unfold npmin2, npmax2. simpl. Rcases; try lra; apply Fin_eq; lra.
Qed.

(** A sphere wholly behind the ray: both roots are negative and the
    larger one, [-1], is returned. *)
Example intersect_behind_origin :
  intersect (mkRay (fvec 0 0 (-2)) (fvec 0 0 (-3)) (fvec 0 0 (-1)))
            (mkBody (fvec 0 0 0) (Fin 1)) = Fin (-1).
Proof.
  unfold intersect, root_plus, root_minus, discriminant, qa, qb, qc,
    origin_center, dot, vsub, fvec, fge.
  cbn [vx vy vz fmul fsub fadd fneg origin center u radius].
  match goal with |- context [fsqrt (Fin ?d)] =>
    replace d with (2 * 2) by lra end.
  rewrite (proj2 (fle_Fin 0 (2 * 2))) by lra.
  rewrite fsqrt_Fin by lra. rewrite sqrt_square by lra.
  cbn [fmul fsub fadd fneg]. rewrite !fdiv_Fin by lra.
  unfold npmin2, npmax2. simpl. Rcases; try lra; apply Fin_eq; lra.
Qed.

(** The three cases at work on the unit sphere at the origin, seen from
    the plane [z = 2]: the central ray hits at depth 1, the ray at
    [x = 1] is tangent and both roots are 2, the ray at [x = 5] misses. *)
Lemma intersect_spec_witness :
  intersect (mkRay (fvec 0 0 2) (fvec 0 0 0) (fvec 0 0 (-1)))
            (mkBody (fvec 0 0 0) (Fin 1)) = Fin 1 ∧
  (root_plus (mkRay (fvec 1 0 2) (fvec 1 0 0) (fvec 0 0 (-1)))
             (mkBody (fvec 0 0 0) (Fin 1))
   = root_minus (mkRay (fvec 1 0 2) (fvec 1 0 0) (fvec 0 0 (-1)))
                (mkBody (fvec 0 0 0) (Fin 1)) ∧
   intersect (mkRay (fvec 1 0 2) (fvec 1 0 0) (fvec 0 0 (-1)))
             (mkBody (fvec 0 0 0) (Fin 1)) = Fin 2) ∧
  intersect (mkRay (fvec 5 0 2) (fvec 5 0 0) (fvec 0 0 (-1)))
            (mkBody (fvec 0 0 0) (Fin 1)) = PInf.
Proof.
  split; [|split].
  - destruct (intersect_spec (mkRay (fvec 0 0 2) (fvec 0 0 0) (fvec 0 0 (-1)))
                (mkBody (fvec 0 0 0) (Fin 1))) as (_ & _ & _ & Hhit & _).
    cbv zeta in Hhit. destruct Hhit as [-> _].
    + unfold dot, vsub, fvec, fge.
      cbn [vx vy vz fmul fsub fadd fneg origin center u radius].
      apply fle_Fin. lra.
    + unfold dot, vsub, fvec, fge.
      cbn [vx vy vz fmul fsub fadd fneg origin center u radius].
      match goal with |- context [fsqrt (Fin ?d)] =>
        replace d with (2 * 2) by lra end.
      rewrite fsqrt_Fin by lra. rewrite sqrt_square by lra.
      cbn [fmul fsub fadd fneg]. rewrite !fdiv_Fin by lra.
      unfold npmin2, npmax2. simpl. Rcases; try lra; apply Fin_eq; lra.
  - destruct (intersect_spec (mkRay (fvec 1 0 2) (fvec 1 0 0) (fvec 0 0 (-1)))
                (mkBody (fvec 0 0 0) (Fin 1))) as (_ & _ & _ & Hhit & Htan).
    cbv zeta in Hhit, Htan.
    assert (Hd : (Fin 2 * dot (fvec 0 0 (-1)) (vsub (fvec 1 0 2) (fvec 0 0 0)) *
                  (Fin 2 * dot (fvec 0 0 (-1)) (vsub (fvec 1 0 2) (fvec 0 0 0))) -
                  Fin 4 * dot (fvec 0 0 (-1)) (fvec 0 0 (-1)) *
                  (dot (vsub (fvec 1 0 2) (fvec 0 0 0)) (vsub (fvec 1 0 2) (fvec 0 0 0)) -
                   Fin 1 * Fin 1))%fl = Fin 0).
    { unfold dot, vsub, fvec. cbn [vx vy vz fmul fsub fadd fneg].
      apply Fin_eq. lra. }
    cbn [origin center u radius] in Hhit, Htan. rewrite Hd in Hhit, Htan.
    split.
    + unfold root_plus, root_minus, discriminant, qa, qb, qc, origin_center.
      cbn [origin center u radius]. rewrite Hd.
      apply Htan. cbn [feq]. by apply Reqb_true.
    + destruct Hhit as [-> _]; [apply fle_Fin; lra|].
      rewrite fsqrt_Fin, sqrt_0 by lra.
      unfold dot, vsub, fvec.
      cbn [vx vy vz fmul fsub fadd fneg]. rewrite !fdiv_Fin by lra.
      unfold npmin2, npmax2. simpl. Rcases; try lra; apply Fin_eq; lra.
  - apply (proj1 (proj2 (intersect_spec _ _))).
    unfold dot, vsub, fvec.
    cbn [vx vy vz fmul fsub fadd fneg origin center u radius].
    apply flt_Fin. lra.
Defined.

(** A ray whose origin and direction coincide, as [trace] casts it when
    [zmax] is 0, has a [nan] direction and a [nan] discriminant: the
    discriminant is not negative, and [intersect] returns [+inf]. *)
Lemma intersect_nan_discriminant :
  discriminant (Ray_init (fvec 0 0 0) (fvec 0 0 0)) ball0 = NaN ∧
  (discriminant (Ray_init (fvec 0 0 0) (fvec 0 0 0)) ball0 <? Fin 0)%fl = false ∧
  intersect (Ray_init (fvec 0 0 0) (fvec 0 0 0)) ball0 = PInf.
Proof.
  assert (Hu : u (Ray_init (fvec 0 0 0) (fvec 0 0 0)) = nan_vec).
  { unfold Ray_init, normalized, norm, dot, vdiv, vsub, fvec, nan_vec.
    cbn [u vx vy vz fmul fsub fadd fneg].
    replace ((0 + - 0) * (0 + - 0) + (0 + - 0) * (0 + - 0) + (0 + - 0) * (0 + - 0))
      with 0 by lra.
    rewrite fsqrt_Fin, sqrt_0 by lra. cbn [fdiv].
    rewrite (proj2 (Reqb_true 0 0)) by done. unfold signed_inf.
    rewrite (proj2 (Rltb_false 0 (0 + - 0))) by lra.
    by rewrite (proj2 (Rltb_false (0 + - 0) 0)) by lra. }
  assert (Hd : discriminant (Ray_init (fvec 0 0 0) (fvec 0 0 0)) ball0 = NaN).
  { unfold discriminant, qa, qb. by rewrite Hu. }
  split; [done|]. split; [by rewrite Hd|].
  unfold intersect. by rewrite Hd.
Qed.

(** ** [normalize] *)

Section NormalizeFacts.

(** The norm of a finite vector. *)
Lemma norm_fvec (x y z : R) :
  norm (fvec x y z) = Fin (sqrt (x * x + y * y + z * z)).
Proof.
  unfold norm, dot, fvec. cbn [vx vy vz fmul fadd].
  rewrite fsqrt_Fin; [done|nra].
Qed.

Lemma sqrt_sumsq_pos (x y z : R) :
  x <> 0 ∨ y <> 0 ∨ z <> 0 → 0 < sqrt (x * x + y * y + z * z).
Proof. intros H. apply sqrt_lt_R0. nra. Qed.

(** Dividing a non-zero finite vector by its norm. *)
Lemma normalized_fvec (x y z : R) :
  x <> 0 ∨ y <> 0 ∨ z <> 0 →
  let n := sqrt (x * x + y * y + z * z) in
  normalized (fvec x y z) = fvec (x / n) (y / n) (z / n).
Proof.
  intros H n. pose proof (sqrt_sumsq_pos x y z H).
  unfold normalized. rewrite norm_fvec. unfold vdiv, fvec.
  cbn [vx vy vz]. subst n. by rewrite !fdiv_Fin by lra.
Qed.

Lemma normalized_unit (x y z : R) :
  x <> 0 ∨ y <> 0 ∨ z <> 0 → norm (normalized (fvec x y z)) = Fin 1.
Proof.
  intros H. rewrite normalized_fvec by done.
  pose proof (sqrt_sumsq_pos x y z H) as Hn.
  set (n := sqrt (x * x + y * y + z * z)) in *.
  assert (Hnn : n * n = x * x + y * y + z * z) by (apply sqrt_sqrt; nra).
  rewrite norm_fvec. apply Fin_eq.
  replace (x / n * (x / n) + y / n * (y / n) + z / n * (z / n)) with 1.
  - apply sqrt_1.
  - field_simplify; [|lra]. rewrite <- (Rdiv_diag (n ^ 2)) by nra.
    f_equal. nra.
Qed.

(** The zero vector: [0/0] in every component. *)
Lemma normalized_zero : normalized (fvec 0 0 0) = nan_vec.
Proof.
  unfold normalized. rewrite norm_fvec.
  replace (0 * 0 + 0 * 0 + 0 * 0) with 0 by lra. rewrite sqrt_0.
  unfold vdiv, fvec, nan_vec. cbn [vx vy vz fdiv signed_inf].
  rewrite (proj2 (Reqb_true 0 0)) by done. unfold signed_inf.
  by rewrite (proj2 (Rltb_false 0 0)) by lra.
Qed.

(** [normalize] never raises on an array that exists: it overwrites the
    array and hands the same array back. *)
Lemma normalize_returns (x : loc) (σ : gmap loc vec) (v : vec) :
  σ !! x = Some v → normalize x σ = Returns x (<[x := normalized v]> σ).
Proof.
  intros Hx. unfold normalize, load, assign, mbind, M_bind, mret, M_ret.
  by rewrite Hx.
Qed.

End NormalizeFacts.

(** The magnitudes at which the sum of squares that [np.linalg.norm]
    forms neither overflows nor underflows in binary64: a squared
    length between [1e-300] and [1e300].  Ordinary lengths are well
    inside. *)
Lemma ordinary_magnitude (q : R) :
  1 / 100 <= q <= 100 → 1 / 10 ^ 300 <= q <= 10 ^ 300.
Proof.
  intros [Hlo Hhi].
  assert (H2 : 10 ^ 2 <= 10 ^ 300) by (apply Rle_pow; [lra|lia]).
  assert (H100 : 10 ^ 2 = 100) by (simpl; lra).
  assert (Hinv : 0 < / 10 ^ 300) by (apply Rinv_0_lt_compat; lra).
  assert (Hone : 10 ^ 300 * / 10 ^ 300 = 1) by (apply Rinv_r; lra).
  unfold Rdiv. split; [|lra]. nra.
Qed.

(** C3, as the code has it.  For every finite vector whose squared
    length lies between [1e-300] and [1e300], [normalize] leaves a
    vector of norm 1 in the array it was given and returns that array;
    for the zero vector it raises nothing and leaves [nan] in the three
    components. *)
Theorem normalize_spec (l : loc) (σ : gmap loc vec) (x y z : R) :
  σ !! l = Some (fvec x y z) →
  (1 / 10 ^ 300 <= x * x + y * y + z * z <= 10 ^ 300 →
     ∃ v, normalize l σ = Returns l (<[l := v]> σ) ∧ norm v = Fin 1) ∧
  (x = 0 ∧ y = 0 ∧ z = 0 →
     normalize l σ = Returns l (<[l := nan_vec]> σ)).
Proof.
  intros Hl. rewrite (normalize_returns l σ _ Hl). split.
  - intros [Hlo _]. eexists. split; [done|]. apply normalized_unit.
    assert (Hpos : 0 < 1 / 10 ^ 300).
    { apply Rdiv_lt_0_compat; [lra|]. apply pow_lt. lra. }
    destruct (Req_dec_T x 0) as [->|]; [|tauto].
    destruct (Req_dec_T y 0) as [->|]; [|tauto].
    right. right. intros ->. lra.
  - intros (-> & -> & ->). by rewrite normalized_zero.
Qed.

Lemma normalize_spec_witness :
  ∃ v, normalize 0%nat {[ 0%nat := fvec 3 0 4 ]}
       = Returns 0%nat (<[0%nat := v]> {[ 0%nat := fvec 3 0 4 ]})
       ∧ norm v = Fin 1.
Proof.
  apply (proj1 (normalize_spec 0%nat {[ 0%nat := fvec 3 0 4 ]} 3 0 4
                  (lookup_singleton_eq _ _))).
  apply ordinary_magnitude. lra.
Defined.

(** The zero vector: [normalize] returns, with [nan] components, and
    raises no error. *)
Lemma normalize_zero_returns_nan :
  normalize 0%nat {[ 0%nat := fvec 0 0 0 ]}
    = Returns 0%nat (<[0%nat := nan_vec]> {[ 0%nat := fvec 0 0 0 ]})
  ∧ (∀ e, normalize 0%nat {[ 0%nat := fvec 0 0 0 ]} <> Raises e).
Proof.
  assert (H : normalize 0%nat {[ 0%nat := fvec 0 0 0 ]}
    = Returns 0%nat (<[0%nat := nan_vec]> {[ 0%nat := fvec 0 0 0 ]})).
  { rewrite (normalize_returns 0%nat _ (fvec 0 0 0)) by apply lookup_singleton_eq.
    by rewrite normalized_zero. }
  split; [done|]. intros e. by rewrite H.
Qed.

(** ** In-place effects of [normalize] on its callers *)

Section Aliasing.

Lemma Star_init_returns (c : vec) (rad : float) (axis : loc) (res : nat)
    (σ : gmap loc vec) (v : vec) :
  σ !! axis = Some v →
  ∃ s, Star.init c rad axis res σ = Returns s (<[axis := normalized v]> σ)
       ∧ Star.axis s = axis.
Proof.
  intros Hx. unfold Star.init. unfold mbind, M_bind.
  rewrite (normalize_returns axis σ v Hx). by eexists.
Qed.

Lemma angle_between_returns (v0 v1 : loc) (σ : gmap loc vec) (a b : vec) :
  σ !! v0 = Some a → <[v0 := normalized a]> σ !! v1 = Some b →
  angle_between v0 v1 σ =
    Returns (farccos (dot (if decide (v0 = v1) then normalized b else normalized a)
                          (normalized b)))
            (<[v1 := normalized b]> (<[v0 := normalized a]> σ)).
Proof.
  intros H0 H1. unfold angle_between. unfold mbind at 1. unfold M_bind.
  rewrite (normalize_returns v0 σ a H0).
  unfold mbind at 1. rewrite (normalize_returns v1 _ b H1).
  unfold mbind, mret, M_ret, load.
  rewrite lookup_insert. destruct (decide (v1 = v0)) as [->|Hne].
  - rewrite decide_True by done. by rewrite lookup_insert_eq.
  - rewrite lookup_insert_eq. rewrite lookup_insert_eq.
    by rewrite decide_False by done.
Qed.

End Aliasing.

(** C10. [normalize] divides in place and returns the array it was given,
    so the caller's array holds the normalised value afterwards:
    [Star.__init__] overwrites the caller's [axis] array (and keeps a
    reference to it), and [angle_between] overwrites both of its
    arguments. *)
Theorem normalize_mutates_argument (σ : gmap loc vec) :
  (∀ x v, σ !! x = Some v →
     normalize x σ = Returns x (<[x := vdiv v (norm v)]> σ)) ∧
  (∀ c rad axis res v, σ !! axis = Some v →
     ∃ s, Star.init c rad axis res σ = Returns s (<[axis := normalized v]> σ)
          ∧ Star.axis s = axis) ∧
  (∀ v0 v1 a b, v0 <> v1 → σ !! v0 = Some a → σ !! v1 = Some b →
     ∃ θ σ', angle_between v0 v1 σ = Returns θ σ'
          ∧ σ' !! v0 = Some (normalized a) ∧ σ' !! v1 = Some (normalized b)
          ∧ ∀ l, l <> v0 → l <> v1 → σ' !! l = σ !! l).
Proof.
  split; [|split].
  - intros x v Hx. by apply normalize_returns.
  - intros c rad axis res v Hx. by apply Star_init_returns.
  - intros v0 v1 a b Hne H0 H1.
    eexists _, _. split.
    + apply (angle_between_returns v0 v1 σ a b); [done|].
      by rewrite lookup_insert_ne.
    + split; [|split].
      * rewrite lookup_insert_ne by done. by rewrite lookup_insert_eq.
      * by rewrite lookup_insert_eq.
      * intros l Hl0 Hl1. by rewrite !lookup_insert_ne by done.
Qed.

(** Two arrays [(3, 0, 4)] and [(0, 2, 0)] handed to [angle_between]. *)
Lemma normalize_mutates_argument_witness :
  ∃ θ σ',
    angle_between 0%nat 1%nat (<[1%nat := fvec 0 2 0]> {[ 0%nat := fvec 3 0 4 ]})
      = Returns θ σ'
    ∧ σ' !! 0%nat = Some (normalized (fvec 3 0 4))
    ∧ σ' !! 1%nat = Some (normalized (fvec 0 2 0))
    ∧ ∀ l, l <> 0%nat → l <> 1%nat →
        σ' !! l = (<[1%nat := fvec 0 2 0]> {[ 0%nat := fvec 3 0 4 ]} : gmap loc vec) !! l.
Proof.
  apply (proj2 (proj2 (normalize_mutates_argument _))); [lia|done|done].
Defined.

(** ** [rotate_basis] *)

Section RotateBasis.

(** On finite data [Rz(gamma) @ Ry(beta) @ Rx(alpha) @ P] is the turn
    about x, then about y, then about z. *)
Lemma rotate_basis_fin (x y z a b g : R) :
  rotate_basis (fvec x y z) (Fin a) (Fin b) (Fin g) =
  let '(x1, y1, z1) := (x, cos a * y - sin a * z, sin a * y + cos a * z) in
  let '(x2, y2, z2) := (cos b * x1 + sin b * z1, y1, - sin b * x1 + cos b * z1) in
  fvec (cos g * x2 - sin g * y2) (sin g * x2 + cos g * y2) z2.
Proof.
  unfold rotate_basis, matvec, matmul, Rx, Ry, Rz, col0, col1, col2, dot, fvec.
  cbn [vx vy vz row0 row1 row2 fcos fsin fmul fadd fneg].
  f_equal; apply Fin_eq; ring.
Qed.

Lemma trig_one (a v : R) : sin a * sin a * v + cos a * cos a * v = v.
Proof.
  pose proof (sin2_cos2 a) as H. unfold Rsqr in H.
  rewrite <- Rmult_plus_distr_r, H. ring.
Qed.

Lemma rotate_basis_alpha_inv (x y z a : R) :
  rotate_basis (rotate_basis (fvec x y z) (Fin a) (Fin 0) (Fin 0))
               (Fin (- a)) (Fin 0) (Fin 0) = fvec x y z.
Proof.
  rewrite rotate_basis_fin. cbv zeta. rewrite rotate_basis_fin. cbv zeta.
  rewrite cos_neg, sin_neg, cos_0, sin_0.
  pose proof (trig_one a y). pose proof (trig_one a z).
  unfold fvec. f_equal; apply Fin_eq; nra.
Qed.

Lemma rotate_basis_beta_inv (x y z b : R) :
  rotate_basis (rotate_basis (fvec x y z) (Fin 0) (Fin b) (Fin 0))
               (Fin 0) (Fin (- b)) (Fin 0) = fvec x y z.
Proof.
  rewrite rotate_basis_fin. cbv zeta. rewrite rotate_basis_fin. cbv zeta.
  rewrite cos_neg, sin_neg, cos_0, sin_0.
  pose proof (trig_one b x). pose proof (trig_one b z).
  unfold fvec. f_equal; apply Fin_eq; nra.
Qed.

Lemma rotate_basis_gamma_inv (x y z g : R) :
  rotate_basis (rotate_basis (fvec x y z) (Fin 0) (Fin 0) (Fin g))
               (Fin 0) (Fin 0) (Fin (- g)) = fvec x y z.
Proof.
  rewrite rotate_basis_fin. cbv zeta. rewrite rotate_basis_fin. cbv zeta.
  rewrite cos_neg, sin_neg, cos_0, sin_0.
  pose proof (trig_one g x). pose proof (trig_one g y).
  unfold fvec. f_equal; apply Fin_eq; nra.
Qed.

(** A call with three angles is three calls with one angle each. *)
Lemma rotate_basis_split (x y z a b g : R) :
  rotate_basis (fvec x y z) (Fin a) (Fin b) (Fin g) =
  rotate_basis
    (rotate_basis (rotate_basis (fvec x y z) (Fin a) (Fin 0) (Fin 0))
                  (Fin 0) (Fin b) (Fin 0))
    (Fin 0) (Fin 0) (Fin g).
Proof.
  repeat (rewrite rotate_basis_fin; cbv zeta).
  rewrite cos_0, sin_0. unfold fvec. f_equal; apply Fin_eq; ring.
Qed.

Lemma rotate_basis_is_fvec (x y z a b g : R) :
  ∃ x' y' z', rotate_basis (fvec x y z) (Fin a) (Fin b) (Fin g) = fvec x' y' z'.
Proof. rewrite rotate_basis_fin. cbv zeta. by eexists _, _, _. Qed.

End RotateBasis.

(** C5, as the code has it.  For every point and every angle,
    [rotate_basis] with one angle followed by [rotate_basis] with that angle
    negated returns the point (one angle at a time: [alpha], [beta] or
    [gamma], the other two being zero); a call with three angles is undone
    by three calls that negate [gamma], then [beta], then [alpha]. *)
Theorem rotate_basis_round_trip (x y z a b g : R) :
  let P := fvec x y z in
  let O := Fin 0 in
  rotate_basis (rotate_basis P (Fin a) O O) (- Fin a)%fl O O = P ∧
  rotate_basis (rotate_basis P O (Fin b) O) O (- Fin b)%fl O = P ∧
  rotate_basis (rotate_basis P O O (Fin g)) O O (- Fin g)%fl = P ∧
  rotate_basis
    (rotate_basis
       (rotate_basis (rotate_basis P (Fin a) (Fin b) (Fin g)) O O (- Fin g)%fl)
       O (- Fin b)%fl O)
    (- Fin a)%fl O O = P.
Proof.
  intros P O. unfold P, O. cbn [fneg].
  split; [apply rotate_basis_alpha_inv|].
  split; [apply rotate_basis_beta_inv|].
  split; [apply rotate_basis_gamma_inv|].
  rewrite (rotate_basis_split x y z a b g).
  destruct (rotate_basis_is_fvec x y z a 0 0) as (x1 & y1 & z1 & H1).
  rewrite H1.
  destruct (rotate_basis_is_fvec x1 y1 z1 0 b 0) as (x2 & y2 & z2 & H2).
  rewrite H2, rotate_basis_gamma_inv, <- H2, rotate_basis_beta_inv, <- H1.
  apply rotate_basis_alpha_inv.
Qed.

(** With [alpha = gamma = pi/2] the point [(0, 1, 0)] goes to [(0, 0, 1)],
    and the call with the three angles negated sends that to [(1, 0, 0)]. *)
Lemma rotate_basis_negated_angles_differ :
  let P := fvec 0 1 0 in
  let a := Fin (PI / 2) in
  rotate_basis (rotate_basis P a (Fin 0) a) (- a)%fl (- Fin 0)%fl (- a)%fl
    = fvec 1 0 0
  ∧ fvec 1 0 0 <> P.
Proof.
  cbv zeta. split.
  - cbn [fneg]. rewrite rotate_basis_fin. cbv zeta. rewrite rotate_basis_fin. cbv zeta.
    rewrite Ropp_0, !cos_neg, !sin_neg, cos_0, sin_0, cos_PI2, sin_PI2.
    unfold fvec. f_equal; apply Fin_eq; ring.
  - unfold fvec. intros [= H]. lra.
Qed.

(** ** [arctan2] *)

Section Atan2.

(** On the unit circle [arctan2(s, c)] is the angle whose cosine is [c]
    and whose sine is [s]. *)
Lemma Ratan2_circle (s c : R) :
  c * c + s * s = 1 → cos (Ratan2 s c) = c ∧ sin (Ratan2 s c) = s.
Proof.
  intros H. unfold Ratan2.
  assert (Hq : ∀ t, c <> 0 → t = Rabs c → sqrt (1 + (s / c)²) = / t).
  { intros t Hc ->. unfold Rsqr.
    replace (1 + s / c * (s / c)) with (/ (c * c)).
    - rewrite sqrt_inv. f_equal. apply sqrt_Rsqr_abs.
    - field_simplify_eq; [nra|done]. }
  destruct (Rltb 0 c) eqn:Hpos; [apply Rltb_true in Hpos | apply Rltb_false in Hpos].
  - rewrite cos_atan, sin_atan, (Hq c) by (try lra; rewrite Rabs_right; lra).
    split; field; lra.
  - destruct (Rltb c 0) eqn:Hneg; [apply Rltb_true in Hneg | apply Rltb_false in Hneg].
    + assert (Hs : sqrt (1 + (s / c)²) = / (- c))
        by (apply Hq; [lra | rewrite Rabs_left; lra]).
      destruct (Rleb 0 s).
      * rewrite neg_cos, neg_sin, cos_atan, sin_atan, Hs. split; field; lra.
      * unfold Rminus. rewrite cos_plus, sin_plus, cos_neg, sin_neg, cos_PI, sin_PI,
          cos_atan, sin_atan, Hs. split; field; lra.
    + assert (c = 0) as -> by lra.
      destruct (Rltb 0 s) eqn:Hs; [apply Rltb_true in Hs | apply Rltb_false in Hs].
      * rewrite cos_PI2, sin_PI2. split; [done|nra].
      * destruct (Rltb s 0) eqn:Hs'; [apply Rltb_true in Hs' | apply Rltb_false in Hs'].
        -- rewrite cos_neg, sin_neg, cos_PI2, sin_PI2. split; [done|nra].
        -- nra.
Qed.

End Atan2.

(** ** [get_Euler_angles] *)

Section EulerAngles.

Variables ux uy uz θ : R.
Hypothesis Hu : ux * ux + uy * uy + uz * uz = 1.

Let c := cos θ.
Let s := sin θ.
Let RA00 := c + ux * ux * (1 - c).
Let RA01 := ux * uy * (1 - c) - uz * s.
Let RA02 := ux * uz * (1 - c) + uy * s.
Let RA10 := uy * ux * (1 - c) + uz * s.
Let RA11 := c + uy * uy * (1 - c).
Let RA12 := uy * uz * (1 - c) - ux * s.
Let RA20 := uz * ux * (1 - c) - uy * s.
Let RA21 := uz * uy * (1 - c) + ux * s.
Let RA22 := c + uz * uz * (1 - c).
Let n := sqrt (1 - RA22 * RA22).

Hypothesis Hlo : -1 + 1 / 10 ^ 16 <= RA22.
Hypothesis Hhi : RA22 <= 1 - 1 / 10 ^ 16.

Local Lemma cos_sin_unit : c * c + s * s = 1.
Proof. pose proof (sin2_cos2 θ) as H. unfold Rsqr in H. unfold c, s. lra. Qed.

Local Lemma n_pos : 0 < n.
Proof. apply sqrt_lt_R0. nra. Qed.

Local Lemma n_sq : n * n = 1 - RA22 * RA22.
Proof. apply sqrt_sqrt. nra. Qed.

Local Lemma row2_unit : RA20 * RA20 + RA21 * RA21 = 1 - RA22 * RA22.
Proof. pose proof cos_sin_unit. unfold RA20, RA21, RA22. nsatz. Qed.

Local Lemma col2_unit : RA02 * RA02 + RA12 * RA12 = 1 - RA22 * RA22.
Proof. pose proof cos_sin_unit. unfold RA02, RA12, RA22. nsatz. Qed.

(** The general branch of [get_Euler_angles]. *)
Lemma get_Euler_angles_general :
  get_Euler_angles (fvec ux uy uz) (Fin θ) =
    (Fin (Ratan2 (RA12 / n) (RA02 / n)),
     Fin (Ratan2 n RA22),
     Fin (Ratan2 (RA21 / n) (- RA20 / n))).
Proof.
  assert (Hθ : θ <> 0).
  { intros H. unfold RA22, c in *. rewrite H, cos_0 in *. lra. }
  assert (Hxy : ¬ (ux = 0 ∧ uy = 0)).
  { intros [Hx Hy].
    assert (Hz : uz * uz = 1) by (rewrite Hx, Hy in Hu; lra).
    unfold RA22 in Hhi. rewrite Hz in Hhi. lra. }
  unfold get_Euler_angles, fvec, tol. cbn [vx vy vz feq].
  rewrite (proj2 (Reqb_false θ 0)) by done.
  assert (Reqb ux 0 && Reqb uy 0 = false) as ->.
  { destruct (Reqb ux 0) eqn:Ex, (Reqb uy 0) eqn:Ey; try done.
    apply Reqb_true in Ex, Ey. tauto. }
  cbn [fcos fsin fmul fadd fsub fneg fgt flt].
  fold c s.
  change (c + uz * uz * (1 + - c)) with RA22.
  change (uz * ux * (1 + - c) + - (uy * s)) with RA20.
  change (uz * uy * (1 + - c) + ux * s) with RA21.
  change (ux * uz * (1 + - c) + uy * s) with RA02.
  change (uy * uz * (1 + - c) + - (ux * s)) with RA12.
  rewrite (proj2 (Rltb_false RA22 (-1 + 1 / 10 ^ 16))) by lra.
  rewrite (proj2 (Rltb_false (1 + - (1 / 10 ^ 16)) RA22)) by lra.
  rewrite andb_false_r. cbn [andb].
  pose proof n_pos as Hn.
  change (1 + - (RA22 * RA22)) with (1 - RA22 * RA22).
  rewrite row2_unit, col2_unit.
  rewrite !fsqrt_Fin by (pose proof n_sq; nra). fold n.
  rewrite !fdiv_Fin by lra. done.
Qed.

Let α := Ratan2 (RA12 / n) (RA02 / n).
Let β := Ratan2 n RA22.
Let γ := Ratan2 (RA21 / n) (- RA20 / n).

Local Lemma cos_sin_alpha : cos α = RA02 / n ∧ sin α = RA12 / n.
Proof.
  apply Ratan2_circle. pose proof n_pos as Hp. pose proof n_sq as Hn.
  pose proof col2_unit as H. rewrite <- Hn in H.
  field_simplify_eq; [|lra]. lra.
Qed.

Local Lemma cos_sin_beta : cos β = RA22 ∧ sin β = n.
Proof. apply Ratan2_circle. pose proof n_sq. lra. Qed.

Local Lemma cos_sin_gamma : cos γ = - RA20 / n ∧ sin γ = RA21 / n.
Proof.
  apply Ratan2_circle. pose proof n_pos as Hp. pose proof n_sq as Hn.
  pose proof row2_unit as H. rewrite <- Hn in H.
  field_simplify_eq; [|lra]. lra.
Qed.

(** The entries of [Rz(α) @ Ry(β) @ Rz(γ)] are those of the axis-angle
    matrix. *)
Local Lemma zyz_entries :
  let '(ca, sa, cb, sb, cg, sg) :=
    (RA02 / n, RA12 / n, RA22, n, - RA20 / n, RA21 / n) in
  (ca * cb * cg - sa * sg = RA00 ∧ - ca * cb * sg - sa * cg = RA01 ∧ ca * sb = RA02) ∧
  (sa * cb * cg + ca * sg = RA10 ∧ - sa * cb * sg + ca * cg = RA11 ∧ sa * sb = RA12) ∧
  (- sb * cg = RA20 ∧ sb * sg = RA21).
Proof.
  pose proof n_pos as Hn. pose proof n_sq as Hnn. pose proof cos_sin_unit as Hcs.
  assert (E00 : - RA02 * RA22 * RA20 - RA12 * RA21 = RA00 * (n * n))
    by (rewrite Hnn; unfold RA00, RA02, RA12, RA20, RA21, RA22; nsatz).
  assert (E01 : - RA02 * RA22 * RA21 + RA12 * RA20 = RA01 * (n * n))
    by (rewrite Hnn; unfold RA01, RA02, RA12, RA20, RA21, RA22; nsatz).
  assert (E10 : - RA12 * RA22 * RA20 + RA02 * RA21 = RA10 * (n * n))
    by (rewrite Hnn; unfold RA10, RA02, RA12, RA20, RA21, RA22; nsatz).
  assert (E11 : - RA12 * RA22 * RA21 - RA02 * RA20 = RA11 * (n * n))
    by (rewrite Hnn; unfold RA11, RA02, RA12, RA20, RA21, RA22; nsatz).
  repeat split.
  - replace (RA02 / n * RA22 * (- RA20 / n) - RA12 / n * (RA21 / n))
      with ((- RA02 * RA22 * RA20 - RA12 * RA21) / (n * n)) by (field; lra).
    rewrite E00. field; lra.
  - replace (- (RA02 / n) * RA22 * (RA21 / n) - RA12 / n * (- RA20 / n))
      with ((- RA02 * RA22 * RA21 + RA12 * RA20) / (n * n)) by (field; lra).
    rewrite E01. field; lra.
  - field; lra.
  - replace (RA12 / n * RA22 * (- RA20 / n) + RA02 / n * (RA21 / n))
      with ((- RA12 * RA22 * RA20 + RA02 * RA21) / (n * n)) by (field; lra).
    rewrite E10. field; lra.
  - replace (- (RA12 / n) * RA22 * (RA21 / n) + RA02 / n * (- RA20 / n))
      with ((- RA12 * RA22 * RA21 - RA02 * RA20) / (n * n)) by (field; lra).
    rewrite E11. field; lra.
  - field; lra.
  - field; lra.
  - field; lra.
Qed.

(** [Rz(α) @ Ry(β) @ Rz(γ) @ P], written with two calls of
    [rotate_basis], is the axis-angle rotation of [P]. *)
Lemma zyz_reproduces (x y z : R) :
  rotate_basis (rotate_basis (fvec x y z) (Fin 0) (Fin 0) (Fin γ))
               (Fin 0) (Fin β) (Fin α)
  = matvec (axis_angle_matrix (fvec ux uy uz) (Fin θ)) (fvec x y z).
Proof.
  rewrite rotate_basis_fin. cbv zeta. rewrite rotate_basis_fin. cbv zeta.
  destruct cos_sin_alpha as [-> ->], cos_sin_beta as [-> ->],
    cos_sin_gamma as [-> ->].
  rewrite cos_0, sin_0.
  destruct zyz_entries as ((H00 & H01 & H02) & (H10 & H11 & H12) & (H20 & H21)).
  unfold matvec, axis_angle_matrix, dot, fvec.
  cbn [vx vy vz row0 row1 row2 fcos fsin fmul fadd fsub fneg].
  fold c s.
  set (ca := RA02 / n) in *. set (sa := RA12 / n) in *.
  set (cg := - RA20 / n) in *. set (sg := RA21 / n) in *.
  f_equal; apply Fin_eq.
  - transitivity (RA00 * x + RA01 * y + RA02 * z);
      [rewrite <- H00, <- H01, <- H02; ring | unfold RA00, RA01, RA02; ring].
  - transitivity (RA10 * x + RA11 * y + RA12 * z);
      [rewrite <- H10, <- H11, <- H12; ring | unfold RA10, RA11, RA12; ring].
  - transitivity (RA20 * x + RA21 * y + RA22 * z);
      [rewrite <- H20, <- H21; ring | unfold RA20, RA21, RA22; ring].
Qed.

End EulerAngles.

(** A unit vector is its own normalisation. *)
Lemma normalized_unit_id (x y z : R) :
  x * x + y * y + z * z = 1 → normalized (fvec x y z) = fvec x y z.
Proof.
  intros H. rewrite normalized_fvec by (destruct (Req_dec_T x 0); [|tauto];
    destruct (Req_dec_T y 0); [|tauto]; right; right; intros ->; subst; lra).
  cbv zeta. rewrite H, sqrt_1. unfold fvec. f_equal; apply Fin_eq; field.
Qed.

Lemma rotate_axis_angle_unit (P : vec) (l : loc) (θ : float) (σ : gmap loc vec)
    (x y z : R) :
  x * x + y * y + z * z = 1 → σ !! l = Some (fvec x y z) →
  rotate_axis_angle P l θ σ = Returns (matvec (axis_angle_matrix (fvec x y z) θ) P) σ.
Proof.
  intros Hu Hl. unfold rotate_axis_angle. unfold mbind at 1. unfold M_bind.
  rewrite (normalize_returns l σ _ Hl), normalized_unit_id by done.
  rewrite insert_id by done.
  unfold mbind, M_bind, load, mret, M_ret. by rewrite Hl.
Qed.

(** C4, as the code has it.  For a unit axis and an angle outside the two
    tolerance windows of the code (the element [R22] of the rotation
    matrix at least [1e-16] away from [-1] and from [1]), the angles
    [(alpha, beta, gamma)] of [get_Euler_angles] are Euler angles of the
    z-y-z convention: turning [P] about z by [gamma], then about y by
    [beta], then about z by [alpha] (two calls of [rotate_basis])
    reproduces [rotate_axis_angle(P, axis, theta)]. *)
Theorem get_Euler_angles_zyz (ux uy uz θ x y z : R) (l : loc) (σ : gmap loc vec)
    (α β γ : float) :
  ux * ux + uy * uy + uz * uz = 1 →
  -1 + 1 / 10 ^ 16 <= cos θ + uz * uz * (1 - cos θ) <= 1 - 1 / 10 ^ 16 →
  σ !! l = Some (fvec ux uy uz) →
  get_Euler_angles (fvec ux uy uz) (Fin θ) = (α, β, γ) →
  rotate_axis_angle (fvec x y z) l (Fin θ) σ =
    Returns (rotate_basis (rotate_basis (fvec x y z) (Fin 0) (Fin 0) γ)
                          (Fin 0) β α) σ.
Proof.
  intros Hu [Hlo Hhi] Hl. rewrite (get_Euler_angles_general ux uy uz θ Hu Hlo Hhi).
  intros [= <- <- <-].
  rewrite (zyz_reproduces ux uy uz θ Hu Hlo Hhi).
  by apply rotate_axis_angle_unit.
Qed.

Lemma get_Euler_angles_zyz_witness :
  ∃ α β γ,
    get_Euler_angles (fvec 1 0 0) (Fin (PI / 2)) = (α, β, γ) ∧
    rotate_axis_angle (fvec 1 0 0) 0%nat (Fin (PI / 2)) {[ 0%nat := fvec 1 0 0 ]} =
      Returns (rotate_basis (rotate_basis (fvec 1 0 0) (Fin 0) (Fin 0) γ)
                            (Fin 0) β α) {[ 0%nat := fvec 1 0 0 ]}.
Proof.
  assert (Hu : 1 * 1 + 0 * 0 + 0 * 0 = 1) by lra.
  assert (Hw : -1 + 1 / 10 ^ 16 <= cos (PI / 2) + 0 * 0 * (1 - cos (PI / 2))
               <= 1 - 1 / 10 ^ 16) by (rewrite cos_PI2; lra).
  eexists _, _, _. split.
  - exact (get_Euler_angles_general 1 0 0 (PI / 2) Hu (proj1 Hw) (proj2 Hw)).
  - apply (get_Euler_angles_zyz 1 0 0 (PI / 2) 1 0 0 0%nat _ _ _ _ Hu Hw).
    + apply lookup_singleton_eq.
    + exact (get_Euler_angles_general 1 0 0 (PI / 2) Hu (proj1 Hw) (proj2 Hw)).
Defined.

(** The quarter turn about the x axis leaves [(1, 0, 0)] in place, while
    [rotate_basis] with the three angles of [get_Euler_angles] sends it to
    [(0, 0, -1)]. *)
Lemma get_Euler_angles_not_for_rotate_basis :
  ∃ α β γ,
    get_Euler_angles (fvec 1 0 0) (Fin (PI / 2)) = (α, β, γ) ∧
    rotate_basis (fvec 1 0 0) α β γ = fvec 0 0 (-1) ∧
    rotate_axis_angle (fvec 1 0 0) 0%nat (Fin (PI / 2)) {[ 0%nat := fvec 1 0 0 ]} =
      Returns (fvec 1 0 0) {[ 0%nat := fvec 1 0 0 ]}.
Proof.
  assert (Hu : 1 * 1 + 0 * 0 + 0 * 0 = 1) by lra.
  assert (Hw : -1 + 1 / 10 ^ 16 <= cos (PI / 2) + 0 * 0 * (1 - cos (PI / 2))
               <= 1 - 1 / 10 ^ 16) by (rewrite cos_PI2; lra).
  eexists _, _, _. split; [|split].
  - exact (get_Euler_angles_general 1 0 0 (PI / 2) Hu (proj1 Hw) (proj2 Hw)).
  - rewrite rotate_basis_fin. cbv zeta.
    destruct (cos_sin_beta _ _ (proj1 Hw) (proj2 Hw)) as [Hc Hs].
    rewrite Hc, Hs, cos_PI2.
    replace (1 - (0 + 0 * 0 * (1 - 0)) * (0 + 0 * 0 * (1 - 0))) with 1 by lra.
    rewrite sqrt_1. unfold fvec. f_equal; apply Fin_eq; ring.
  - rewrite (rotate_axis_angle_unit _ _ _ _ 1 0 0 Hu) by apply lookup_singleton_eq.
    unfold matvec, axis_angle_matrix, dot, fvec.
    cbn [vx vy vz row0 row1 row2 fcos fsin fmul fadd fsub fneg].
    rewrite cos_PI2, sin_PI2. f_equal. f_equal; apply Fin_eq; ring.
Qed.

(** ** Loops over [np.ndindex] *)

Section Ndindex.

Lemma ndindex_spec (shape : nat * nat) (j i : nat) :
  In (j, i) (ndindex shape) ↔ (j < fst shape)%nat ∧ (i < snd shape)%nat.
Proof.
  unfold ndindex. rewrite in_flat_map. split.
  - intros (j' & Hj & Hi). apply in_map_iff in Hi as (i' & [= <- <-] & Hi).
    apply in_seq in Hj, Hi. lia.
  - intros [Hj Hi]. exists j. split; [apply in_seq; lia|].
    apply in_map_iff. exists i. split; [done|apply in_seq; lia].
Qed.

Lemma ndindex_NoDup (shape : nat * nat) : List.NoDup (ndindex shape).
Proof.
  unfold ndindex. generalize (seq_NoDup (fst shape) 0).
  generalize (seq 0 (fst shape)) as js. induction js as [|j js IH]; intros Hnd.
  - constructor.
  - simpl. inversion Hnd as [|? ? Hj Hjs]; subst.
    apply List.NoDup_app.
    + apply Finite.Injective_map_NoDup; [|apply seq_NoDup]. by intros ? ? [= ->].
    + by apply IH.
    + intros [j' i'] Hin1 Hin2.
      apply in_map_iff in Hin1 as (? & [= <- <-] & _).
      apply in_flat_map in Hin2 as (j'' & Hj'' & Hin2).
      apply in_map_iff in Hin2 as (? & [= <- <-] & _). done.
Qed.

(** An elementwise update written as a loop over the indices. *)
Lemma fold_gupd_pointwise {A} (f : A → A) (l : list (nat * nat)) (g : grid A)
    (j i : nat) :
  List.NoDup l →
  fold_left (λ P '(j, i), gupd P j i (f (P j i))) l g j i
  = if decide ((j, i) ∈ l) then f (g j i) else g j i.
Proof.
  intros Hnd%NoDup_ListNoDup.
  revert g. induction l as [|[j' i'] l IH]; intros g.
  { done. }
  apply NoDup_cons in Hnd as [Hnotin Hnd]. simpl fold_left. rewrite IH by done.
  unfold gupd. destruct (decide ((j, i) ∈ l)) as [Hin|Hnin].
  - rewrite decide_True by (by right).
    destruct (Nat.eqb_spec j j'), (Nat.eqb_spec i i'); simpl; try done.
    subst. done.
  - destruct (Nat.eqb_spec j j'), (Nat.eqb_spec i i'); simpl; subst.
    + by rewrite decide_True by (by left).
    + rewrite decide_False; [done|]. intros [Heq|?]%elem_of_cons; [congruence|done].
    + rewrite decide_False; [done|]. intros [Heq|?]%elem_of_cons; [congruence|done].
    + rewrite decide_False; [done|]. intros [Heq|?]%elem_of_cons; [congruence|done].
Qed.

Lemma fold_ndindex_pointwise {A} (f : A → A) (shape : nat * nat) (g : grid A)
    (j i : nat) :
  fold_left (λ P '(j, i), gupd P j i (f (P j i))) (ndindex shape) g j i
  = if decide ((j < fst shape)%nat ∧ (i < snd shape)%nat) then f (g j i) else g j i.
Proof.
  rewrite fold_gupd_pointwise by apply ndindex_NoDup.
  destruct (decide ((j, i) ∈ ndindex shape)) as [H|H];
    rewrite list_elem_of_In, ndindex_spec in H.
  - by rewrite decide_True.
  - by rewrite decide_False.
Qed.

End Ndindex.

(** ** [Star.rotate] and the meridian *)

Section Meridian.

(** Python's [x % y] lies in [[0, y)] for a positive [y] and differs
    from [x] by a multiple of [y]. *)
Lemma Rpymod_range (x y : R) : 0 < y → 0 <= Rpymod x y < y.
Proof.
  intros Hy. unfold Rpymod.
  destruct (base_Int_part (x / y)) as [Hlo Hhi].
  set (k := IZR (Int_part (x / y))) in *.
  assert (Hx : x = x / y * y) by (field; lra).
  split.
  - assert (y * k <= x / y * y) by nra. lra.
  - assert (x / y * y < y * k + y) by nra. lra.
Qed.

(** The two lines of [rotate] that update the meridian. *)
Lemma rotate_meridian (s : Star.star) (angle : float) :
  Star.meridian (Star.rotate s angle) =
    let m := fmod (Star.meridian s + angle)%fl (Fin 360) in
    if (m >? Fin 180)%fl then (m - Fin 360)%fl else m.
Proof. done. Qed.

Lemma reduce_range (x : R) :
  let m := fmod (Fin x) (Fin 360) in
  ∃ m' : R, (if (m >? Fin 180)%fl then (m - Fin 360)%fl else m) = Fin m'
    ∧ -180 < m' <= 180 ∧ ∃ k : Z, m' = x + 360 * IZR k.
Proof.
  cbv zeta. unfold fmod. rewrite (proj2 (Reqb_false 360 0)) by lra.
  pose proof (Rpymod_range x 360 ltac:(lra)) as Hr.
  unfold fgt, flt.
  destruct (Rltb 180 (Rpymod x 360)) eqn:E;
    [apply Rltb_true in E | apply Rltb_false in E].
  - eexists. split; [done|]. split; [lra|].
    exists (- Int_part (x / 360) - 1)%Z. unfold Rpymod.
    rewrite minus_IZR, opp_IZR. lra.
  - eexists. split; [done|]. split; [lra|].
    exists (- Int_part (x / 360))%Z. unfold Rpymod. rewrite opp_IZR. lra.
Qed.

End Meridian.

(** C7. The meridian of a star lies in [(-180, 180]]: it is [0] after
    construction, and [rotate(angle)] sets it to [meridian + angle] reduced
    modulo 360 into that interval, whatever finite value it had; so does
    [set_meridian], which calls [rotate], and the reduced value is then the
    requested meridian modulo 360. *)
Theorem meridian_in_range :
  (∀ c rad axis res σ s σ',
     Star.init c rad axis res σ = Returns s σ' → Star.meridian s = Fin 0) ∧
  (∀ s m a, Star.meridian s = Fin m →
     ∃ m', Star.meridian (Star.rotate s (Fin a)) = Fin m'
           ∧ -180 < m' <= 180 ∧ ∃ k : Z, m' = m + a + 360 * IZR k) ∧
  (∀ s m new, Star.meridian s = Fin m →
     ∃ m', Star.meridian (Star.set_meridian s (Fin new)) = Fin m'
           ∧ -180 < m' <= 180 ∧ ∃ k : Z, m' = new + 360 * IZR k).
Proof.
  split; [|split].
  - intros c rad axis res σ s σ'. unfold Star.init, mbind, M_bind.
    destruct (normalize axis σ); [|done]. by intros [= <- _].
  - intros s m a Hm. rewrite rotate_meridian, Hm. apply (reduce_range (m + a)).
  - intros s m new Hm. unfold Star.set_meridian. rewrite rotate_meridian, Hm.
    destruct (reduce_range (m + (new + - m))) as (m' & H1 & H2 & k & H3).
    exists m'. split; [done|]. split; [done|]. exists k. lra.
Qed.

(** A fresh star turned by 190 degrees ends at -170. *)
Lemma meridian_in_range_witness :
  ∃ m', Star.meridian (Star.rotate (unit_star (fvec 0 0 0)) (Fin 190)) = Fin m'
        ∧ -180 < m' <= 180 ∧ ∃ k : Z, m' = 0 + 190 + 360 * IZR k.
Proof.
  apply (proj1 (proj2 meridian_in_range)). done.
Defined.

(** ** [haversine] and [Star.calc_flux] *)

Section CalcFlux.

(** The distance from a point to itself is zero. *)
Lemma haversine_same (a b : R) : haversine (Fin a) (Fin b) (Fin a) (Fin b) = Fin 0.
Proof.
  unfold haversine, radians, degrees. cbn [fmul fsub fadd fneg].
  rewrite !fdiv_Fin by lra. cbn [fsin fcos fmul fadd].
  replace ((a * (PI / 180) + - (a * (PI / 180))) / 2) with 0 by lra.
  replace ((b * (PI / 180) + - (b * (PI / 180))) / 2) with 0 by lra.
  rewrite sin_0.
  replace (0 * 0 + cos (a * (PI / 180)) * cos (a * (PI / 180)) * (0 * 0)) with 0 by ring.
  rewrite fsqrt_Fin by lra. rewrite sqrt_0. unfold farcsin.
  rewrite (proj2 (Rleb_true (-1) 0)), (proj2 (Rleb_true 0 1)) by lra.
  cbn [andb fmul]. rewrite asin_0. apply Fin_eq. ring.
Qed.

Variables (lat lon : grid float) (j i : nat).

(** A spot that does not reach the grid point leaves its flux alone. *)
Lemma paint_uncovered (post : list Spot.spot) (f : grid mcell) :
  Forall (λ spot, Star.spotted lat lon spot j i = false) post →
  fold_left (Star.paint lat lon) post f j i = f j i.
Proof.
  revert f. induction post as [|spot post IH]; intros f Hpost; [done|].
  apply Forall_cons in Hpost as [Hspot Hpost]. simpl.
  rewrite IH by done. unfold Star.paint. by rewrite Hspot.
Qed.

(** The last spot of the list that reaches the grid point decides. *)
Lemma paint_last_wins (pre post : list Spot.spot) (B : Spot.spot) (f : grid mcell) :
  Star.spotted lat lon B j i = true →
  Forall (λ spot, Star.spotted lat lon spot j i = false) post →
  fold_left (Star.paint lat lon) (pre ++ B :: post) f j i = Valid (Spot.contrast B).
Proof.
  intros HB Hpost. rewrite fold_left_app. simpl.
  rewrite paint_uncovered by done. unfold Star.paint at 1. by rewrite HB.
Qed.

End CalcFlux.

(** C8. With the spot list [[A, B]], a grid point covered by both spots
    gets [B.contrast] from [calc_flux]: the later spot overwrites the
    earlier one, nothing is blended. *)
Theorem calc_flux_later_spot_wins (s : Star.star) (A B : Spot.spot) (j i : nat) :
  Star.spots s = [A; B] →
  Star.spotted (Star.lat s) (Star.lon s) A j i = true →
  Star.spotted (Star.lat s) (Star.lon s) B j i = true →
  Star.flux (Star.calc_flux s) j i = Valid (Spot.contrast B).
Proof.
  intros Hs _ HB. unfold Star.calc_flux. cbn [Star.flux Star.flux_ma Star.with_flux]. rewrite Hs.
  by apply (paint_last_wins _ _ j i [A] [] B).
Qed.

(** Two spots centred on the grid point at latitude and longitude 0, of
    radius 10 and 5 degrees and contrast 0.5 and 0.3. *)
Lemma calc_flux_later_spot_wins_witness :
  let A := Spot.mk (Fin 0) (Fin 0) (Fin 10) (Fin (1 / 2)) in
  let B := Spot.mk (Fin 0) (Fin 0) (Fin 5) (Fin (3 / 10)) in
  Star.flux (Star.calc_flux (Star.add (unit_star (fvec 0 0 0)) [A; B] true)) 0%nat 0%nat
    = Valid (Fin (3 / 10)).
Proof.
  intros A B.
  apply (calc_flux_later_spot_wins _ A B 0%nat 0%nat); [done| |];
    unfold Star.spotted, Star.add, Star.with_spots, unit_star, gconst, A, B;
    cbn [Star.lat Star.lon Spot.lat Spot.lon Spot.radius];
    rewrite haversine_same; apply fle_Fin; lra.
Defined.

(** C9. With an empty spot list, [calc_flux] gives flux 1 at every grid
    point whose [r] is not [nan], and masks the flux of the others. *)
Theorem calc_flux_no_spots (s : Star.star) (j i : nat) :
  Star.spots s = [] →
  (isnan (Star.r s j i) = false → Star.flux (Star.calc_flux s) j i = Valid (Fin 1)) ∧
  (isnan (Star.r s j i) = true → Star.flux (Star.calc_flux s) j i = Masked).
Proof.
  intros Hs. unfold Star.calc_flux. cbn [Star.flux Star.flux_ma Star.with_flux]. rewrite Hs.
  simpl. split; by intros ->.
Qed.

Lemma calc_flux_no_spots_witness :
  Star.flux (Star.calc_flux (unit_star (fvec 0 0 0))) 0%nat 0%nat = Valid (Fin 1).
Proof.
  by apply (proj1 (calc_flux_no_spots (unit_star (fvec 0 0 0)) 0%nat 0%nat eq_refl)).
Defined.

(** ** [Star.rotate] by a full turn *)

Section FullTurn.

(** What the loop of [rotate] and [set_inclination] leaves in [P]. *)
Lemma turn_P (a b g : float) (s : Star.star) (j i : nat) :
  Star.P (Star.turn a b g s) j i =
    if decide ((j < fst (Star.shape s))%nat ∧ (i < snd (Star.shape s))%nat)
    then rotate_basis (Star.P s j i) a b g else Star.P s j i.
Proof.
  unfold Star.turn. cbn [Star.P Star.with_P].
  apply (fold_ndindex_pointwise (λ p, rotate_basis p a b g)).
Qed.

(** A turn by 360 degrees about z leaves a finite point where it is. *)
Lemma rotate_basis_full_turn (x y z : R) :
  rotate_basis (fvec x y z) (Fin 0) (Fin 0) (radians (- Fin 360)%fl) = fvec x y z.
Proof.
  unfold radians. cbn [fneg fmul]. rewrite rotate_basis_fin. cbv zeta.
  replace (- (360) * (PI / 180)) with (- (2 * PI)) by lra.
  rewrite cos_neg, sin_neg, cos_2PI, sin_2PI, cos_0, sin_0.
  unfold fvec. f_equal; apply Fin_eq; ring.
Qed.

Lemma full_turn_P (s : Star.star) (j i : nat) :
  finite_P s →
  Star.P (Star.turn (Fin 0) (Fin 0) (radians (- Fin 360)%fl) s) j i = Star.P s j i.
Proof.
  intros Hfin. rewrite turn_P. destruct (decide _) as [[Hj Hi]|]; [|done].
  destruct (Hfin j i Hj Hi) as (x & y & z & ->). apply rotate_basis_full_turn.
Qed.

(** The flux at a grid point is painted from the data of that point. *)
Lemma paint_ext (lat lon lat' lon' : grid float) (spots : list Spot.spot)
    (f f' : grid mcell) (j i : nat) :
  lat j i = lat' j i → lon j i = lon' j i → f j i = f' j i →
  fold_left (Star.paint lat lon) spots f j i
  = fold_left (Star.paint lat' lon') spots f' j i.
Proof.
  intros Hlat Hlon. revert f f'.
  induction spots as [|spot spots IH]; intros f f' Hf; [done|].
  simpl. apply IH. unfold Star.paint, Star.spotted. by rewrite Hlat, Hlon, Hf.
Qed.

(** The recomputation that ends [rotate] and [set_inclination]: the flux
    of a grid point depends on [P] and [mu] there, on the coefficients
    and on the spots. *)
Lemma recompute_ext (s1 s2 : Star.star) (j i : nat) :
  Star.P s1 j i = Star.P s2 j i → Star.mu s1 j i = Star.mu s2 j i →
  Star.u1 s1 = Star.u1 s2 → Star.u2 s1 = Star.u2 s2 →
  Star.spots s1 = Star.spots s2 →
  Star.flux (Star.limb_darken (Star.calc_flux (Star.spherical s1))) j i
  = Star.flux (Star.limb_darken (Star.calc_flux (Star.spherical s2))) j i.
Proof.
  intros HP Hmu Hu1 Hu2 Hspots.
  unfold Star.limb_darken, Star.calc_flux, Star.spherical.
  cbn [Star.flux Star.flux_ma Star.with_flux Star.with_sph Star.mu Star.u1 Star.u2
       Star.r Star.lat Star.lon Star.spots Star.P].
  rewrite Hmu, Hu1, Hu2, Hspots.
  match goal with |- context [fold_left ?p ?l ?f j i] =>
    match goal with |- _ = ?rhs =>
      match rhs with context [fold_left ?p' l ?f' j i] =>
        assert (fold_left p l f j i = fold_left p' l f' j i) as ->; [|done]
      end end end.
  apply paint_ext; unfold gmap2; by rewrite HP.
Qed.

(** [rotate] leaves a current flux grid, finite grid points and a
    reduced meridian. *)
Lemma rotate_flux_current (s : Star.star) (angle : float) :
  flux_current (Star.rotate s angle).
Proof. intros j i. unfold Star.rotate. cbv zeta. by apply recompute_ext. Qed.

Lemma set_inclination_flux_current (s : Star.star) (new_inclination : float) :
  flux_current (Star.set_inclination s new_inclination).
Proof. intros j i. unfold Star.set_inclination. cbv zeta. by apply recompute_ext. Qed.

Lemma rotate_finite_P (s : Star.star) (a : R) :
  finite_P s → finite_P (Star.rotate s (Fin a)).
Proof.
  intros Hfin j i Hj Hi.
  change (Star.P (Star.rotate s (Fin a)) j i)
    with (Star.P (Star.turn (Fin 0) (Fin 0) (radians (- Fin a)%fl) s) j i).
  rewrite turn_P, decide_True by done.
  destruct (Hfin j i Hj Hi) as (x & y & z & ->).
  apply rotate_basis_is_fvec.
Qed.

Lemma rotate_meridian_reduced (s : Star.star) (m a : R) :
  Star.meridian s = Fin m → meridian_reduced (Star.rotate s (Fin a)).
Proof.
  intros Hm. unfold meridian_reduced. rewrite rotate_meridian, Hm.
  destruct (reduce_range (m + a)) as (m' & H1 & H2 & _). by exists m'.
Qed.

(** Reducing a reduced meridian plus 360 gives it back. *)
Lemma reduce_full_turn (m : R) :
  -180 < m <= 180 →
  let m360 := fmod (Fin m + Fin 360)%fl (Fin 360) in
  (if (m360 >? Fin 180)%fl then (m360 - Fin 360)%fl else m360) = Fin m.
Proof.
  intros Hm. destruct (reduce_range (m + 360)) as (m' & H1 & H2 & k & H3).
  cbv zeta in *. cbn [fadd]. rewrite H1. apply Fin_eq.
  assert (Hk : (k + 1 = 0)%Z).
  { assert (-1 < IZR (k + 1) < 1) as [Hlo Hhi] by (rewrite plus_IZR; lra).
    apply lt_IZR in Hlo, Hhi. lia. }
  assert (IZR k = -1) by (replace k with (-1)%Z by lia; done).
  lra.
Qed.

End FullTurn.

(** C6, as the code has it.  For a star whose meridian is reduced, whose
    grid points are finite and whose flux grid is current, [rotate(360)]
    restores the meridian, every grid point and the flux grid. *)
Theorem rotate_360_restores (s : Star.star) :
  meridian_reduced s → finite_P s → flux_current s →
  Star.meridian (Star.rotate s (Fin 360)) = Star.meridian s ∧
  ∀ j i, Star.P (Star.rotate s (Fin 360)) j i = Star.P s j i
       ∧ Star.flux (Star.rotate s (Fin 360)) j i = Star.flux s j i.
Proof.
  intros (m & Hm & Hrange) Hfin Hcur. split.
  - rewrite rotate_meridian, Hm. by apply reduce_full_turn.
  - intros j i.
    assert (HP : Star.P (Star.rotate s (Fin 360)) j i = Star.P s j i).
    { change (Star.P (Star.rotate s (Fin 360)) j i)
        with (Star.P (Star.turn (Fin 0) (Fin 0) (radians (- Fin 360)%fl) s) j i).
      by apply full_turn_P. }
    split; [done|]. rewrite (Hcur j i).
    unfold Star.rotate. cbv zeta. by apply recompute_ext.
Qed.

(** A star with its grid point at the north pole, turned by 30 degrees and
    then by 360. *)
Lemma rotate_360_restores_witness :
  let s := Star.rotate (unit_star (fvec 0 0 1)) (Fin 30) in
  Star.meridian (Star.rotate s (Fin 360)) = Star.meridian s ∧
  ∀ j i, Star.P (Star.rotate s (Fin 360)) j i = Star.P s j i
       ∧ Star.flux (Star.rotate s (Fin 360)) j i = Star.flux s j i.
Proof.
  intros s. apply (rotate_360_restores s).
  - by apply (rotate_meridian_reduced _ 0).
  - apply rotate_finite_P. intros j i _ _. by exists 0, 0, 1.
  - apply rotate_flux_current.
Defined.

(** A freshly constructed star has a flux grid of zeros; [rotate(360)]
    replaces it by ones. *)
Lemma rotate_360_changes_fresh_flux :
  ∃ s σ',
    Star.init (fvec 0 0 0) (Fin 1) 0%nat 1 {[ 0%nat := fvec 0 1 0 ]} = Returns s σ'
    ∧ Star.flux s 0%nat 0%nat = Valid (Fin 0)
    ∧ Star.flux (Star.rotate s (Fin 360)) 0%nat 0%nat = Valid (Fin 1).
Proof.
  destruct (Star_init_returns (fvec 0 0 0) (Fin 1) 0%nat 1 {[ 0%nat := fvec 0 1 0 ]}
              (fvec 0 1 0) (lookup_singleton_eq _ _)) as (s & Hs & _).
  eexists s, _. split; [exact Hs|].
  unfold Star.init, mbind, M_bind in Hs.
  rewrite (normalize_returns 0%nat _ (fvec 0 1 0)) in Hs by apply lookup_singleton_eq.
  injection Hs as <-. split; [done|].
  unfold Star.rotate. cbv zeta.
  unfold Star.limb_darken, Star.calc_flux, Star.spherical.
  cbn [Star.flux Star.flux_ma Star.with_flux Star.with_sph Star.mu Star.u1 Star.u2
       Star.r Star.lat Star.lon Star.spots Star.P Star.turn Star.with_P
       Star.with_meridian Star.shape fold_left].
  unfold gmap2.
  rewrite (fold_ndindex_pointwise (λ p, rotate_basis p (Fin 0) (Fin 0) (radians (- Fin 360)%fl))).
  rewrite decide_True by (simpl; lia).
  unfold gconst. rewrite rotate_basis_full_turn.
  unfold fvec. cbn [vx vy vz fmul fadd].
  rewrite fsqrt_Fin by lra. cbn [isnan mlift mlift2 msquare fsub fneg fadd fmul isfinite].
  f_equal. apply Fin_eq. ring.
Qed.

(** ** [Scene.trace] *)

Section FloatOrder.

Lemma fge_false_flt (a b : float) :
  isnan a = false → isnan b = false → (a >=? b)%fl = false → (a <? b)%fl = true.
Proof.
  unfold fge. destruct a, b; simpl; try done.
  intros _ _ H%Rleb_false. by apply Rltb_true.
Qed.


Lemma flt_fle (a b : float) : (a <? b)%fl = true → (a <=? b)%fl = true.
Proof.
  destruct a, b; simpl; try done. intros H%Rltb_true. apply Rleb_true. lra.
Qed.

Lemma flt_fle_trans (a b c : float) :
  (a <? b)%fl = true → (b <=? c)%fl = true → (a <? c)%fl = true.
Proof.
  destruct a, b, c; simpl; try done.
  intros H1%Rltb_true H2%Rleb_true. apply Rltb_true. lra.
Qed.

Lemma flt_trans (a b c : float) :
  (a <? b)%fl = true → (b <? c)%fl = true → (a <? c)%fl = true.
Proof. intros H1 H2. eapply flt_fle_trans; [done|]. by apply flt_fle. Qed.


Lemma fge_PInf (a : float) : (a >=? PInf)%fl = true → a = PInf.
Proof. unfold fge. by destruct a. Qed.


End FloatOrder.

Section PixelLoop.

Variables (ray : Ray) (j i : nat).

(** A turn of the loop over the bodies changes nothing but the four
    grids, and those at pixel [(j, i)] only. *)
Lemma try_body_frame (acc : float * Scene.scene) (b : Body) :
  let s := snd acc in
  let s' := snd (Scene.try_body ray j i acc b) in
  same_setup s s' ∧
  ∀ j' i', (j', i') <> (j, i) → cell s' j' i' = cell s j' i'.
Proof.
  destruct acc as [t_min s]. unfold Scene.try_body. cbv zeta.
  destruct (_ >=? _)%fl; [done|]. split; [done|].
  intros j' i' Hne. unfold cell, Scene.record_hit, gupd. simpl.
  destruct (Nat.eqb_spec j' j), (Nat.eqb_spec i' i); simpl; try done.
  by subst.
Qed.

Lemma bodies_loop_frame (bodies : list Body) (acc : float * Scene.scene) :
  let s := snd acc in
  let s' := snd (fold_left (Scene.try_body ray j i) bodies acc) in
  same_setup s s' ∧
  ∀ j' i', (j', i') <> (j, i) → cell s' j' i' = cell s j' i'.
Proof.
  revert acc. induction bodies as [|b bodies IH]; intros acc; [done|].
  simpl fold_left. cbv zeta.
  destruct (IH (Scene.try_body ray j i acc b)) as [(H1 & H2 & H3 & H4 & H5 & H7) H6].
  destruct (try_body_frame acc b) as [(G1 & G2 & G3 & G4 & G5 & G7) G6].
  split.
  - unfold same_setup. repeat split; congruence.
  - intros j' i' Hne. rewrite H6, G6; done.
Qed.

(** The loop over the bodies, started with the running minimum [t0]:
    either no body comes below [t0] and pixel [(j, i)] is left as it
    was, or the pixel holds the record of the first body of least
    depth. *)
Lemma bodies_loop_spec (bodies : list Body) (t0 : float) (s : Scene.scene) :
  isnan t0 = false →
  (∀ b, b ∈ bodies → isnan (intersect ray b) = false) →
  let s' := snd (fold_left (Scene.try_body ray j i) bodies (t0, s)) in
  ((∀ b, b ∈ bodies → (intersect ray b >=? t0)%fl = true) ∧ cell s' j i = cell s j i)
  ∨ (∃ pre b post, bodies = pre ++ b :: post ∧
       (intersect ray b <? t0)%fl = true ∧
       (∀ b', b' ∈ pre → (intersect ray b <? intersect ray b')%fl = true) ∧
       (∀ b', b' ∈ post → (intersect ray b <=? intersect ray b')%fl = true) ∧
       cell s' j i = hit_cell ray b (intersect ray b)).
Proof.
  revert t0 s. induction bodies as [|b0 bodies IH]; intros t0 s Ht0 Hnan; cbv zeta.
  { left. split; [|done]. by intros b ?%elem_of_nil. }
  simpl fold_left.
  change (Scene.try_body ray j i (t0, s) b0)
    with (if (intersect ray b0 >=? t0)%fl then (t0, s)
          else (intersect ray b0,
                Scene.record_hit s j i b0 (intersect ray b0)
                  (Scene.hit_mu ray b0 (intersect ray b0)))).
  assert (Hb0 : isnan (intersect ray b0) = false) by (apply Hnan; by left).
  assert (Hrest : ∀ b, b ∈ bodies → isnan (intersect ray b) = false)
    by (intros b Hb; apply Hnan; by right).
  destruct (intersect ray b0 >=? t0)%fl eqn:Hge.
  - destruct (IH t0 s Ht0 Hrest) as [[Hall Hcell] | (pre & b & post & -> & Hlt & Hpre & Hpost & Hcell)].
    + left. split; [|done]. intros b [->|Hb]%elem_of_cons; [done|by apply Hall].
    + right. exists (b0 :: pre), b, post. split; [done|]. split; [done|].
      split; [|done]. intros b' [->|Hb']%elem_of_cons; [|by apply Hpre].
      eapply flt_fle_trans; [exact Hlt|exact Hge].
  - apply fge_false_flt in Hge; [|done..].
    set (s1 := Scene.record_hit s j i b0 _ _).
    assert (Hs1 : cell s1 j i = hit_cell ray b0 (intersect ray b0)).
    { unfold cell, hit_cell, s1, Scene.record_hit, gupd. simpl.
      by rewrite !Nat.eqb_refl. }
    destruct (IH (intersect ray b0) s1 Hb0 Hrest)
      as [[Hall Hcell] | (pre & b & post & -> & Hlt & Hpre & Hpost & Hcell)].
    + right. exists [], b0, bodies. split; [done|]. split; [done|].
      split; [by intros b' ?%elem_of_nil|]. split; [|by rewrite Hcell].
      intros b' Hb'. by apply Hall.
    + right. exists (b0 :: pre), b, post. split; [done|].
      split; [by eapply flt_trans|]. split; [|done].
      intros b' [->|Hb']%elem_of_cons; [done|by apply Hpre].
Qed.

End PixelLoop.

Section TraceLoop.

Lemma trace_pixel_spec (s : Scene.scene) (j i : nat) (xi yj : float) :
  Scene.x s !! i = Some xi → Scene.y s !! j = Some yj →
  ∃ s', Scene.trace_pixel s (j, i) = Some s' ∧ same_setup s s' ∧
    (∀ j' i', (j', i') <> (j, i) → cell s' j' i' = cell s j' i') ∧
    ((∀ b, b ∈ Scene.bodies s → isnan (intersect (pixel_ray s xi yj) b) = false) →
     pixel_outcome (Scene.bodies s) (pixel_ray s xi yj) (cell s j i) (cell s' j i)).
Proof.
  intros Hx Hy. unfold Scene.trace_pixel. rewrite Hx, Hy. simpl.
  fold (pixel_ray s xi yj). eexists. split; [done|].
  destruct (bodies_loop_frame (pixel_ray s xi yj) j i (Scene.bodies s) (PInf, s))
    as [Hsetup Hframe].
  split; [done|]. split; [done|]. intros Hnan.
  destruct (bodies_loop_spec (pixel_ray s xi yj) j i (Scene.bodies s) PInf s eq_refl Hnan)
    as [[Hall Hcell] | (pre & b & post & Hb & Hlt & Hpre & Hpost & Hcell)].
  - left. split; [|done]. intros b Hb. by apply fge_PInf, Hall.
  - right. by exists pre, b, post.
Qed.

Lemma for_each_trace_pixel (l : list (nat * nat)) (s : Scene.scene) :
  NoDup l → sampled s →
  (∀ j i, (j, i) ∈ l → (j < fst (Scene.shape s))%nat ∧ (i < snd (Scene.shape s))%nat) →
  ∃ s', Scene.for_each Scene.trace_pixel l s = Some s' ∧ same_setup s s' ∧
    ∀ j i,
      ((j, i) ∉ l → cell s' j i = cell s j i) ∧
      ((j, i) ∈ l → ∀ xi yj,
         Scene.x s !! i = Some xi → Scene.y s !! j = Some yj →
         (∀ b, b ∈ Scene.bodies s → isnan (intersect (pixel_ray s xi yj) b) = false) →
         pixel_outcome (Scene.bodies s) (pixel_ray s xi yj) (cell s j i) (cell s' j i)).
Proof.
  revert s. induction l as [|[j0 i0] l IH]; intros s Hnd (Hsh & Hsx & Hsy) Hrange.
  { exists s. split; [done|]. split; [done|]. intros j i. split; [done|].
    by intros ?%elem_of_nil. }
  apply NoDup_cons in Hnd as [Hnotin Hnd].
  destruct (Hrange j0 i0 ltac:(by left)) as [Hj0 Hi0].
  rewrite Hsh in Hj0, Hi0. simpl in Hj0, Hi0.
  destruct (lookup_lt_is_Some_2 (Scene.x s) i0 ltac:(lia)) as [xi0 Hxi0].
  destruct (lookup_lt_is_Some_2 (Scene.y s) j0 ltac:(lia)) as [yj0 Hyj0].
  destruct (trace_pixel_spec s j0 i0 xi0 yj0 Hxi0 Hyj0)
    as (s1 & Hs1 & (B1 & R1 & S1 & X1 & Y1 & Z1) & Hframe1 & Hout1).
  destruct (IH s1 Hnd) as (s' & Hs' & (B2 & R2 & S2 & X2 & Y2 & Z2) & Hcells).
  { unfold sampled. by rewrite S1, X1, Y1, R1. }
  { intros j i Hin. rewrite S1. apply Hrange. by right. }
  exists s'. split; [cbn [Scene.for_each]; by rewrite Hs1|].
  split; [unfold same_setup; repeat split; congruence|].
  intros j i. destruct (Hcells j i) as [Hout Hin]. split.
  - intros Hni%not_elem_of_cons. destruct Hni as [Hne Hni].
    rewrite Hout by done. by apply Hframe1.
  - intros [[= -> ->]|Hl]%elem_of_cons xi yj Hxi Hyj Hnan.
    + rewrite Hout by done. assert (xi = xi0) as -> by congruence.
      assert (yj = yj0) as -> by congruence. by apply Hout1.
    + assert (Hne : (j, i) <> (j0, i0)) by (intros [= -> ->]; done).
      rewrite <- (Hframe1 j i Hne). rewrite <- B1.
      assert (Hray : pixel_ray s xi yj = pixel_ray s1 xi yj)
        by (unfold pixel_ray; by rewrite Z1).
      rewrite Hray. apply Hin; [done|by rewrite X1|by rewrite Y1|].
      intros b Hb. rewrite <- Hray. apply Hnan. by rewrite <- B1.
Qed.

(** [trace] returns, and every pixel holds its previous values or the
    record of the nearest hit. *)
Lemma trace_cells (s : Scene.scene) :
  sampled s →
  ∃ s', Scene.trace s = Some s' ∧ same_setup s s' ∧
    ∀ j i xi yj,
      Scene.x s !! i = Some xi → Scene.y s !! j = Some yj →
      (∀ b, b ∈ Scene.bodies s → isnan (intersect (pixel_ray s xi yj) b) = false) →
      pixel_outcome (Scene.bodies s) (pixel_ray s xi yj) (cell s j i) (cell s' j i).
Proof.
  intros Hs. unfold Scene.trace.
  destruct (for_each_trace_pixel (ndindex (Scene.shape s)) s) as (s' & Hs' & Hsame & Hcells).
  - apply NoDup_ListNoDup, ndindex_NoDup.
  - done.
  - intros j i Hin. by apply ndindex_spec, list_elem_of_In.
  - exists s'. split; [done|]. split; [done|]. intros j i xi yj Hxi Hyj Hnan.
    apply (Hcells j i); [|done..].
    apply list_elem_of_In, ndindex_spec. destruct Hs as (Hsh & Hsx & Hsy).
    apply lookup_lt_Some in Hxi, Hyj. rewrite Hsh. simpl. lia.
Qed.

End TraceLoop.

Section SceneSetup.

Lemma linspace_length (a b : float) (n : nat) : length (linspace a b n) = n.
Proof.
  unfold linspace. destruct n as [|[|n]]; [done..|].
  by rewrite length_map, length_seq.
Qed.

Lemma get_extent_sampled (s : Scene.scene) :
  Scene.shape s = (Scene.res s, Scene.res s) → sampled (Scene.get_extent s).
Proof.
  intros Hsh. unfold Scene.get_extent.
  destruct (match Scene.bodies s with [] => _ | _ => _ end) as [[[[xmin xmax] ymin] ymax] zmax].
  unfold sampled. cbn [Scene.shape Scene.res Scene.x Scene.y].
  by rewrite !linspace_length.
Qed.

Lemma get_extent_cell (s : Scene.scene) (j i : nat) :
  cell (Scene.get_extent s) j i = cell s j i.
Proof.
  unfold Scene.get_extent.
  by destruct (match Scene.bodies s with [] => _ | _ => _ end) as [[[[xmin xmax] ymin] ymax] zmax].
Qed.

Lemma init_sampled (bodies : list Body) (res : nat) : sampled (Scene.init bodies res).
Proof. by apply get_extent_sampled. Qed.

Lemma init_cell (bodies : list Body) (res : nat) (j i : nat) :
  cell (Scene.init bodies res) j i = default_cell.
Proof. unfold Scene.init. by rewrite get_extent_cell. Qed.

Lemma add_sampled (s : Scene.scene) (new : list Body) :
  sampled s → sampled (Scene.add s new).
Proof. intros (Hsh & _). by apply get_extent_sampled. Qed.

Lemma add_cell (s : Scene.scene) (new : list Body) (j i : nat) :
  cell (Scene.add s new) j i = cell s j i.
Proof. unfold Scene.add. by rewrite get_extent_cell. Qed.

Lemma same_setup_sampled (s s' : Scene.scene) :
  same_setup s s' → sampled s → sampled s'.
Proof.
  intros (_ & R & S & X & Y & _) (Hsh & Hx & Hy). unfold sampled.
  by rewrite R, S, X, Y.
Qed.

End SceneSetup.

Section FiniteRays.

(** A ray between finite points has a finite direction, or a direction
    of three [nan] when the two points coincide. *)
Lemma normalized_finite_or_nan (x y z : R) :
  (∃ x' y' z', normalized (fvec x y z) = fvec x' y' z') ∨
  normalized (fvec x y z) = nan_vec.
Proof.
  destruct (Req_dec_T x 0) as [->|Hx]; [destruct (Req_dec_T y 0) as [->|Hy];
    [destruct (Req_dec_T z 0) as [->|Hz]|]|].
  - right. apply normalized_zero.
  - left. rewrite normalized_fvec by tauto. by eexists _, _, _.
  - left. rewrite normalized_fvec by tauto. by eexists _, _, _.
  - left. rewrite normalized_fvec by tauto. by eexists _, _, _.
Qed.

(** Between finite points and a finite sphere, [intersect] is a finite
    depth or [+inf], never [nan]. *)
Lemma intersect_finite_not_nan (ox oy oz dx dy dz cx cy cz rad : R) :
  isnan (intersect (Ray_init (fvec ox oy oz) (fvec dx dy dz))
                   (mkBody (fvec cx cy cz) (Fin rad))) = false.
Proof.
  unfold Ray_init.
  change (vsub (fvec dx dy dz) (fvec ox oy oz))
    with (fvec (dx + - ox) (dy + - oy) (dz + - oz)).
  destruct (normalized_finite_or_nan (dx + - ox) (dy + - oy) (dz + - oz))
    as [(x' & y' & z' & ->) | ->].
  - unfold intersect, root_plus, root_minus, discriminant, qa, qb, qc,
      origin_center, dot, vsub, fvec, fge.
    cbn [vx vy vz fmul fsub fadd fneg origin center u radius fle].
    destruct (Rleb 0 _) eqn:Hd; [|done]. apply Rleb_true in Hd.
    rewrite fsqrt_Fin by done. cbn [fadd fneg]. rewrite !fdiv_Fin by lra.
    unfold npmin2, npmax2. cbn [isnan orb fle].
    by repeat destruct (Rleb _ _).
  - unfold intersect, discriminant, qa, qb, qc, origin_center, dot, vsub,
      nan_vec, fvec, fge.
    by cbn [vx vy vz fmul fsub fadd fneg origin center u radius fle].
Qed.

End FiniteRays.

(** C2, as the code has it.  [Scene.__init__] fills the grids with the
    defaults [flux = nan], [body = None], [mu = nan], [t = inf]; [add]
    leaves the grids alone; and [trace] returns with every pixel holding
    either the record of the nearest hit (owning body, depth [t], [mu] by
    the formula of the code, flux 1) or, when its ray misses every body,
    the values it held before the call.  This is for pixels where no depth
    is [nan], which is every pixel of a scene with finite coordinates and
    finite spheres. *)
Theorem trace_spec :
  (∀ bodies res, sampled (Scene.init bodies res)
     ∧ ∀ j i, cell (Scene.init bodies res) j i = default_cell) ∧
  (∀ s new, sampled s → sampled (Scene.add s new)
     ∧ ∀ j i, cell (Scene.add s new) j i = cell s j i) ∧
  (∀ s, sampled s →
     ∃ s', Scene.trace s = Some s' ∧ same_setup s s' ∧
       ∀ j i xi yj,
         Scene.x s !! i = Some xi → Scene.y s !! j = Some yj →
         (∀ b, b ∈ Scene.bodies s → isnan (intersect (pixel_ray s xi yj) b) = false) →
         pixel_outcome (Scene.bodies s) (pixel_ray s xi yj) (cell s j i) (cell s' j i)) ∧
  (∀ s xi yj z cx cy cz rad, Scene.zmax s = Fin z →
     isnan (intersect (pixel_ray s (Fin xi) (Fin yj))
                      (mkBody (fvec cx cy cz) (Fin rad))) = false).
Proof.
  split; [|split; [|split]].
  - intros bodies res. split; [apply init_sampled|apply init_cell].
  - intros s new Hs. split; [by apply add_sampled|apply add_cell].
  - apply trace_cells.
  - intros s xi yj z cx cy cz rad Hz. unfold pixel_ray. rewrite Hz.
    apply (intersect_finite_not_nan xi yj z xi yj 0).
Qed.


Section TwoTraces.

Lemma npmin2_Fin (a b : R) : npmin2 (Fin a) (Fin b) = Fin (Rmin a b).
Proof.
  unfold npmin2, Rmin. cbn [isnan orb fle]. unfold Rleb.
  by destruct (Rle_dec a b).
Qed.

Lemma npmax2_Fin (a b : R) : npmax2 (Fin a) (Fin b) = Fin (Rmax a b).
Proof.
  unfold npmax2, Rmax. cbn [isnan orb fle]. unfold Rleb.
  by destruct (Rle_dec a b).
Qed.

Lemma linspace3 (a b : R) :
  linspace (Fin a) (Fin b) 3 = [Fin a; Fin ((a + b) / 2); Fin b].
Proof.
  unfold linspace. cbn [map seq Nat.eqb Nat.sub INR fsub fneg fadd].
  rewrite fdiv_Fin by lra. cbn [fmul fadd].
  f_equal; [apply Fin_eq; lra|]. f_equal. apply Fin_eq. lra.
Qed.

(** The sampling of a scene that holds the unit sphere at the origin. *)
Lemma get_extent_one (s : Scene.scene) :
  Scene.bodies s = [ball0] → Scene.res s = 3%nat →
  Scene.x (Scene.get_extent s) = [Fin (-1); Fin 0; Fin 1] ∧
  Scene.y (Scene.get_extent s) = [Fin (-1); Fin 0; Fin 1] ∧
  Scene.zmax (Scene.get_extent s) = Fin 1 ∧
  Scene.bodies (Scene.get_extent s) = [ball0].
Proof.
  intros Hb Hres. unfold Scene.get_extent. rewrite Hb, Hres.
  unfold ball0, npmin, npmax, fvec.
  cbn [map fold_left center radius vx vy vz fadd fsub fneg].
  rewrite npmin2_Fin, npmax2_Fin.
  cbn [fst snd Scene.x Scene.y Scene.zmax Scene.bodies].
  rewrite linspace3, Rmin_left, Rmax_left by lra.
  repeat split; try done; try (apply Fin_eq; lra);
    repeat (f_equal; try (apply Fin_eq; lra)).
Qed.

(** The same scene after a second unit sphere at [(10, 0, 0)] is added. *)
Lemma get_extent_two (s : Scene.scene) :
  Scene.bodies s = [ball0; ball10] → Scene.res s = 3%nat →
  Scene.x (Scene.get_extent s) = [Fin (-1); Fin 5; Fin 11] ∧
  Scene.y (Scene.get_extent s) = [Fin (-1); Fin 5; Fin 11] ∧
  Scene.zmax (Scene.get_extent s) = Fin 1 ∧
  Scene.bodies (Scene.get_extent s) = [ball0; ball10].
Proof.
  intros Hb Hres. unfold Scene.get_extent. rewrite Hb, Hres.
  unfold ball0, ball10, npmin, npmax, fvec.
  cbn [map fold_left center radius vx vy vz fadd fsub fneg].
  rewrite !npmin2_Fin, !npmax2_Fin.
  cbn [fst snd Scene.x Scene.y Scene.zmax Scene.bodies].
  rewrite linspace3.
  rewrite (Rmin_left (0 + - (1)) (10 + - (1))), (Rmax_right (0 + 1) (10 + 1)) by lra.
  rewrite !(Rmin_left (0 + - (1)) (0 + - (1))), !(Rmax_left (0 + 1) (0 + 1)) by lra.
  rewrite (Rmax_left (10 + 1) (0 + 1)) by lra.
  repeat split; try done; try (apply Fin_eq; lra);
    repeat (f_equal; try (apply Fin_eq; lra)).
Qed.

(** With the camera plane at [z = 1] every ray points along [-z]. *)
Lemma pixel_ray_down (s : Scene.scene) (a b : R) :
  Scene.zmax s = Fin 1 →
  pixel_ray s (Fin a) (Fin b) = mkRay (fvec a b 1) (fvec a b 0) (fvec 0 0 (-1)).
Proof.
  intros Hz. unfold pixel_ray, Ray_init. rewrite Hz. fold (fvec a b 1) (fvec a b 0).
  f_equal.
  change (vsub (fvec a b 0) (fvec a b 1)) with (fvec (a + - a) (b + - b) (0 + - 1)).
  rewrite normalized_fvec by (right; right; lra). cbv zeta.
  replace ((a + - a) * (a + - a) + (b + - b) * (b + - b) + (0 + - 1) * (0 + - 1))
    with 1 by ring.
  rewrite sqrt_1. unfold fvec. f_equal; apply Fin_eq; field.
Qed.

(** The central ray starts on the sphere: depth 0, and [mu = 0/0]. *)
Lemma central_hit :
  let ray := mkRay (fvec 0 0 1) (fvec 0 0 0) (fvec 0 0 (-1)) in
  intersect ray ball0 = Fin 0 ∧ Scene.hit_mu ray ball0 (Fin 0) = NaN.
Proof.
  cbv zeta. split.
  - unfold intersect, root_plus, root_minus, discriminant, qa, qb, qc,
      origin_center, dot, vsub, ball0, fvec, fge.
    cbn [vx vy vz fmul fsub fadd fneg origin center u radius].
    match goal with |- context [fsqrt (Fin ?d)] =>
      replace d with (2 * 2) by lra end.
    rewrite (proj2 (fle_Fin 0 (2 * 2))) by lra.
    rewrite fsqrt_Fin by lra. rewrite sqrt_square by lra.
    cbn [fmul fsub fadd fneg]. rewrite !fdiv_Fin by lra.
    unfold npmin2, npmax2. cbn [isnan orb fle]. unfold Rleb.
    repeat match goal with |- context [Rle_dec ?a ?b] => destruct (Rle_dec a b) end;
      try lra; apply Fin_eq; lra.
  - unfold Scene.hit_mu, norm, dot, vsub, vadd, vscale, ball0, fvec.
    cbn [vx vy vz fmul fsub fadd fneg origin center u radius].
    rewrite !fsqrt_Fin by nra. cbn [fmul].
    match goal with |- (Fin ?a / Fin ?b)%fl = _ =>
      replace a with 0 by ring;
      replace b with 0 end.
    + cbn [fdiv]. rewrite (proj2 (Reqb_true 0 0)) by done. unfold signed_inf.
      by rewrite (proj2 (Rltb_false 0 0)) by lra.
    + match goal with |- 0 = sqrt ?a * _ => replace a with 0 by ring end.
      rewrite sqrt_0. ring.
Qed.

(** The ray through [(5, 5)] misses a unit sphere centred on the x axis. *)
Lemma far_miss (c : R) :
  intersect (mkRay (fvec 5 5 1) (fvec 5 5 0) (fvec 0 0 (-1)))
            (mkBody (fvec c 0 0) (Fin 1)) = PInf.
Proof.
  unfold intersect. rewrite flt_not_fge; [done|].
  unfold discriminant, qa, qb, qc, origin_center, dot, vsub, fvec.
  cbn [vx vy vz fmul fsub fadd fneg origin center u radius].
  apply flt_Fin. pose proof (Rle_0_sqr (5 + - c)) as Hsq. unfold Rsqr in Hsq. lra.
Qed.

End TwoTraces.

(** The scene with the unit sphere, at resolution 3: the trace returns and
    the central pixel, which held the defaults, is as the theorem says. *)
Lemma trace_spec_witness :
  ∃ s', Scene.trace (Scene.init [ball0] 3) = Some s' ∧
    pixel_outcome [ball0] (mkRay (fvec 0 0 1) (fvec 0 0 0) (fvec 0 0 (-1)))
      default_cell (cell s' 1%nat 1%nat).
Proof.
  destruct (proj1 (proj2 (proj2 trace_spec)) (Scene.init [ball0] 3) (init_sampled _ _))
    as (s' & Ht & _ & Hc).
  destruct (get_extent_one
              (Scene.mk [ball0] 3 (3%nat, 3%nat) (NaN, NaN) [] [] NaN
                        (gconst NaN) (gconst None) (gconst NaN) (gconst PInf))
              eq_refl eq_refl) as (Hxa & Hya & Hza & Hba).
  fold (Scene.init [ball0] 3) in Hxa, Hya, Hza, Hba.
  exists s'. split; [exact Ht|].
  specialize (Hc 1%nat 1%nat (Fin 0) (Fin 0)).
  rewrite Hxa, Hya, Hba, (pixel_ray_down _ 0 0 Hza), init_cell in Hc.
  apply Hc; [reflexivity|reflexivity|].
  intros b ->%list_elem_of_singleton.
  destruct central_hit as [Hhit _]. cbv zeta in Hhit. by rewrite Hhit.
Defined.

(** A scene with one sphere is traced, a second sphere is added far to the
    right and the scene is traced again.  The central pixel now looks at
    [(5, 5)], where the ray misses both spheres, and still holds the hit
    of the first trace. *)
Lemma trace_keeps_stale_pixels :
  ∃ s1 s2,
    Scene.trace (Scene.init [ball0] 3) = Some s1 ∧
    Scene.trace (Scene.add s1 [ball10]) = Some s2 ∧
    Scene.x (Scene.add s1 [ball10]) !! 1%nat = Some (Fin 5) ∧
    Scene.y (Scene.add s1 [ball10]) !! 1%nat = Some (Fin 5) ∧
    (∀ b, b ∈ Scene.bodies (Scene.add s1 [ball10]) →
       intersect (pixel_ray (Scene.add s1 [ball10]) (Fin 5) (Fin 5)) b = PInf) ∧
    cell s2 1%nat 1%nat = (Fin 1, Some ball0, NaN, Fin 0).
Proof.
  set (sa := Scene.init [ball0] 3).
  destruct (trace_cells sa (init_sampled _ _)) as (s1 & Ht1 & Hsame1 & Hc1).
  destruct (get_extent_one
              (Scene.mk [ball0] 3 (3%nat, 3%nat) (NaN, NaN) [] [] NaN
                        (gconst NaN) (gconst None) (gconst NaN) (gconst PInf))
              eq_refl eq_refl) as (Hxa & Hya & Hza & Hba).
  fold (Scene.init [ball0] 3) in Hxa, Hya, Hza, Hba. fold sa in Hxa, Hya, Hza, Hba.
  destruct central_hit as [Hhit Hmu]. cbv zeta in Hhit, Hmu.
  (* the first trace *)
  assert (Hcell1 : cell s1 1%nat 1%nat = (Fin 1, Some ball0, NaN, Fin 0)).
  { specialize (Hc1 1%nat 1%nat (Fin 0) (Fin 0)).
    rewrite Hxa, Hya, Hba, (pixel_ray_down sa 0 0 Hza) in Hc1.
    destruct Hc1 as [[Hall _] | (pre & b & post & Hl & _ & _ & _ & Hcell)]; [done..| | |].
    - intros b ->%list_elem_of_singleton. by rewrite Hhit.
    - specialize (Hall ball0 ltac:(by left)). by rewrite Hhit in Hall.
    - destruct pre as [|b' [|b'' pre]]; try done. injection Hl as <-.
      rewrite Hcell. unfold hit_cell. by rewrite Hhit, Hmu. }
  (* the second trace *)
  destruct Hsame1 as (B1 & R1 & S1 & X1 & Y1 & Z1).
  set (sb := Scene.add s1 [ball10]).
  assert (Hsb : sampled sb)
    by (apply add_sampled, (same_setup_sampled sa); [done|apply init_sampled]).
  destruct (get_extent_two
              (Scene.mk (Scene.bodies s1 ++ [ball10]) (Scene.res s1) (Scene.shape s1)
                        (Scene.extent s1) (Scene.x s1) (Scene.y s1) (Scene.zmax s1)
                        (Scene.flux s1) (Scene.body s1) (Scene.mu s1) (Scene.t s1)))
    as (Hxb & Hyb & Hzb & Hbb).
  { cbn [Scene.bodies]. by rewrite B1, Hba. }
  { cbn [Scene.res]. by rewrite R1. }
  fold (Scene.add s1 [ball10]) in Hxb, Hyb, Hzb, Hbb. fold sb in Hxb, Hyb, Hzb, Hbb.
  assert (Hmiss : ∀ b, b ∈ Scene.bodies sb →
            intersect (pixel_ray sb (Fin 5) (Fin 5)) b = PInf).
  { rewrite Hbb, (pixel_ray_down sb 5 5 Hzb).
    intros b [->|[->|?%elem_of_nil]%elem_of_cons]%elem_of_cons; [apply far_miss..|done]. }
  destruct (trace_cells sb Hsb) as (s2 & Ht2 & _ & Hc2).
  exists s1, s2. fold sb. split; [done|]. split; [done|].
  split; [by rewrite Hxb|]. split; [by rewrite Hyb|]. split; [done|].
  specialize (Hc2 1%nat 1%nat (Fin 5) (Fin 5)).
  destruct Hc2 as [[_ Hcell] | (pre & b & post & Hl & Hlt & _)].
  - by rewrite Hxb.
  - by rewrite Hyb.
  - intros b Hb. by rewrite (Hmiss b Hb).
  - rewrite Hcell. unfold sb. by rewrite add_cell.
  - rewrite (Hmiss b) in Hlt; [done|]. rewrite Hl. apply elem_of_app. right. by left.
Qed.


(** * Further properties *)

(** ** [haversine] *)

Section Haversine.

(** The quantity under the square root, in radians. *)
Let hav (l1 g1 l2 g2 : R) : R :=
  sin ((l2 + - l1) / 2) * sin ((l2 + - l1) / 2)
  + cos l1 * cos l2 * (sin ((g2 + - g1) / 2) * sin ((g2 + - g1) / 2)).

Lemma sin_half_sq (x : R) : sin (x / 2) * sin (x / 2) = (1 - cos x) / 2.
Proof.
  pose proof (cos_2a_sin (x / 2)) as H.
  replace (2 * (x / 2)) with x in H by lra. lra.
Qed.

(** It is [(1 - cos d) / 2] for the central angle [d], so it lies in
    [[0, 1]]. *)
Lemma hav_bounds (l1 g1 l2 g2 : R) : 0 <= hav l1 g1 l2 g2 <= 1.
Proof.
  unfold hav. rewrite !sin_half_sq.
  replace (l2 + - l1) with (l2 - l1) by lra. rewrite cos_minus.
  pose proof (sin2_cos2 l1) as H1. pose proof (sin2_cos2 l2) as H2.
  unfold Rsqr in H1, H2.
  pose proof (COS_bound (g2 + - g1)) as [Hlo Hhi].
  set (cd := cos (g2 + - g1)) in *.
  set (S1 := sin l1) in *. set (C1 := cos l1) in *.
  set (S2 := sin l2) in *. set (C2 := cos l2) in *.
  assert (Hcd : 0 <= C2 * C2 * (1 - cd * cd)).
  { apply Rmult_le_pos; [apply Rle_0_sqr|nra]. }
  pose proof (Rle_0_sqr (S1 - S2)) as Q1. pose proof (Rle_0_sqr (C1 - C2 * cd)) as Q2.
  pose proof (Rle_0_sqr (S1 + S2)) as Q3. pose proof (Rle_0_sqr (C1 + C2 * cd)) as Q4.
  unfold Rsqr in Q1, Q2, Q3, Q4. split; nra.
Qed.

Lemma asin_unit_range (x : R) : 0 <= x <= 1 → 0 <= asin x <= PI / 2.
Proof.
  intros Hx. pose proof (asin_bound x) as [Hlo Hhi]. split; [|done].
  destruct (Rle_dec 0 (asin x)) as [|Hneg]; [done|]. exfalso.
  assert (Hs : sin (asin x) < 0) by (apply sin_lt_0_var; pose proof PI_RGT_0; lra).
  rewrite sin_asin in Hs by lra. lra.
Qed.

(** [haversine] on finite degrees, in closed form. *)
Lemma haversine_fin (lat1 lon1 lat2 lon2 : R) :
  let k := PI / 180 in
  haversine (Fin lat1) (Fin lon1) (Fin lat2) (Fin lon2)
  = Fin (2 * asin (sqrt (hav (lat1 * k) (lon1 * k) (lat2 * k) (lon2 * k))) * (180 / PI)).
Proof.
  cbv zeta. unfold haversine, radians, degrees. cbn [fmul fsub fadd fneg].
  rewrite !fdiv_Fin by lra. cbn [fsin fcos fmul fadd].
  pose proof (hav_bounds (lat1 * (PI / 180)) (lon1 * (PI / 180))
                         (lat2 * (PI / 180)) (lon2 * (PI / 180))) as [Hlo Hhi].
  unfold hav in *. rewrite fsqrt_Fin by done. unfold farcsin.
  set (a := sin _ * sin _ + _) in *.
  assert (Hs : 0 <= sqrt a <= 1).
  { split; [apply sqrt_pos|]. rewrite <- sqrt_1. by apply sqrt_le_1_alt. }
  rewrite (proj2 (Rleb_true (-1) (sqrt a))), (proj2 (Rleb_true (sqrt a) 1)) by lra.
  done.
Qed.

(** X1. For finite arguments [haversine] returns a finite number of
    degrees between 0 and 180, never [nan], and 0 for two identical
    points. *)
Theorem haversine_range (lat1 lon1 lat2 lon2 : R) :
  (∃ d, haversine (Fin lat1) (Fin lon1) (Fin lat2) (Fin lon2) = Fin d
        ∧ 0 <= d <= 180)
  ∧ haversine (Fin lat1) (Fin lon1) (Fin lat1) (Fin lon1) = Fin 0.
Proof.
  split; [|apply haversine_same].
  rewrite haversine_fin. cbv zeta. eexists. split; [done|].
  set (k := PI / 180).
  pose proof (hav_bounds (lat1 * k) (lon1 * k) (lat2 * k) (lon2 * k)) as [Hlo Hhi].
  set (a := hav _ _ _ _) in *.
  assert (Hs : 0 <= sqrt a <= 1).
  { split; [apply sqrt_pos|]. rewrite <- sqrt_1. by apply sqrt_le_1_alt. }
  pose proof (asin_unit_range _ Hs) as [Ha0 Ha1].
  pose proof PI_RGT_0 as Hpi.
  assert (Hinv : 0 < 180 / PI) by (apply Rdiv_lt_0_compat; lra).
  split.
  - apply Rmult_le_pos; lra.
  - replace 180 with (2 * (PI / 2) * (180 / PI)) at 2 by (field; lra).
    apply Rmult_le_compat_r; lra.
Qed.

(** X2. [haversine] is symmetric in its two points. *)
Theorem haversine_symmetric (lat1 lon1 lat2 lon2 : R) :
  haversine (Fin lat1) (Fin lon1) (Fin lat2) (Fin lon2)
  = haversine (Fin lat2) (Fin lon2) (Fin lat1) (Fin lon1).
Proof.
  rewrite !haversine_fin. cbv zeta. set (k := PI / 180).
  assert (E : hav (lat1 * k) (lon1 * k) (lat2 * k) (lon2 * k)
              = hav (lat2 * k) (lon2 * k) (lat1 * k) (lon1 * k)); [|by rewrite E].
  unfold hav.
  replace ((lat1 * k + - (lat2 * k)) / 2) with (- ((lat2 * k + - (lat1 * k)) / 2)) by lra.
  replace ((lon1 * k + - (lon2 * k)) / 2) with (- ((lon2 * k + - (lon1 * k)) / 2)) by lra.
  rewrite !sin_neg. ring.
Qed.

End Haversine.

(** ** Rays *)

Section Rays.

(** X3. [Ray.__init__] between two finite points whose squared distance
    lies between [1e-300] and [1e300] gives a finite direction of unit
    length ([dot(u, u) = 1], the [a] of [intersect]) that points from
    [origin] to [direction]; when the two points coincide the direction
    is three [nan] and [intersect] reports a miss for every body. *)
Theorem Ray_init_unit (ox oy oz dx dy dz : R) :
  let ray := Ray_init (fvec ox oy oz) (fvec dx dy dz) in
  let q := (dx - ox) * (dx - ox) + (dy - oy) * (dy - oy) + (dz - oz) * (dz - oz) in
  (1 / 10 ^ 300 <= q <= 10 ^ 300 →
     ∃ n, 0 < n ∧ n * n = q ∧
          u ray = fvec ((dx - ox) / n) ((dy - oy) / n) ((dz - oz) / n) ∧
          qa ray = Fin 1) ∧
  (dx = ox ∧ dy = oy ∧ dz = oz →
     u ray = nan_vec ∧ ∀ body, intersect ray body = PInf).
Proof.
  cbv zeta. unfold Ray_init. cbn [u].
  change (vsub (fvec dx dy dz) (fvec ox oy oz))
    with (fvec (dx + - ox) (dy + - oy) (dz + - oz)).
  split.
  - intros [Hlo _].
    assert (Hpos : 0 < 1 / 10 ^ 300).
    { apply Rdiv_lt_0_compat; [lra|]. apply pow_lt. lra. }
    assert (Hv : dx + - ox <> 0 ∨ dy + - oy <> 0 ∨ dz + - oz <> 0).
    { destruct (Req_dec_T (dx + - ox) 0) as [Hx|]; [|tauto].
      destruct (Req_dec_T (dy + - oy) 0) as [Hy|]; [|tauto].
      right. right. intros Hz.
      replace (dx - ox) with 0 in Hlo by lra. replace (dy - oy) with 0 in Hlo by lra.
      replace (dz - oz) with 0 in Hlo by lra. lra. }
    pose proof (sqrt_sumsq_pos _ _ _ Hv) as Hn.
    pose proof (normalized_unit _ _ _ Hv) as Hunit.
    rewrite normalized_fvec in * by done. cbv zeta in *.
    set (n := sqrt _) in *. exists n. split; [done|]. split.
    { unfold n. rewrite sqrt_sqrt by nra. ring. }
    split; [done|].
    unfold qa. cbn [u]. unfold norm in Hunit.
    destruct (dot _ _) as [p| | |] eqn:Hp; try done.
    cbn [fsqrt] in Hunit. destruct (Rltb p 0) eqn:Hneg; [done|].
    apply Rltb_false in Hneg. injection Hunit as Hs.
    apply Fin_eq. rewrite <- (sqrt_sqrt p), Hs by done. lra.
  - intros (-> & -> & ->).
    replace (ox + - ox) with 0 by lra. replace (oy + - oy) with 0 by lra.
    replace (oz + - oz) with 0 by lra. rewrite normalized_zero. split; [done|].
    intros body. unfold intersect, discriminant, qa, qb, nan_vec, dot.
    cbn [u vx vy vz fmul fadd fsub fle]. done.
Qed.

End Rays.

(** ** A camera plane at [z = 0] *)

Section BlankImage.

(** The difference of a number with itself, and what [normalize] makes
    of a vector of such differences. *)
Lemma fsub_self (a : float) : zero_or_nan (a - a)%fl.
Proof.
  destruct a as [x| | |]; [right|by left..]. exists (x + - x). split; [done|lra].
Qed.

Lemma normalized_zero_or_nan (p q r : float) :
  zero_or_nan p → zero_or_nan q → zero_or_nan r →
  normalized (Vec p q r) = nan_vec.
Proof.
  intros [->|(? & -> & ->)] [->|(? & -> & ->)] [->|(? & -> & ->)];
    try apply normalized_zero; try done.
  all: unfold normalized, norm, dot, vdiv, nan_vec; cbn [vx vy vz fmul fadd];
    repeat (replace (0 * 0) with 0 by lra); repeat (replace (0 + 0) with 0 by lra);
    try (rewrite fsqrt_Fin, sqrt_0 by lra); done.
Qed.

(** A ray without a direction misses every body. *)
Lemma intersect_nan_direction (o d : vec) (body : Body) :
  intersect (mkRay o d nan_vec) body = PInf.
Proof.
  unfold intersect, discriminant, qa, qb, nan_vec, dot.
  cbn [u vx vy vz fmul fadd fsub fle]. done.
Qed.

Lemma pixel_ray_blank (s : Scene.scene) (xi yj : float) (body : Body) :
  Scene.zmax s = Fin 0 → intersect (pixel_ray s xi yj) body = PInf.
Proof.
  intros Hz. unfold pixel_ray, Ray_init. rewrite Hz. unfold vsub. cbn [vx vy vz].
  rewrite normalized_zero_or_nan by apply fsub_self.
  apply intersect_nan_direction.
Qed.

(** The loop over the bodies writes nothing when every body is missed. *)
Lemma bodies_loop_all_missed (ray : Ray) (j i : nat) (bodies : list Body)
    (s : Scene.scene) :
  (∀ b, intersect ray b = PInf) →
  fold_left (Scene.try_body ray j i) bodies (PInf, s) = (PInf, s).
Proof.
  intros Hmiss. induction bodies as [|b bodies IH]; [done|].
  cbn [fold_left]. unfold Scene.try_body at 2. by rewrite Hmiss.
Qed.

End BlankImage.

(** X4. A scene whose camera plane [zmax] is at 0 (the highest point of
    its spheres lies in the plane [z = 0]) is traced blank: every pixel
    ray starts and ends in the same point, so it has a [nan] direction
    and [intersect] returns [+inf] for every body; [trace] returns and
    leaves the scene, with all its grids, exactly as it was. *)
Theorem trace_blank_at_zmax_zero (s : Scene.scene) :
  sampled s → Scene.zmax s = Fin 0 →
  (∀ xi yj body, intersect (pixel_ray s xi yj) body = PInf) ∧
  Scene.trace s = Some s.
Proof.
  intros (Hsh & Hx & Hy) Hz. split; [intros; by apply pixel_ray_blank|].
  unfold Scene.trace.
  assert (Hl : ∀ l, (∀ j i, (j, i) ∈ l →
                       (j < Scene.res s)%nat ∧ (i < Scene.res s)%nat) →
                Scene.for_each Scene.trace_pixel l s = Some s).
  { induction l as [|[j i] l IH]; intros Hin; [done|].
    destruct (Hin j i ltac:(by left)) as [Hj Hi].
    destruct (lookup_lt_is_Some_2 (Scene.x s) i ltac:(lia)) as [xi Hxi].
    destruct (lookup_lt_is_Some_2 (Scene.y s) j ltac:(lia)) as [yj Hyj].
    assert (Hone : Scene.trace_pixel s (j, i) = Some s).
    { unfold Scene.trace_pixel. cbv iota beta. rewrite Hxi, Hyj. cbn.
      fold (pixel_ray s xi yj).
      rewrite bodies_loop_all_missed; [done|].
      intros b. by apply pixel_ray_blank. }
    cbn [Scene.for_each]. rewrite Hone. cbn. apply IH.
    intros j' i' Hin'. apply Hin. by right. }
  apply Hl. intros j i Hin%list_elem_of_In%ndindex_spec. by rewrite Hsh in Hin.
Qed.

Lemma trace_blank_at_zmax_zero_witness :
  (∀ xi yj body,
     intersect (pixel_ray (Scene.init [mkBody (fvec 0 0 (-1)) (Fin 1)] 3) xi yj) body
     = PInf) ∧
  Scene.trace (Scene.init [mkBody (fvec 0 0 (-1)) (Fin 1)] 3)
  = Some (Scene.init [mkBody (fvec 0 0 (-1)) (Fin 1)] 3).
Proof.
  apply (trace_blank_at_zmax_zero (Scene.init [mkBody (fvec 0 0 (-1)) (Fin 1)] 3)
           (init_sampled _ _)).
  unfold Scene.init, Scene.get_extent, npmax, fvec.
  cbn [Scene.bodies Scene.zmax map fold_left center radius vz fadd].
  apply Fin_eq. lra.
Defined.

(** ** A hit at depth 0 *)

Section DepthZero.

Lemma zero_or_nan_mul (a b : float) : zero_or_nan a → zero_or_nan (a * b)%fl.
Proof.
  intros [->|(? & -> & ->)]; [by left|].
  destruct b as [y| | |]; [right|left..].
  - exists (0 * y). split; [done|lra].
  - cbn. unfold signed_inf. by rewrite (proj2 (Rltb_false 0 0)) by lra.
  - cbn. unfold signed_inf. rewrite (proj2 (Rltb_false 0 (- 0))) by lra.
    by rewrite (proj2 (Rltb_false (- 0) 0)) by lra.
  - done.
Qed.

Lemma zero_or_nan_add (a b : float) :
  zero_or_nan a → zero_or_nan b → zero_or_nan (a + b)%fl.
Proof.
  intros [->|(? & -> & ->)] [->|(? & -> & ->)]; [by left..|].
  right. exists (0 + 0). split; [done|lra].
Qed.

Lemma zero_or_nan_dot (d w : vec) :
  zero_or_nan (vx d) → zero_or_nan (vy d) → zero_or_nan (vz d) →
  zero_or_nan (dot d w).
Proof.
  intros Hx Hy Hz. unfold dot.
  repeat apply zero_or_nan_add; by apply zero_or_nan_mul.
Qed.

Lemma zero_or_nan_sqrt (a : float) : zero_or_nan a → zero_or_nan (fsqrt a).
Proof.
  intros [->|(? & -> & ->)]; [by left|]. right. exists (sqrt 0).
  split; [by rewrite fsqrt_Fin by lra|apply sqrt_0].
Qed.

Lemma zero_or_nan_div (a b : float) :
  zero_or_nan a → zero_or_nan b → (a / b)%fl = NaN.
Proof.
  intros [->|(? & -> & ->)] [->|(? & -> & ->)]; try done.
  cbn. rewrite (proj2 (Reqb_true 0 0)) by done. unfold signed_inf.
  by rewrite (proj2 (Rltb_false 0 0)) by lra.
Qed.

(** [o - (o + u * 0)] *)
Lemma step_back_zero (o v : float) : zero_or_nan (o - (o + v * Fin 0))%fl.
Proof.
  destruct o as [x| | |], v as [y| | |]; try (by left).
  - right. exists (x + - (x + y * 0)). split; [done|lra].
  - left. cbn. unfold signed_inf. by rewrite (proj2 (Rltb_false 0 0)) by lra.
  - left. cbn. unfold signed_inf. rewrite (proj2 (Rltb_false 0 (- 0))) by lra.
    by rewrite (proj2 (Rltb_false (- 0) 0)) by lra.
  - left. cbn. unfold signed_inf. by rewrite (proj2 (Rltb_false 0 0)) by lra.
  - left. cbn. unfold signed_inf. rewrite (proj2 (Rltb_false 0 (- 0))) by lra.
    by rewrite (proj2 (Rltb_false (- 0) 0)) by lra.
  - left. cbn. unfold signed_inf. by rewrite (proj2 (Rltb_false 0 0)) by lra.
  - left. cbn. unfold signed_inf. rewrite (proj2 (Rltb_false 0 (- 0))) by lra.
    by rewrite (proj2 (Rltb_false (- 0) 0)) by lra.
Qed.

End DepthZero.

(** X5. A hit at depth exactly 0 has no limb angle: for every ray and
    every body the [mu] that [trace] computes at [t = 0] is [nan],
    because the point [P = origin + u * 0] is the origin of the ray and
    the formula divides zero by zero. *)
Theorem hit_mu_at_depth_zero (ray : Ray) (body : Body) :
  Scene.hit_mu ray body (Fin 0) = NaN.
Proof.
  unfold Scene.hit_mu. cbv zeta.
  set (P := vadd (origin ray) (vscale (u ray) (Fin 0))).
  assert (Hd : zero_or_nan (vx (vsub (origin ray) P)) ∧
               zero_or_nan (vy (vsub (origin ray) P)) ∧
               zero_or_nan (vz (vsub (origin ray) P))).
  { unfold P, vsub, vadd, vscale. cbn [vx vy vz]. repeat split; apply step_back_zero. }
  destruct Hd as (Hx & Hy & Hz).
  apply zero_or_nan_div.
  - by apply zero_or_nan_dot.
  - apply zero_or_nan_mul. unfold norm. by apply zero_or_nan_sqrt, zero_or_nan_dot.
Qed.

(** ** The extent of a scene *)

Section Extent.

Variables (A : Type) (k : A → float).

Lemma npmin_finite (l : list A) (a : R) :
  Forall (λ b, ∃ r, k b = Fin r) l →
  ∃ m, npmin (Fin a) (map k l) = Fin m ∧ m <= a ∧
    (∀ b r, b ∈ l → k b = Fin r → m <= r) ∧
    (m = a ∨ ∃ b, b ∈ l ∧ k b = Fin m).
Proof.
  revert a. induction l as [|b l IH]; intros a Hfin.
  { exists a. split; [done|]. split; [lra|]. split; [|by left].
    by intros b r ?%elem_of_nil. }
  apply Forall_cons in Hfin as [[r Hr] Hfin].
  unfold npmin in *. cbn [map fold_left]. rewrite Hr, npmin2_Fin.
  destruct (IH (Rmin a r) Hfin) as (m & Hm & Hle & Hall & Hatt).
  exists m. split; [done|].
  pose proof (Rmin_l a r). pose proof (Rmin_r a r).
  split; [lra|]. split.
  - intros b' r' [->|Hb']%elem_of_cons Hk; [|by eapply Hall].
    assert (r' = r) as -> by congruence. lra.
  - destruct Hatt as [->|(b' & Hb' & Hk)].
    + unfold Rmin. destruct (Rle_dec a r); [by left|].
      right. exists b. split; [by left|done].
    + right. exists b'. split; [by right|done].
Qed.

Lemma npmax_finite (l : list A) (a : R) :
  Forall (λ b, ∃ r, k b = Fin r) l →
  ∃ m, npmax (Fin a) (map k l) = Fin m ∧ a <= m ∧
    (∀ b r, b ∈ l → k b = Fin r → r <= m) ∧
    (m = a ∨ ∃ b, b ∈ l ∧ k b = Fin m).
Proof.
  revert a. induction l as [|b l IH]; intros a Hfin.
  { exists a. split; [done|]. split; [lra|]. split; [|by left].
    by intros b r ?%elem_of_nil. }
  apply Forall_cons in Hfin as [[r Hr] Hfin].
  unfold npmax in *. cbn [map fold_left]. rewrite Hr, npmax2_Fin.
  destruct (IH (Rmax a r) Hfin) as (m & Hm & Hle & Hall & Hatt).
  exists m. split; [done|].
  pose proof (Rmax_l a r). pose proof (Rmax_r a r).
  split; [lra|]. split.
  - intros b' r' [->|Hb']%elem_of_cons Hk; [|by eapply Hall].
    assert (r' = r) as -> by congruence. lra.
  - destruct Hatt as [->|(b' & Hb' & Hk)].
    + unfold Rmax. destruct (Rle_dec a r); [|by left].
      right. exists b. split; [by left|done].
    + right. exists b'. split; [by right|done].
Qed.

(** The least and the greatest of a non-empty list of finite numbers. *)
Lemma npmin_bound (b0 : A) (l : list A) :
  Forall (λ b, ∃ r, k b = Fin r) (b0 :: l) →
  ∃ m, npmin (k b0) (map k l) = Fin m ∧
    (∀ b r, b ∈ b0 :: l → k b = Fin r → m <= r) ∧
    (∃ b, b ∈ b0 :: l ∧ k b = Fin m).
Proof.
  intros [[a Ha] Hfin]%Forall_cons. rewrite Ha.
  destruct (npmin_finite l a Hfin) as (m & Hm & Hle & Hall & Hatt).
  exists m. split; [done|]. split.
  - intros b r [->|Hb]%elem_of_cons Hk; [|by eapply Hall].
    assert (r = a) as -> by congruence. done.
  - destruct Hatt as [->|(b & Hb & Hk)]; [exists b0|exists b];
      (split; [by constructor|done]).
Qed.

Lemma npmax_bound (b0 : A) (l : list A) :
  Forall (λ b, ∃ r, k b = Fin r) (b0 :: l) →
  ∃ m, npmax (k b0) (map k l) = Fin m ∧
    (∀ b r, b ∈ b0 :: l → k b = Fin r → r <= m) ∧
    (∃ b, b ∈ b0 :: l ∧ k b = Fin m).
Proof.
  intros [[a Ha] Hfin]%Forall_cons. rewrite Ha.
  destruct (npmax_finite l a Hfin) as (m & Hm & Hle & Hall & Hatt).
  exists m. split; [done|]. split.
  - intros b r [->|Hb]%elem_of_cons Hk; [|by eapply Hall].
    assert (r = a) as -> by congruence. done.
  - destruct Hatt as [->|(b & Hb & Hk)]; [exists b0|exists b];
      (split; [by constructor|done]).
Qed.

End Extent.

(** X6. For a non-empty scene of finite spheres [get_extent] yields an
    extent [(lo, hi)] and a camera plane [zmax] that are not [nan] and
    that bound the sums and differences the code forms: for every
    sphere, [lo] is at most [center[0] - radius] and [center[1] - radius],
    [hi] is at least [center[0] + radius] and [center[1] + radius], and
    [zmax] is at least [center[2] + radius], with equality for one of
    the spheres.  The bounds are on the floating-point sums, as
    computed. *)
Theorem get_extent_bounds (s : Scene.scene) (b0 : Body) (bs : list Body) :
  Scene.bodies s = b0 :: bs → Forall finite_body (b0 :: bs) →
  let s' := Scene.get_extent s in
  let lo := fst (Scene.extent s') in
  let hi := snd (Scene.extent s') in
  isnan lo = false ∧ isnan hi = false ∧ isnan (Scene.zmax s') = false ∧
  (∀ b, b ∈ b0 :: bs →
     (lo <=? vx (center b) - radius b)%fl = true ∧
     (lo <=? vy (center b) - radius b)%fl = true ∧
     (vx (center b) + radius b <=? hi)%fl = true ∧
     (vy (center b) + radius b <=? hi)%fl = true ∧
     (vz (center b) + radius b <=? Scene.zmax s')%fl = true) ∧
  (∃ b, b ∈ b0 :: bs ∧ Scene.zmax s' = (vz (center b) + radius b)%fl).
Proof.
  intros Hb Hfin. cbv zeta. unfold Scene.get_extent. rewrite Hb. cbv beta iota zeta.
  assert (Hk : ∀ k : Body → float,
            (∀ cx cy cz r, ∃ q, k (mkBody (fvec cx cy cz) (Fin r)) = Fin q) →
            Forall (λ b, ∃ q, k b = Fin q) (b0 :: bs)).
  { intros k Hq. eapply Forall_impl; [exact Hfin|].
    intros b (cx & cy & cz & r & ->). apply Hq. }
  destruct (npmin_bound Body (λ b, vx (center b) - radius b)%fl b0 bs)
    as (xmin & Ex & Hxmin & _); [apply Hk; by eexists|].
  destruct (npmin_bound Body (λ b, vy (center b) - radius b)%fl b0 bs)
    as (ymin & Ey & Hymin & _); [apply Hk; by eexists|].
  destruct (npmax_bound Body (λ b, vx (center b) + radius b)%fl b0 bs)
    as (xmax & EX & Hxmax & _); [apply Hk; by eexists|].
  destruct (npmax_bound Body (λ b, vy (center b) + radius b)%fl b0 bs)
    as (ymax & EY & Hymax & _); [apply Hk; by eexists|].
  destruct (npmax_bound Body (λ b, vz (center b) + radius b)%fl b0 bs)
    as (zmax & EZ & Hzmax & (bz & Hbz & Hz)); [apply Hk; by eexists|].
  cbv beta in Ex, Ey, EX, EY, EZ. rewrite Ex, Ey, EX, EY, EZ.
  rewrite npmin2_Fin, npmax2_Fin. cbn [Scene.extent Scene.zmax fst snd].
  do 3 (split; [done|]). split.
  - intros b Hin. pose proof Hin as Hb'.
    eapply Forall_forall in Hb'; [|exact Hfin].
    destruct Hb' as (cx & cy & cz & r & ->).
    pose proof (Hxmin _ (cx - r) Hin ltac:(done)).
    pose proof (Hymin _ (cy - r) Hin ltac:(done)).
    pose proof (Hxmax _ (cx + r) Hin ltac:(done)).
    pose proof (Hymax _ (cy + r) Hin ltac:(done)).
    pose proof (Hzmax _ (cz + r) Hin ltac:(done)).
    pose proof (Rmin_l xmin ymin). pose proof (Rmin_r xmin ymin).
    pose proof (Rmax_l xmax ymax). pose proof (Rmax_r xmax ymax).
    unfold fvec. cbn [center radius vx vy vz fsub fadd fneg].
    repeat split; apply fle_Fin; lra.
  - exists bz. split; [done|]. by rewrite Hz.
Qed.

Lemma get_extent_bounds_witness :
  let s' := Scene.get_extent (Scene.init [ball0; ball10] 3) in
  let lo := fst (Scene.extent s') in
  let hi := snd (Scene.extent s') in
  isnan lo = false ∧ isnan hi = false ∧ isnan (Scene.zmax s') = false ∧
  (∀ b, b ∈ [ball0; ball10] →
     (lo <=? vx (center b) - radius b)%fl = true ∧
     (lo <=? vy (center b) - radius b)%fl = true ∧
     (vx (center b) + radius b <=? hi)%fl = true ∧
     (vy (center b) + radius b <=? hi)%fl = true ∧
     (vz (center b) + radius b <=? Scene.zmax s')%fl = true) ∧
  (∃ b, b ∈ [ball0; ball10] ∧ Scene.zmax s' = (vz (center b) + radius b)%fl).
Proof.
  apply (get_extent_bounds (Scene.init [ball0; ball10] 3) ball0 [ball10] eq_refl).
  repeat constructor; by eexists _, _, _, _.
Defined.

(** ** Tracing twice *)

Section Retrace.

Lemma flt_fle_asym (a b : float) :
  (a <? b)%fl = true → (b <=? a)%fl = true → False.
Proof.
  destruct a, b; simpl; try done. intros H1%Rltb_true H2%Rleb_true. lra.
Qed.

(** The first body of least depth is determined by the list. *)
Lemma winner_unique (f : Body → float) (pre pre' post post' : list Body) (b b' : Body) :
  pre ++ b :: post = pre' ++ b' :: post' →
  (∀ x, x ∈ pre → (f b <? f x)%fl = true) →
  (∀ x, x ∈ post → (f b <=? f x)%fl = true) →
  (∀ x, x ∈ pre' → (f b' <? f x)%fl = true) →
  (∀ x, x ∈ post' → (f b' <=? f x)%fl = true) →
  b = b'.
Proof.
  revert pre'. induction pre as [|x pre IH]; intros [|x' pre'] Heq Hpre Hpost Hpre' Hpost'.
  - by injection Heq.
  - injection Heq as -> ->. exfalso.
    apply (flt_fle_asym (f b') (f x')); [apply Hpre'; by left|].
    apply Hpost. apply elem_of_app. right. by left.
  - injection Heq as -> <-. exfalso.
    apply (flt_fle_asym (f b) (f b')); [apply Hpre; by left|].
    apply Hpost'. apply elem_of_app. right. by left.
  - injection Heq as -> Heq. apply (IH pre' Heq); [|done| |done].
    + intros y Hy. apply Hpre. by right.
    + intros y Hy. apply Hpre'. by right.
Qed.

Lemma pixel_outcome_again (bodies : list Body) (ray : Ray)
    (c0 c1 c2 : float * option Body * float * float) :
  pixel_outcome bodies ray c0 c1 → pixel_outcome bodies ray c1 c2 → c2 = c1.
Proof.
  intros H1 [[_ ->] | (pre' & b' & post' & Hb' & Hlt' & Hpre' & Hpost' & ->)]; [done|].
  destruct H1 as [[Hmiss _] | (pre & b & post & Hb & Hlt & Hpre & Hpost & ->)].
  - rewrite (Hmiss b') in Hlt'; [done|].
    rewrite Hb'. apply elem_of_app. right. by left.
  - rewrite Hb in Hb'.
    by rewrite (winner_unique (intersect ray) _ _ _ _ _ _ Hb' Hpre Hpost Hpre' Hpost').
Qed.

Lemma linspace_finite (a b : R) (n : nat) :
  Forall (λ x, ∃ r, x = Fin r) (linspace (Fin a) (Fin b) n).
Proof.
  unfold linspace. destruct n as [|[|n]].
  - cbn [seq map]. constructor.
  - repeat constructor. by eexists.
  - apply Forall_map, Forall_forall. intros k _. cbn [fsub fneg fadd].
    rewrite fdiv_Fin.
    + destruct (k =? _)%nat; by eexists.
    + apply not_0_INR. lia.
Qed.

(** The scene [get_extent] leaves is sampled at finite coordinates, from
    a finite camera plane unless there is no body. *)
Lemma get_extent_finite (s : Scene.scene) :
  Forall finite_body (Scene.bodies s) →
  let s' := Scene.get_extent s in
  Scene.bodies s' = Scene.bodies s ∧
  Forall (λ x, ∃ r, x = Fin r) (Scene.x s') ∧
  Forall (λ x, ∃ r, x = Fin r) (Scene.y s') ∧
  (Scene.bodies s = [] ∨ ∃ z, Scene.zmax s' = Fin z).
Proof.
  intros Hfin. cbv zeta. unfold Scene.get_extent.
  destruct (Scene.bodies s) as [|b0 bs] eqn:Hb; cbv beta iota zeta.
  - rewrite npmin2_Fin, npmax2_Fin.
    cbn [Scene.bodies Scene.x Scene.y Scene.zmax fst snd].
    split; [done|]. split; [apply linspace_finite|]. split; [apply linspace_finite|].
    by left.
  - assert (Hk : ∀ k : Body → float,
              (∀ cx cy cz r, ∃ q, k (mkBody (fvec cx cy cz) (Fin r)) = Fin q) →
              Forall (λ b, ∃ q, k b = Fin q) (b0 :: bs)).
    { intros k Hq. eapply Forall_impl; [exact Hfin|].
      intros b (cx & cy & cz & r & ->). apply Hq. }
    destruct (npmin_bound Body (λ b, vx (center b) - radius b)%fl b0 bs)
      as (xmin & Ex & _); [apply Hk; by eexists|].
    destruct (npmin_bound Body (λ b, vy (center b) - radius b)%fl b0 bs)
      as (ymin & Ey & _); [apply Hk; by eexists|].
    destruct (npmax_bound Body (λ b, vx (center b) + radius b)%fl b0 bs)
      as (xmax & EX & _); [apply Hk; by eexists|].
    destruct (npmax_bound Body (λ b, vy (center b) + radius b)%fl b0 bs)
      as (ymax & EY & _); [apply Hk; by eexists|].
    destruct (npmax_bound Body (λ b, vz (center b) + radius b)%fl b0 bs)
      as (zmax & EZ & _); [apply Hk; by eexists|].
    cbv beta in Ex, Ey, EX, EY, EZ. rewrite Ex, Ey, EX, EY, EZ.
    rewrite npmin2_Fin, npmax2_Fin.
    cbn [Scene.bodies Scene.x Scene.y Scene.zmax fst snd].
    split; [done|]. split; [apply linspace_finite|]. split; [apply linspace_finite|].
    right. by eexists.
Qed.

End Retrace.

(** X7. A scene without bodies: the extent is [(-1, 1)], the camera plane
    is at [+inf], and [trace] returns with the scene exactly as it was,
    every pixel at its default. *)
Theorem trace_empty_scene (res : nat) :
  let s := Scene.init [] res in
  Scene.extent s = (Fin (-1), Fin 1) ∧ Scene.zmax s = PInf ∧
  Scene.trace s = Some s ∧ ∀ j i, cell s j i = default_cell.
Proof.
  cbv zeta. split; [|split; [done|split; [|apply init_cell]]].
  - unfold Scene.init, Scene.get_extent. cbn [Scene.bodies Scene.extent].
    rewrite npmin2_Fin, npmax2_Fin. unfold Rmin, Rmax.
    by destruct (Rle_dec (-1) (-1)), (Rle_dec 1 1).
  - pose proof (init_sampled [] res) as (Hsh & Hx & Hy).
    set (s := Scene.init [] res) in *.
    unfold Scene.trace.
    assert (Hl : ∀ l, (∀ j i, (j, i) ∈ l → (j < res)%nat ∧ (i < res)%nat) →
                  Scene.for_each Scene.trace_pixel l s = Some s).
    { induction l as [|[j i] l IH]; intros Hin; [done|].
      destruct (Hin j i ltac:(by left)) as [Hj Hi].
      destruct (lookup_lt_is_Some_2 (Scene.x s) i ltac:(change (Scene.res s) with res in Hx; lia)) as [xi Hxi].
      destruct (lookup_lt_is_Some_2 (Scene.y s) j ltac:(change (Scene.res s) with res in Hy; lia)) as [yj Hyj].
      assert (Hone : Scene.trace_pixel s (j, i) = Some s).
      { unfold Scene.trace_pixel. cbv iota beta. rewrite Hxi, Hyj.
        assert (Scene.bodies s = []) as -> by done. done. }
      cbn [Scene.for_each]. rewrite Hone. cbn. apply IH. intros j' i' Hin'. apply Hin. by right. }
    apply Hl. intros j i Hin%list_elem_of_In%ndindex_spec. by rewrite Hsh in Hin.
Qed.

(** X8. Tracing is idempotent.  On the scene [get_extent] leaves (the
    state after [__init__] and after every [add]) with finite spheres,
    [trace] returns, a second [trace] returns as well, and the second one
    changes no pixel. *)
Theorem trace_idempotent (s : Scene.scene) :
  Scene.shape s = (Scene.res s, Scene.res s) →
  Forall finite_body (Scene.bodies s) →
  ∃ s1 s2, Scene.trace (Scene.get_extent s) = Some s1 ∧
    Scene.trace s1 = Some s2 ∧
    ∀ j i, (j < Scene.res s)%nat → (i < Scene.res s)%nat →
      cell s2 j i = cell s1 j i.
Proof.
  intros Hsh Hfin.
  pose proof (get_extent_sampled s Hsh) as Hsam.
  destruct (get_extent_finite s Hfin) as (Hbodies & Hxfin & Hyfin & Hz).
  set (s0 := Scene.get_extent s) in *.
  destruct (trace_cells s0 Hsam) as (s1 & Ht1 & Hsame1 & Hcells1).
  pose proof (same_setup_sampled s0 s1 Hsame1 Hsam) as Hsam1.
  destruct (trace_cells s1 Hsam1) as (s2 & Ht2 & Hsame2 & Hcells2).
  exists s1, s2. split; [done|]. split; [done|]. intros j i Hj Hi.
  destruct Hsam as (Hsh0 & Hx0 & Hy0).
  assert (Hres : Scene.res s0 = Scene.res s).
  { unfold s0, Scene.get_extent.
    by destruct (match Scene.bodies s with [] => _ | _ => _ end) as [[[[? ?] ?] ?] ?]. }
  destruct (lookup_lt_is_Some_2 (Scene.x s0) i ltac:(lia)) as [xi Hxi].
  destruct (lookup_lt_is_Some_2 (Scene.y s0) j ltac:(lia)) as [yj Hyj].
  assert (Hnan : ∀ b, b ∈ Scene.bodies s0 →
            isnan (intersect (pixel_ray s0 xi yj) b) = false).
  { intros b Hb. rewrite Hbodies in Hb.
    destruct Hz as [Hnil|[z Hz]]; [rewrite Hnil in Hb; by apply elem_of_nil in Hb|].
    eapply Forall_forall in Hfin; [|exact Hb].
    destruct Hfin as (cx & cy & cz & r & ->).
    eapply Forall_forall in Hxfin; [|by eapply list_elem_of_lookup_2].
    eapply Forall_forall in Hyfin; [|by eapply list_elem_of_lookup_2].
    destruct Hxfin as [xr ->], Hyfin as [yr ->].
    unfold pixel_ray. rewrite Hz.
    apply (intersect_finite_not_nan xr yr z xr yr 0). }
  pose proof (Hcells1 j i xi yj Hxi Hyj Hnan) as H1.
  destruct Hsame1 as (B1 & R1 & S1 & X1 & Y1 & Z1).
  assert (Hray : pixel_ray s1 xi yj = pixel_ray s0 xi yj)
    by (unfold pixel_ray; by rewrite Z1).
  pose proof (Hcells2 j i xi yj) as H2. rewrite X1, Y1, B1, Hray in H2.
  specialize (H2 Hxi Hyj Hnan).
  by eapply pixel_outcome_again.
Qed.

Lemma trace_idempotent_witness :
  ∃ s1 s2, Scene.trace (Scene.get_extent (Scene.init [ball0; ball10] 3)) = Some s1 ∧
    Scene.trace s1 = Some s2 ∧
    ∀ j i, (j < 3)%nat → (i < 3)%nat → cell s2 j i = cell s1 j i.
Proof.
  apply (trace_idempotent (Scene.init [ball0; ball10] 3) eq_refl).
  repeat constructor; by eexists _, _, _, _.
Defined.


(** ** Rotations of a star *)

Section StarTurns.


Lemma rotate_basis_alpha_add (x y z a1 a2 : R) :
  rotate_basis (rotate_basis (fvec x y z) (Fin a1) (Fin 0) (Fin 0))
               (Fin a2) (Fin 0) (Fin 0)
  = rotate_basis (fvec x y z) (Fin (a1 + a2)) (Fin 0) (Fin 0).
Proof.
  repeat (rewrite rotate_basis_fin; cbv zeta).
  rewrite cos_plus, sin_plus, cos_0, sin_0.
  unfold fvec. f_equal; apply Fin_eq; ring.
Qed.


(** The coordinates [rotate] and [set_inclination] derive from [P] at a
    grid point depend on [P] at that point only. *)
Lemma spherical_ext (s1 s2 : Star.star) (j i : nat) :
  Star.P s1 j i = Star.P s2 j i →
  Star.r (Star.spherical s1) j i = Star.r (Star.spherical s2) j i ∧
  Star.lat (Star.spherical s1) j i = Star.lat (Star.spherical s2) j i ∧
  Star.lon (Star.spherical s1) j i = Star.lon (Star.spherical s2) j i.
Proof.
  intros HP. unfold Star.spherical, gmap2.
  cbn [Star.r Star.lat Star.lon Star.with_sph].
  by rewrite HP.
Qed.

Lemma radians_neg (a : R) : radians (- Fin a)%fl = Fin (- a * (PI / 180)).
Proof. done. Qed.

(** What the loop leaves alone. *)
Lemma turn_fields (a b g : float) (s : Star.star) :
  Star.shape (Star.turn a b g s) = Star.shape s ∧
  Star.mu (Star.turn a b g s) = Star.mu s ∧
  Star.u1 (Star.turn a b g s) = Star.u1 s ∧
  Star.u2 (Star.turn a b g s) = Star.u2 s ∧
  Star.spots (Star.turn a b g s) = Star.spots s.
Proof. done. Qed.

(** [rotate] and [set_inclination], field by field: the turned grid
    points, the coordinates derived from them and the flux recomputed
    from those. *)
Lemma rotate_fields (s : Star.star) (angle : float) :
  let t := Star.turn (Fin 0) (Fin 0) (radians (- angle)%fl) s in
  Star.shape (Star.rotate s angle) = Star.shape s ∧
  Star.inc (Star.rotate s angle) = Star.inc s ∧
  Star.mu (Star.rotate s angle) = Star.mu s ∧
  Star.u1 (Star.rotate s angle) = Star.u1 s ∧
  Star.u2 (Star.rotate s angle) = Star.u2 s ∧
  Star.spots (Star.rotate s angle) = Star.spots s ∧
  Star.P (Star.rotate s angle) = Star.P t ∧
  Star.r (Star.rotate s angle) = Star.r (Star.spherical t) ∧
  Star.lat (Star.rotate s angle) = Star.lat (Star.spherical t) ∧
  Star.lon (Star.rotate s angle) = Star.lon (Star.spherical t) ∧
  Star.flux (Star.rotate s angle)
  = Star.flux (Star.limb_darken (Star.calc_flux (Star.spherical t))).
Proof. done. Qed.

Lemma set_inclination_fields (s : Star.star) (new : float) :
  let t := Star.turn (radians (- (new - Star.inc s))%fl) (Fin 0) (Fin 0) s in
  Star.shape (Star.set_inclination s new) = Star.shape s ∧
  Star.inc (Star.set_inclination s new) = new ∧
  Star.meridian (Star.set_inclination s new) = Star.meridian s ∧
  Star.mu (Star.set_inclination s new) = Star.mu s ∧
  Star.u1 (Star.set_inclination s new) = Star.u1 s ∧
  Star.u2 (Star.set_inclination s new) = Star.u2 s ∧
  Star.spots (Star.set_inclination s new) = Star.spots s ∧
  Star.P (Star.set_inclination s new) = Star.P t ∧
  Star.r (Star.set_inclination s new) = Star.r (Star.spherical t) ∧
  Star.lat (Star.set_inclination s new) = Star.lat (Star.spherical t) ∧
  Star.lon (Star.set_inclination s new) = Star.lon (Star.spherical t) ∧
  Star.flux (Star.set_inclination s new)
  = Star.flux (Star.limb_darken (Star.calc_flux (Star.spherical t))).
Proof. done. Qed.

End StarTurns.

Section StarCompose.

Variables (s : Star.star) (j i : nat).
Hypothesis Hfin : finite_P s.


(** [P] after two turns about x. *)
Lemma turn_turn_alpha (i0 i1 i2 : R) :
  Star.inc s = Fin i0 →
  Star.P (Star.turn (radians (- (Fin i2 - Fin i1))%fl) (Fin 0) (Fin 0)
            (Star.set_inclination s (Fin i1))) j i
  = Star.P (Star.turn (radians (- (Fin i2 - Star.inc s))%fl) (Fin 0) (Fin 0) s) j i.
Proof.
  intros Hinc.
  destruct (set_inclination_fields s (Fin i1)) as (Hsh & _ & _ & _ & _ & _ & _ & HP & _).
  cbv zeta in HP. rewrite !turn_P, Hsh, HP, turn_P.
  destruct (decide _) as [[Hj Hi]|]; [|done].
  destruct (Hfin j i Hj Hi) as (x & y & z & ->).
  rewrite Hinc. unfold radians. cbn [fsub fneg fadd fmul].
  rewrite rotate_basis_alpha_add. do 2 f_equal. lra.
Qed.

End StarCompose.





(** X11. [set_inclination] is path independent: on a star with a finite
    inclination and finite grid points, going to [i1] and then to [i2]
    leaves the same inclination [i2], the same grid points, coordinates
    and flux map as going to [i2] at once; the meridian and the spots are
    never touched. *)
Theorem set_inclination_path_independent (s : Star.star) (i0 i1 i2 : R) :
  Star.inc s = Fin i0 → finite_P s →
  let s1 := Star.set_inclination (Star.set_inclination s (Fin i1)) (Fin i2) in
  let s2 := Star.set_inclination s (Fin i2) in
  Star.inc s1 = Fin i2 ∧ Star.inc s2 = Fin i2 ∧
  Star.meridian s1 = Star.meridian s ∧ Star.meridian s2 = Star.meridian s ∧
  Star.spots s1 = Star.spots s ∧ Star.spots s2 = Star.spots s ∧
  ∀ j i, Star.P s1 j i = Star.P s2 j i ∧
         Star.lat s1 j i = Star.lat s2 j i ∧
         Star.lon s1 j i = Star.lon s2 j i ∧
         Star.flux s1 j i = Star.flux s2 j i.
Proof.
  intros Hinc Hfin. cbv zeta.
  destruct (set_inclination_fields s (Fin i1))
    as (_ & Hinc0 & Hm0 & Hmu0 & Hu10 & Hu20 & Hsp0 & _).
  destruct (set_inclination_fields (Star.set_inclination s (Fin i1)) (Fin i2))
    as (_ & -> & -> & _ & _ & _ & -> & HP1 & _ & Hlat1 & Hlon1 & Hflux1).
  destruct (set_inclination_fields s (Fin i2))
    as (_ & -> & -> & _ & _ & _ & -> & HP2 & _ & Hlat2 & Hlon2 & Hflux2).
  do 6 (split; [done|]). intros j i.
  rewrite HP1, HP2, Hlat1, Hlat2, Hlon1, Hlon2, Hflux1, Hflux2, Hinc0.
  pose proof (turn_turn_alpha s j i Hfin i0 i1 i2 Hinc) as HP.
  set (t1 := Star.turn _ _ _ (Star.set_inclination s (Fin i1))) in *.
  set (t2 := Star.turn _ _ _ s) in *.
  destruct (spherical_ext t1 t2 j i HP) as (_ & Hlat & Hlon).
  split; [done|]. split; [done|]. split; [done|].
  destruct (turn_fields (radians (- (Fin i2 - Fin i1))%fl) (Fin 0) (Fin 0)
              (Star.set_inclination s (Fin i1))) as (_ & Hmu1 & Hu11 & Hu21 & Hsp1).
  destruct (turn_fields (radians (- (Fin i2 - Star.inc s))%fl) (Fin 0) (Fin 0) s)
    as (_ & Hmu2 & Hu12 & Hu22 & Hsp2).
  apply recompute_ext; [done|..]; unfold t1, t2; congruence.
Qed.

Lemma set_inclination_path_independent_witness :
  let s := unit_star (fvec 0 1 0) in
  let s1 := Star.set_inclination (Star.set_inclination s (Fin 60)) (Fin 30) in
  let s2 := Star.set_inclination s (Fin 30) in
  Star.inc s1 = Fin 30 ∧ Star.inc s2 = Fin 30 ∧
  Star.meridian s1 = Star.meridian s ∧ Star.meridian s2 = Star.meridian s ∧
  Star.spots s1 = Star.spots s ∧ Star.spots s2 = Star.spots s ∧
  ∀ j i, Star.P s1 j i = Star.P s2 j i ∧
         Star.lat s1 j i = Star.lat s2 j i ∧
         Star.lon s1 j i = Star.lon s2 j i ∧
         Star.flux s1 j i = Star.flux s2 j i.
Proof.
  apply (set_inclination_path_independent (unit_star (fvec 0 1 0)) 90 60 30 eq_refl).
  intros j i _ _. by eexists _, _, _.
Defined.


(** ** The flux map *)

Section FluxMap.

Variables (lat lon : grid float) (j i : nat).

(** The spots of a list that reach the grid point [(j, i)]. *)
Local Abbreviation covering l := (List.filter (λ spot, Star.spotted lat lon spot j i) l).

Lemma paint_last_covering (l : list Spot.spot) (f : grid mcell) :
  fold_left (Star.paint lat lon) l f j i =
    match last (covering l) with
    | Some B => Valid (Spot.contrast B)
    | None => f j i
    end.
Proof.
  revert f. induction l as [|spot l IH]; intros f; [done|].
  cbn [fold_left List.filter]. rewrite IH.
  destruct (Star.spotted lat lon spot j i) eqn:Hspot.
  - rewrite last_cons. destruct (last _); [done|].
    unfold Star.paint. by rewrite Hspot.
  - destruct (last _); [done|]. unfold Star.paint. by rewrite Hspot.
Qed.

End FluxMap.

(** X12. [calc_flux] at a grid point: the contrast of the last spot of
    the list that reaches the point (within [spot.radius] by
    [haversine]), whether or not the point is on the disk; where no spot
    reaches, 1 on the disk and a masked cell off it ([r] is [nan]).
    Spots appended by [add] are painted over the earlier ones. *)
Theorem calc_flux_last_covering (s : Star.star) (new : list Spot.spot) (j i : nat) :
  let covering l := List.filter (λ spot, Star.spotted (Star.lat s) (Star.lon s) spot j i) l in
  Star.flux (Star.calc_flux s) j i =
    match last (covering (Star.spots s)) with
    | Some B => Valid (Spot.contrast B)
    | None => if isnan (Star.r s j i) then Masked else Valid (Fin 1)
    end ∧
  Star.flux (Star.calc_flux (Star.add s new false)) j i =
    match last (covering new) with
    | Some B => Valid (Spot.contrast B)
    | None => Star.flux (Star.calc_flux s) j i
    end ∧
  Star.flux (Star.calc_flux (Star.add s new true)) j i =
    match last (covering new) with
    | Some B => Valid (Spot.contrast B)
    | None => if isnan (Star.r s j i) then Masked else Valid (Fin 1)
    end.
Proof.
  cbv zeta. unfold Star.calc_flux, Star.add.
  cbn [Star.flux Star.flux_ma Star.with_flux Star.with_spots Star.spots Star.lat Star.lon Star.r].
  split; [|split].
  - by rewrite paint_last_covering.
  - rewrite fold_left_app. by rewrite (paint_last_covering _ _ _ _ new).
  - by rewrite paint_last_covering.
Qed.

(** X13. [limb_darken] at a grid point.  On the masked array that
    [calc_flux] leaves, a masked cell stays masked; a flux [f] with
    [mu], [u1], [u2] of moderate size (at most [1e100], so that the
    square does not overflow and get masked) becomes
    [f - u1 (f - mu) - u2 (f - mu)^2], which is [f] for the coefficients
    [u1 = u2 = 0] that [__init__] sets; and a [nan] in [mu] masks the
    cell, whatever the coefficients.  On the plain array of a star fresh
    from [__init__] nothing is masked: the formula is applied to every
    cell, and a [nan] in [mu] leaves [nan]. *)
Theorem limb_darken_law (s : Star.star) (j i : nat) :
  Star.flux_ma (Star.calc_flux s) = true ∧
  (Star.flux_ma s = true →
     Star.flux_ma (Star.limb_darken s) = true ∧
     (Star.flux s j i = Masked → Star.flux (Star.limb_darken s) j i = Masked) ∧
     (∀ f m a b, Star.flux s j i = Valid (Fin f) → Star.mu s j i = Fin m →
        Star.u1 s = Fin a → Star.u2 s = Fin b →
        moderate f → moderate m → moderate a → moderate b →
        Star.flux (Star.limb_darken s) j i
        = Valid (Fin (f - a * (f - m) - b * ((f - m) * (f - m))))) ∧
     (∀ f m, Star.flux s j i = Valid (Fin f) → Star.mu s j i = Fin m →
        Star.u1 s = Fin 0 → Star.u2 s = Fin 0 → moderate f → moderate m →
        Star.flux (Star.limb_darken s) j i = Valid (Fin f)) ∧
     (∀ v, Star.flux s j i = Valid v → Star.mu s j i = NaN →
        Star.flux (Star.limb_darken s) j i = Masked)) ∧
  (Star.flux_ma s = false →
     Star.flux_ma (Star.limb_darken s) = false ∧
     (∀ f, Star.flux s j i = Valid f →
        Star.flux (Star.limb_darken s) j i
        = Valid (f - Star.u1 s * (f - Star.mu s j i)
                 - Star.u2 s * ((f - Star.mu s j i) * (f - Star.mu s j i)))%fl) ∧
     (∀ f, Star.flux s j i = Valid f → Star.mu s j i = NaN →
        Star.flux (Star.limb_darken s) j i = Valid NaN)).
Proof.
  split; [done|]. unfold Star.limb_darken. split; intros ->;
    cbn [Star.flux Star.flux_ma Star.with_flux].
  - split; [done|]. split; [|split; [|split]].
    + by intros ->.
    + intros f m a b -> -> -> -> _ _ _ _.
      cbn [mlift mlift2 msquare fsub fadd fneg fmul isfinite].
      apply f_equal, Fin_eq. lra.
    + intros f m -> -> -> -> _ _.
      cbn [mlift mlift2 msquare fsub fadd fneg fmul isfinite].
      apply f_equal, Fin_eq. lra.
    + intros v -> ->. destruct v; by cbn.
  - split; [done|]. split.
    + by intros f ->.
    + intros f -> ->. cbn [mlift]. destruct f, (Star.u1 s), (Star.u2 s); by cbn.
Qed.

(** ** Latitude and longitude *)

Section Geography.

(** Two angles with the same cosine and sine differ by full turns. *)
Lemma angle_eq_mod (u v : R) :
  cos u = cos v → sin u = sin v → ∃ k : Z, u = v + 2 * PI * IZR k.
Proof.
  intros Hc Hs.
  assert (Hd : cos (u - v) = 1).
  { rewrite cos_minus, Hc, Hs. pose proof (sin2_cos2 v) as H.
    unfold Rsqr in H. lra. }
  assert (Hh : sin ((u - v) / 2) = 0).
  { pose proof (cos_2a_sin ((u - v) / 2)) as H.
    replace (2 * ((u - v) / 2)) with (u - v) in H by lra.
    rewrite Hd in H. nra. }
  destruct (sin_eq_0_0 _ Hh) as [k Hk]. exists k. lra.
Qed.

(** [arctan2] depends on the direction of [(c, s)] only. *)
Lemma Ratan2_scale (s c ρ : R) : 0 < ρ → Ratan2 (s / ρ) (c / ρ) = Ratan2 s c.
Proof.
  intros Hρ. assert (Hi : 0 < / ρ) by (by apply Rinv_0_lt_compat).
  assert (Hsign : ∀ t, (0 < t / ρ ↔ 0 < t) ∧ (t / ρ < 0 ↔ t < 0) ∧ (0 <= t / ρ ↔ 0 <= t)).
  { intros t. unfold Rdiv. repeat split; intros H; nra. }
  assert (Hb : ∀ t, Rltb 0 (t / ρ) = Rltb 0 t ∧ Rltb (t / ρ) 0 = Rltb t 0
                    ∧ Rleb 0 (t / ρ) = Rleb 0 t).
  { intros t. destruct (Hsign t) as (H1 & H2 & H3). repeat split.
    - destruct (Rltb 0 t) eqn:E; [apply Rltb_true in E; apply Rltb_true; tauto|].
      apply Rltb_false in E. apply Rltb_false. unfold Rdiv. nra.
    - destruct (Rltb t 0) eqn:E; [apply Rltb_true in E; apply Rltb_true; tauto|].
      apply Rltb_false in E. apply Rltb_false. unfold Rdiv. nra.
    - destruct (Rleb 0 t) eqn:E; [apply Rleb_true in E; apply Rleb_true; tauto|].
      apply Rleb_false in E. apply Rleb_false. unfold Rdiv. nra. }
  unfold Ratan2.
  destruct (Hb c) as (-> & -> & _). destruct (Hb s) as (-> & -> & ->).
  destruct (Req_dec_T c 0) as [->|Hc].
  - rewrite (proj2 (Rltb_false 0 0)) by lra. done.
  - replace (s / ρ / (c / ρ)) with (s / c) by (field; lra). done.
Qed.

(** The angle [arctan2(s, c)] of a point [(c, s)] off the origin. *)
Lemma Ratan2_polar (s c : R) :
  s <> 0 ∨ c <> 0 →
  let ρ := sqrt (c * c + s * s) in
  0 < ρ ∧ cos (Ratan2 s c) = c / ρ ∧ sin (Ratan2 s c) = s / ρ.
Proof.
  intros Hne ρ.
  assert (Hpos : 0 < c * c + s * s) by nra.
  assert (Hρ : 0 < ρ) by (by apply sqrt_lt_R0).
  assert (Hρ2 : ρ * ρ = c * c + s * s) by (apply sqrt_sqrt; lra).
  split; [done|]. rewrite <- (Ratan2_scale s c ρ Hρ).
  apply Ratan2_circle. field_simplify_eq; lra.
Qed.

(** [arctan2] lies in [[-pi, pi]]. *)
Lemma Ratan2_bound (s c : R) : - PI <= Ratan2 s c <= PI.
Proof.
  pose proof PI_RGT_0 as Hpi. pose proof (atan_bound (s / c)) as Hb.
  unfold Ratan2.
  destruct (Rltb 0 c) eqn:Hc; [lra|]. apply Rltb_false in Hc.
  destruct (Rltb c 0) eqn:Hc'; [apply Rltb_true in Hc'|].
  - assert (Hi : / c < 0) by (by apply Rinv_lt_0_compat).
    destruct (Rleb 0 s) eqn:Hs; [apply Rleb_true in Hs | apply Rleb_false in Hs].
    + assert (s / c <= 0) by (unfold Rdiv; nra).
      assert (atan (s / c) <= 0).
      { destruct (Req_dec_T (s / c) 0) as [->|]; [rewrite atan_0; lra|].
        rewrite <- atan_0. apply Rlt_le, atan_increasing. lra. }
      lra.
    + assert (0 < s / c) by (unfold Rdiv; nra).
      assert (0 < atan (s / c)) by (rewrite <- atan_0; by apply atan_increasing).
      lra.
  - destruct (Rltb 0 s); [lra|]. destruct (Rltb s 0); lra.
Qed.

(** A turn about z of a finite point. *)
Lemma rotate_basis_gamma (x y z g : R) :
  rotate_basis (fvec x y z) (Fin 0) (Fin 0) (Fin g)
  = fvec (cos g * x - sin g * y) (sin g * x + cos g * y) z.
Proof.
  rewrite rotate_basis_fin. cbv zeta. rewrite cos_0, sin_0.
  unfold fvec. f_equal; apply Fin_eq; ring.
Qed.

(** The coordinates [rotate] and [set_inclination] derive from a finite
    point off the origin. *)
Lemma spherical_finite (s : Star.star) (j i : nat) (x y z : R) :
  Star.P s j i = fvec x y z → x <> 0 ∨ y <> 0 ∨ z <> 0 →
  let n := sqrt (x * x + y * y + z * z) in
  0 < n ∧ -1 <= z / n <= 1 ∧
  Star.r (Star.spherical s) j i = Fin n ∧
  Star.lat (Star.spherical s) j i = Fin ((acos (z / n) - PI / 2) * (180 / PI)) ∧
  Star.lon (Star.spherical s) j i = Fin (Ratan2 x y * (180 / PI)).
Proof.
  intros HP Hne n.
  assert (Hn : 0 < n) by (by apply sqrt_sumsq_pos).
  assert (Hn2 : n * n = x * x + y * y + z * z) by (apply sqrt_sqrt; nra).
  assert (Hzn : -1 <= z / n <= 1).
  { assert (Hi : 0 < / n) by (by apply Rinv_0_lt_compat).
    assert (Hone : n * / n = 1) by (apply Rinv_r; lra).
    assert (Hz : - n <= z <= n) by (split; nra).
    unfold Rdiv. split; nra. }
  split; [done|]. split; [done|].
  unfold Star.spherical, gmap2.
  cbn [Star.r Star.lat Star.lon Star.with_sph]. rewrite HP.
  unfold fvec. cbn [vx vy vz fmul fadd farctan2 degrees].
  rewrite fsqrt_Fin by nra. fold n. rewrite fdiv_Fin by lra.
  unfold farccos. rewrite (proj2 (Rleb_true (-1) (z / n))) by lra.
  rewrite (proj2 (Rleb_true (z / n) 1)) by lra. cbn [andb].
  split; [done|]. split; [|done]. unfold degrees. cbn [fsub fneg fadd fmul]. done.
Qed.

End Geography.

(** X14. [rotate] turns the star about its z axis: at a grid point with
    finite [P] off the origin it keeps the distance [r] and the latitude
    that [P] had, and, off the z axis, advances the longitude by [angle]
    modulo 360, within [[-180, 180]]. *)
Theorem rotate_keeps_latitude (s : Star.star) (a : R) (j i : nat) (x y z : R) :
  Star.P s j i = fvec x y z →
  (j < fst (Star.shape s))%nat ∧ (i < snd (Star.shape s))%nat →
  x <> 0 ∨ y <> 0 ∨ z <> 0 →
  let s' := Star.rotate s (Fin a) in
  Star.r s' j i = Fin (sqrt (x * x + y * y + z * z)) ∧
  Star.lat s' j i = Star.lat (Star.spherical s) j i ∧
  (x <> 0 ∨ y <> 0 →
     ∃ (l l' : R) (k : Z),
       Star.lon (Star.spherical s) j i = Fin l ∧ Star.lon s' j i = Fin l' ∧
       l' = l + a + 360 * IZR k ∧ -180 <= l' <= 180).
Proof.
  intros HP Hin Hne. cbv zeta.
  destruct (rotate_fields s (Fin a)) as (_ & _ & _ & _ & _ & _ & _ & -> & -> & -> & _).
  set (g := - a * (PI / 180)).
  set (x' := cos g * x - sin g * y). set (y' := sin g * x + cos g * y).
  set (t := Star.turn (Fin 0) (Fin 0) (radians (- Fin a)%fl) s).
  assert (HP' : Star.P t j i = fvec x' y' z).
  { unfold t. rewrite turn_P, decide_True by done. rewrite HP, radians_neg.
    apply rotate_basis_gamma. }
  assert (Hsq : x' * x' + y' * y' = x * x + y * y).
  { unfold x', y'. pose proof (sin2_cos2 g) as H. unfold Rsqr in H. nra. }
  assert (Hne' : x' <> 0 ∨ y' <> 0 ∨ z <> 0).
  { destruct (Req_dec_T z 0) as [->|]; [|tauto].
    assert (x' * x' + y' * y' <> 0) by (rewrite Hsq; nra).
    destruct (Req_dec_T x' 0) as [Hx|]; [|tauto]. right. left. intros Hy.
    rewrite Hx, Hy in *. lra. }
  destruct (spherical_finite t j i x' y' z HP' Hne') as (_ & _ & Hr' & Hlat' & Hlon').
  destruct (spherical_finite s j i x y z HP Hne) as (_ & _ & Hr & Hlat & Hlon).
  assert (Hnn : x' * x' + y' * y' + z * z = x * x + y * y + z * z) by lra.
  cbv zeta in *. rewrite Hnn in *.
  split; [done|]. split; [by rewrite Hlat, Hlat'|].
  intros Hxy. rewrite Hlon, Hlon'.
  assert (Hxy' : x' <> 0 ∨ y' <> 0).
  { destruct (Req_dec_T x' 0) as [Hx|]; [|tauto]. right. intros Hy.
    rewrite Hx, Hy in *. nra. }
  destruct (Ratan2_polar x y Hxy) as (Hρ & Hcos & Hsin).
  destruct (Ratan2_polar x' y' Hxy') as (_ & Hcos' & Hsin').
  replace (y' * y' + x' * x') with (y * y + x * x) in * by lra.
  set (ρ := sqrt (y * y + x * x)) in *.
  destruct (angle_eq_mod (Ratan2 x' y') (Ratan2 x y - g)) as [k Hk].
  { rewrite cos_minus, Hcos, Hsin, Hcos'. unfold y'. field. lra. }
  { rewrite sin_minus, Hcos, Hsin, Hsin'. unfold x'. field. lra. }
  exists (Ratan2 x y * (180 / PI)), (Ratan2 x' y' * (180 / PI)), k.
  split; [done|]. split; [done|].
  pose proof PI_RGT_0 as Hpi. pose proof (Ratan2_bound x' y') as Hb.
  assert (Hq : PI * (180 / PI) = 180) by (field; lra).
  assert (Hq' : 0 < 180 / PI) by (apply Rdiv_lt_0_compat; lra).
  split; [|split; nra].
  rewrite Hk. unfold g. field. lra.
Qed.

Lemma rotate_keeps_latitude_witness :
  let s := unit_star (fvec 1 0 0) in
  let s' := Star.rotate s (Fin 90) in
  Star.r s' 0%nat 0%nat = Fin (sqrt (1 * 1 + 0 * 0 + 0 * 0)) ∧
  Star.lat s' 0%nat 0%nat = Star.lat (Star.spherical s) 0%nat 0%nat ∧
  (1 <> 0 ∨ 0 <> 0 →
     ∃ (l l' : R) (k : Z),
       Star.lon (Star.spherical s) 0%nat 0%nat = Fin l ∧
       Star.lon s' 0%nat 0%nat = Fin l' ∧
       l' = l + 90 + 360 * IZR k ∧ -180 <= l' <= 180).
Proof.
  apply (rotate_keeps_latitude (unit_star (fvec 1 0 0)) 90 0 0 1 0 0 eq_refl).
  - cbn. lia.
  - left. lra.
Defined.

(** X15. The coordinates [rotate] and [set_inclination] leave at a grid
    point whose [P] is finite and off the origin: [r] is the length of
    [P]; the latitude lies in [[-90, 90]] and is [90 - colatitude]
    reversed, [-90] at the +z pole and [90] at the -z pole; the longitude
    lies in [[-180, 180]] and is measured from the +y axis towards +x. *)
Theorem spherical_ranges (s : Star.star) (j i : nat) (x y z : R) :
  Star.P s j i = fvec x y z → x <> 0 ∨ y <> 0 ∨ z <> 0 →
  let s' := Star.spherical s in
  ∃ la lo : R,
    Star.r s' j i = Fin (sqrt (x * x + y * y + z * z)) ∧
    Star.lat s' j i = Fin la ∧ Star.lon s' j i = Fin lo ∧
    -90 <= la <= 90 ∧ -180 <= lo <= 180 ∧
    (x = 0 → y = 0 → 0 < z → la = -90) ∧
    (x = 0 → y = 0 → z < 0 → la = 90) ∧
    (x = 0 → 0 < y → lo = 0) ∧
    (0 < x → y = 0 → lo = 90).
Proof.
  intros HP Hne s'.
  destruct (spherical_finite s j i x y z HP Hne) as (Hn & Hzn & Hr & Hlat & Hlon).
  cbv zeta in *. set (n := sqrt (x * x + y * y + z * z)) in *.
  eexists _, _. split; [exact Hr|]. split; [exact Hlat|]. split; [exact Hlon|].
  pose proof PI_RGT_0 as Hpi. pose proof (acos_bound (z / n)) as Ha.
  pose proof (Ratan2_bound x y) as Hb.
  assert (Hq : PI * (180 / PI) = 180) by (field; lra).
  assert (Hq' : 0 < 180 / PI) by (apply Rdiv_lt_0_compat; lra).
  split; [split; nra|]. split; [split; nra|].
  assert (Hpole : x = 0 → y = 0 → n = Rabs z).
  { intros -> ->. unfold n. replace (0 * 0 + 0 * 0 + z * z) with (Rsqr z)
      by (unfold Rsqr; ring). apply sqrt_Rsqr_abs. }
  split; [|split; [|split]].
  - intros Hx Hy Hz. rewrite (Hpole Hx Hy), Rabs_right by lra.
    replace (z / z) with 1 by (field; lra). rewrite acos_1. nra.
  - intros Hx Hy Hz. rewrite (Hpole Hx Hy), Rabs_left by lra.
    replace (z / - z) with (- (1)) by (field; lra).
    rewrite acos_opp, acos_1. nra.
  - intros -> Hy. unfold Ratan2. rewrite (proj2 (Rltb_true 0 y)) by lra.
    replace (0 / y) with 0 by (field; lra). rewrite atan_0. lra.
  - intros Hx ->. unfold Ratan2. rewrite (proj2 (Rltb_false 0 0)) by lra.
    rewrite (proj2 (Rltb_true 0 x)) by lra. nra.
Qed.

Lemma spherical_ranges_witness :
  let s' := Star.spherical (unit_star (fvec 0 0 1)) in
  ∃ la lo : R,
    Star.r s' 0%nat 0%nat = Fin (sqrt (0 * 0 + 0 * 0 + 1 * 1)) ∧
    Star.lat s' 0%nat 0%nat = Fin la ∧ Star.lon s' 0%nat 0%nat = Fin lo ∧
    -90 <= la <= 90 ∧ -180 <= lo <= 180 ∧
    (0 = 0 → 0 = 0 → 0 < 1 → la = -90) ∧
    (0 = 0 → 0 = 0 → 1 < 0 → la = 90) ∧
    (0 = 0 → 0 < 0 → lo = 0) ∧
    (0 < 0 → 0 = 0 → lo = 90).
Proof.
  apply (spherical_ranges (unit_star (fvec 0 0 1)) 0 0 0 0 1 eq_refl).
  right. right. lra.
Defined.


(** ** Rotations of a point *)

Section Isometry.

Lemma rotate_basis_alpha (x y z a : R) :
  rotate_basis (fvec x y z) (Fin a) (Fin 0) (Fin 0)
  = fvec x (cos a * y - sin a * z) (sin a * y + cos a * z).
Proof.
  rewrite rotate_basis_fin. cbv zeta. rewrite cos_0, sin_0.
  unfold fvec. f_equal; apply Fin_eq; ring.
Qed.

Lemma rotate_basis_beta (x y z b : R) :
  rotate_basis (fvec x y z) (Fin 0) (Fin b) (Fin 0)
  = fvec (cos b * x + sin b * z) y (- sin b * x + cos b * z).
Proof.
  rewrite rotate_basis_fin. cbv zeta. rewrite cos_0, sin_0.
  unfold fvec. f_equal; apply Fin_eq; ring.
Qed.

Lemma dot_fvec (x y z x' y' z' : R) :
  dot (fvec x y z) (fvec x' y' z') = Fin (x * x' + y * y' + z * z').
Proof. done. Qed.

(** A plane rotation keeps the inner product of two plane vectors. *)
Lemma plane_turn (t p q p' q' : R) :
  (cos t * p - sin t * q) * (cos t * p' - sin t * q')
  + (sin t * p + cos t * q) * (sin t * p' + cos t * q') = p * p' + q * q'.
Proof.
  pose proof (sin2_cos2 t) as H. unfold Rsqr in H.
  replace ((cos t * p - sin t * q) * (cos t * p' - sin t * q')
           + (sin t * p + cos t * q) * (sin t * p' + cos t * q'))
    with ((sin t * sin t + cos t * cos t) * (p * p' + q * q')) by ring.
  rewrite H. ring.
Qed.

(** [rotate_basis] on finite data keeps inner products. *)
Lemma rotate_basis_dot (x y z x' y' z' a b g : R) :
  dot (rotate_basis (fvec x y z) (Fin a) (Fin b) (Fin g))
      (rotate_basis (fvec x' y' z') (Fin a) (Fin b) (Fin g))
  = dot (fvec x y z) (fvec x' y' z').
Proof.
  rewrite (rotate_basis_split x y z), (rotate_basis_split x' y' z').
  rewrite !rotate_basis_alpha, !rotate_basis_beta, !rotate_basis_gamma, !dot_fvec.
  apply Fin_eq.
  pose proof (plane_turn a y z y' z') as Ha.
  set (y1 := cos a * y - sin a * z) in *. set (z1 := sin a * y + cos a * z) in *.
  set (y1' := cos a * y' - sin a * z') in *. set (z1' := sin a * y' + cos a * z') in *.
  pose proof (plane_turn (- b) x z1 x z1') as Hb.
  rewrite cos_neg, sin_neg in Hb.
  set (x2 := cos b * x + sin b * z1) in *. set (z2 := - sin b * x + cos b * z1) in *.
  set (x2' := cos b * x' + sin b * z1') in *. set (z2' := - sin b * x' + cos b * z1') in *.
  pose proof (plane_turn g x2 y1 x2' y1') as Hg.
  pose proof (plane_turn (- b) x z1 x' z1') as Hb'.
  rewrite cos_neg, sin_neg in Hb'.
  replace (cos b * x - - sin b * z1) with x2 in Hb' by (unfold x2; ring).
  replace (cos b * x' - - sin b * z1') with x2' in Hb' by (unfold x2'; ring).
  fold z2 z2' in Hb'. lra.
Qed.

End Isometry.

(** X16. [rotate_basis] is an isometry on finite data: for finite angles
    it keeps the inner product of any two finite points, hence lengths
    and angles between points; with all three angles zero (the keyword
    defaults) it returns the point itself. *)
Theorem rotate_basis_isometry (x y z x' y' z' a b g : R) :
  dot (rotate_basis (fvec x y z) (Fin a) (Fin b) (Fin g))
      (rotate_basis (fvec x' y' z') (Fin a) (Fin b) (Fin g))
  = dot (fvec x y z) (fvec x' y' z') ∧
  norm (rotate_basis (fvec x y z) (Fin a) (Fin b) (Fin g)) = norm (fvec x y z) ∧
  rotate_basis (fvec x y z) (Fin 0) (Fin 0) (Fin 0) = fvec x y z.
Proof.
  split; [apply rotate_basis_dot|]. split.
  - unfold norm. by rewrite rotate_basis_dot.
  - rewrite rotate_basis_fin. cbv zeta. rewrite cos_0, sin_0.
    unfold fvec. f_equal; apply Fin_eq; ring.
Qed.

Section AxisAngle.

Variables (ux uy uz θ : R).
Hypothesis Hunit : ux * ux + uy * uy + uz * uz = 1.

(** The matrix of [rotate_axis_angle] applied to a finite point. *)
Lemma axis_angle_fin (px py pz : R) :
  matvec (axis_angle_matrix (fvec ux uy uz) (Fin θ)) (fvec px py pz) =
  let c := cos θ in
  let s := sin θ in
  fvec ((c + ux * ux * (1 - c)) * px + (ux * uy * (1 - c) - uz * s) * py
        + (ux * uz * (1 - c) + uy * s) * pz)
       ((uy * ux * (1 - c) + uz * s) * px + (c + uy * uy * (1 - c)) * py
        + (uy * uz * (1 - c) - ux * s) * pz)
       ((uz * ux * (1 - c) - uy * s) * px + (uz * uy * (1 - c) + ux * s) * py
        + (c + uz * uz * (1 - c)) * pz).
Proof.
  unfold axis_angle_matrix, matvec, dot, fvec.
  cbn [vx vy vz row0 row1 row2 fcos fsin fmul fadd fsub fneg].
  cbv zeta. f_equal; apply Fin_eq; ring.
Qed.

(** Rotation about a unit axis keeps inner products. *)
Lemma axis_angle_dot (px py pz qx qy qz : R) :
  dot (matvec (axis_angle_matrix (fvec ux uy uz) (Fin θ)) (fvec px py pz))
      (matvec (axis_angle_matrix (fvec ux uy uz) (Fin θ)) (fvec qx qy qz))
  = dot (fvec px py pz) (fvec qx qy qz).
Proof.
  rewrite !axis_angle_fin. cbv zeta. rewrite !dot_fvec. apply Fin_eq.
  pose proof (sin2_cos2 θ) as Hcs. unfold Rsqr in Hcs.
  generalize dependent (cos θ). generalize dependent (sin θ). intros s c Hcs.
  nsatz.
Qed.

(** Points on the axis stay where they are. *)
Lemma axis_angle_fixes_axis (k : R) :
  matvec (axis_angle_matrix (fvec ux uy uz) (Fin θ)) (fvec (k * ux) (k * uy) (k * uz))
  = fvec (k * ux) (k * uy) (k * uz).
Proof.
  rewrite axis_angle_fin. cbv zeta.
  generalize (cos θ). generalize (sin θ). intros s c.
  unfold fvec. f_equal; apply Fin_eq; nsatz.
Qed.

End AxisAngle.

(** X17. [rotate_axis_angle] about a unit axis: the call returns and
    leaves the axis array as it is (normalising a unit vector changes
    nothing); the rotated point has the length of [P] and the same
    component along the axis; every point on the axis is returned
    unchanged; and the angle 0 returns [P]. *)
Theorem rotate_axis_angle_isometry (l : loc) (σ : gmap loc vec)
    (ux uy uz θ px py pz : R) :
  σ !! l = Some (fvec ux uy uz) → ux * ux + uy * uy + uz * uz = 1 →
  (∃ p', rotate_axis_angle (fvec px py pz) l (Fin θ) σ = Returns p' σ ∧
     norm p' = norm (fvec px py pz) ∧
     dot p' (fvec ux uy uz) = dot (fvec px py pz) (fvec ux uy uz)) ∧
  (∀ k, rotate_axis_angle (fvec (k * ux) (k * uy) (k * uz)) l (Fin θ) σ
        = Returns (fvec (k * ux) (k * uy) (k * uz)) σ) ∧
  rotate_axis_angle (fvec px py pz) l (Fin 0) σ = Returns (fvec px py pz) σ.
Proof.
  intros Hl Hunit.
  rewrite !(rotate_axis_angle_unit _ l _ σ ux uy uz Hunit Hl).
  pose proof (axis_angle_fixes_axis ux uy uz θ Hunit 1) as Hfix.
  replace (1 * ux) with ux in Hfix by lra. replace (1 * uy) with uy in Hfix by lra.
  replace (1 * uz) with uz in Hfix by lra.
  split; [|split].
  - eexists. split; [done|]. split.
    + unfold norm. by rewrite axis_angle_dot.
    + rewrite <- (axis_angle_dot ux uy uz θ Hunit px py pz ux uy uz).
      by rewrite Hfix.
  - intros k. rewrite (rotate_axis_angle_unit _ l _ σ ux uy uz Hunit Hl).
    by rewrite axis_angle_fixes_axis.
  - rewrite axis_angle_fin. cbv zeta. rewrite cos_0, sin_0.
    f_equal. unfold fvec. f_equal; apply Fin_eq; ring.
Qed.

Lemma rotate_axis_angle_isometry_witness :
  (∃ p', rotate_axis_angle (fvec 1 0 0) 0%nat (Fin PI) {[ 0%nat := fvec 0 0 1 ]}
         = Returns p' {[ 0%nat := fvec 0 0 1 ]} ∧
     norm p' = norm (fvec 1 0 0) ∧
     dot p' (fvec 0 0 1) = dot (fvec 1 0 0) (fvec 0 0 1)) ∧
  (∀ k, rotate_axis_angle (fvec (k * 0) (k * 0) (k * 1)) 0%nat (Fin PI)
          {[ 0%nat := fvec 0 0 1 ]}
        = Returns (fvec (k * 0) (k * 0) (k * 1)) {[ 0%nat := fvec 0 0 1 ]}) ∧
  rotate_axis_angle (fvec 1 0 0) 0%nat (Fin 0) {[ 0%nat := fvec 0 0 1 ]}
  = Returns (fvec 1 0 0) {[ 0%nat := fvec 0 0 1 ]}.
Proof.
  apply (rotate_axis_angle_isometry 0%nat {[ 0%nat := fvec 0 0 1 ]} 0 0 1 PI 1 0 0).
  - apply lookup_singleton_eq.
  - lra.
Defined.

Section AngleBetween.

(** Cauchy-Schwarz for unit vectors. *)
Lemma unit_dot_bound (ax ay az bx by' bz : R) :
  ax * ax + ay * ay + az * az = 1 → bx * bx + by' * by' + bz * bz = 1 →
  -1 <= ax * bx + ay * by' + az * bz <= 1.
Proof.
  intros Ha Hb.
  pose proof (Rle_0_sqr (ax - bx)). pose proof (Rle_0_sqr (ay - by')).
  pose proof (Rle_0_sqr (az - bz)). pose proof (Rle_0_sqr (ax + bx)).
  pose proof (Rle_0_sqr (ay + by')). pose proof (Rle_0_sqr (az + bz)).
  unfold Rsqr in *. split; lra.
Qed.

(** Cosines up to a half are well apart from 1 and -1. *)
Lemma well_apart (d : R) : -1 / 2 <= d <= 1 / 2 → Rabs d <= 1 - 1 / 10 ^ 12.
Proof.
  intros Hd. assert (H : 10 ^ 12 = 1000000000000) by (simpl; lra).
  rewrite H. apply Rabs_le. lra.
Qed.

End AngleBetween.

(** X18. [angle_between] on two different arrays that hold unit vectors
    whose inner product stays [1e-12] away from 1 and from -1: the call
    returns an angle strictly between 0 and pi whose cosine is the inner
    product, and leaves both arrays as they are.  (Closer to parallel,
    rounding decides whether the inner product of the normalised vectors
    is still within the domain of [arccos].) *)
Theorem angle_between_spec (l0 l1 : loc) (σ : gmap loc vec)
    (ax ay az bx by' bz : R) :
  σ !! l0 = Some (fvec ax ay az) → σ !! l1 = Some (fvec bx by' bz) → l0 <> l1 →
  ax * ax + ay * ay + az * az = 1 → bx * bx + by' * by' + bz * bz = 1 →
  Rabs (ax * bx + ay * by' + az * bz) <= 1 - 1 / 10 ^ 12 →
  ∃ θ, angle_between l0 l1 σ = Returns (Fin θ) σ ∧ 0 < θ < PI ∧
       cos θ = ax * bx + ay * by' + az * bz.
Proof.
  intros H0 H1 Hne Ha Hb Hd.
  assert (Htol : 0 < 1 / 10 ^ 12).
  { apply Rdiv_lt_0_compat; [lra|]. apply pow_lt. lra. }
  assert (Hd' : - (1 - 1 / 10 ^ 12) <= ax * bx + ay * by' + az * bz <= 1 - 1 / 10 ^ 12).
  { unfold Rabs in Hd. destruct (Rcase_abs _); lra. }
  rewrite (angle_between_returns l0 l1 σ (fvec ax ay az) (fvec bx by' bz) H0)
    by (by rewrite lookup_insert_ne).
  rewrite decide_False by done.
  rewrite (normalized_unit_id ax ay az Ha), (normalized_unit_id bx by' bz Hb).
  rewrite (insert_id σ l0) by done. rewrite (insert_id σ l1) by done.
  rewrite dot_fvec. unfold farccos.
  rewrite (proj2 (Rleb_true (-1) _)) by lra. rewrite (proj2 (Rleb_true _ 1)) by lra.
  cbn [andb]. eexists. split; [done|]. split.
  - apply acos_bound_lt. lra.
  - apply cos_acos. lra.
Qed.

Lemma angle_between_spec_witness :
  ∃ θ, angle_between 0%nat 1%nat {[ 0%nat := fvec 1 0 0; 1%nat := fvec 0 1 0 ]}
       = Returns (Fin θ) {[ 0%nat := fvec 1 0 0; 1%nat := fvec 0 1 0 ]} ∧
       0 < θ < PI ∧ cos θ = 1 * 0 + 0 * 1 + 0 * 0.
Proof.
  apply (angle_between_spec 0%nat 1%nat
           {[ 0%nat := fvec 1 0 0; 1%nat := fvec 0 1 0 ]} 1 0 0 0 1 0).
  - reflexivity.
  - reflexivity.
  - lia.
  - lra.
  - lra.
  - apply well_apart. lra.
Defined.

(** ** [get_none_array] *)

Section NoneArray.

Lemma get_none_array_snoc (shape : list nat) (d : nat) :
  get_none_array (shape ++ [d]) = PyList (replicate d (get_none_array shape)).
Proof. unfold get_none_array. by rewrite fold_left_app. Qed.

Lemma np_shape_replicate (d : nat) (x : pyobj) :
  (0 < d)%nat → np_shape (PyList (replicate d x)) = d :: np_shape x.
Proof.
  destruct d as [|d]; [lia|]. intros _. cbn [replicate np_shape].
  by rewrite length_replicate.
Qed.

End NoneArray.

(** X19. [get_none_array(shape)] with positive dimensions builds a
    regular nest of lists whose outermost length is the last entry of
    [shape]: [np.array] sees the dimensions in reverse order, and every
    item within them is [None].  For the square shapes of [Scene] the
    order does not show.  A zero as last dimension gives the empty list,
    of shape [(0,)], whatever the other dimensions. *)
Theorem get_none_array_shape (shape : list nat) :
  Forall (λ d, 0 < d)%nat shape →
  np_shape (get_none_array shape) = rev shape ∧
  (∀ idx, Forall2 lt idx (rev shape) →
     np_item idx (get_none_array shape) = Some PyNone) ∧
  np_shape (get_none_array (shape ++ [0%nat])) = [0%nat].
Proof.
  intros Hpos. split; [|split].
  - induction shape as [|d shape IH] using rev_ind; [done|].
    apply Forall_app in Hpos as [Hpos Hd]. rewrite Forall_singleton in Hd.
    rewrite get_none_array_snoc, np_shape_replicate, rev_unit by done.
    by rewrite IH.
  - induction shape as [|d shape IH] using rev_ind.
    + intros idx Hidx. change (rev []) with (@nil nat) in Hidx.
      apply Forall2_nil_inv_r in Hidx. by subst idx.
    + apply Forall_app in Hpos as [Hpos Hd]. rewrite Forall_singleton in Hd.
      intros idx Hidx. rewrite rev_unit in Hidx.
      apply Forall2_cons_inv_r in Hidx as (k & idx' & Hk & Hidx' & ->).
      rewrite get_none_array_snoc. cbn [np_item].
      rewrite lookup_replicate_2 by done. cbn. by apply IH.
  - by rewrite get_none_array_snoc.
Qed.

Lemma get_none_array_shape_witness :
  np_shape (get_none_array [2; 3]%nat) = rev [2; 3]%nat ∧
  (∀ idx, Forall2 lt idx (rev [2; 3]%nat) →
     np_item idx (get_none_array [2; 3]%nat) = Some PyNone) ∧
  np_shape (get_none_array ([2; 3]%nat ++ [0%nat])) = [0%nat].
Proof.
  apply (get_none_array_shape [2; 3]%nat). repeat constructor.
Defined.


(** ** The tolerance windows of [get_Euler_angles] in binary64 *)

Section EulerWindows.

(** A mantissa of [d] binary digits lies in [[2^(d-1), 2^d)]. *)
Lemma digits2_pos_bounds (m : positive) :
  (2 ^ (Z.pos (SpecFloat.digits2_pos m) - 1) <= Z.pos m
   < 2 ^ Z.pos (SpecFloat.digits2_pos m))%Z.
Proof.
  induction m as [m IH|m IH|]; cbn [SpecFloat.digits2_pos].
  - rewrite Pos2Z.inj_succ, Z.pow_succ_r by lia.
    replace (Z.succ (Z.pos (SpecFloat.digits2_pos m)) - 1)%Z
      with (Z.succ (Z.pos (SpecFloat.digits2_pos m) - 1))%Z by lia.
    rewrite Z.pow_succ_r by lia. lia.
  - rewrite Pos2Z.inj_succ, Z.pow_succ_r by lia.
    replace (Z.succ (Z.pos (SpecFloat.digits2_pos m)) - 1)%Z
      with (Z.succ (Z.pos (SpecFloat.digits2_pos m) - 1))%Z by lia.
    rewrite Z.pow_succ_r by lia. lia.
  - cbn. lia.
Qed.

(** The mantissa of a double whose exponent is [-52] or [-53] has 53
    digits. *)
Lemma binade_mantissa (m : positive) (e : Z) :
  SpecFloat.bounded FloatOps.prec FloatOps.emax m e = true → (e = -52 ∨ e = -53)%Z →
  (4503599627370496 <= Z.pos m <= 9007199254740991)%Z.
Proof.
  intros Hb He. unfold SpecFloat.bounded, SpecFloat.canonical_mantissa,
    SpecFloat.fexp, SpecFloat.emin, FloatOps.prec, FloatOps.emax in Hb.
  apply andb_prop in Hb as [Hc _]. apply Z.eqb_eq in Hc.
  pose proof (digits2_pos_bounds m) as Hd.
  assert (Hdig : Z.pos (SpecFloat.digits2_pos m) = 53%Z) by lia.
  rewrite Hdig in Hd. change (2 ^ (53 - 1))%Z with 4503599627370496%Z in Hd.
  change (2 ^ 53)%Z with 9007199254740992%Z in Hd. lia.
Qed.

(** No double lies strictly between the predecessor of 1 and 1, nor
    between -1 and its successor. *)
Lemma mantissa_gap (m lo hi : positive) :
  (Z.pos lo <= Z.pos m <= Z.pos hi)%Z →
  (Pos.compare m lo = Lt → False) ∧ (Pos.compare hi m = Lt → False) ∧
  (Pos.compare m hi = Gt → False) ∧ (Pos.compare lo m = Gt → False).
Proof.
  intros Hm. repeat split; intros H.
  - apply Pos.compare_lt_iff, Pos2Z.pos_lt_pos in H. lia.
  - apply Pos.compare_lt_iff, Pos2Z.pos_lt_pos in H. lia.
  - apply Pos.compare_gt_iff, Pos2Z.pos_lt_pos in H. lia.
  - apply Pos.compare_gt_iff, Pos2Z.pos_lt_pos in H. lia.
Qed.

Lemma no_double_below_one (s : SpecFloat.spec_float) :
  SpecFloat.valid_binary FloatOps.prec FloatOps.emax s = true →
  SpecFloat.SFltb s (SpecFloat.S754_finite false 4503599627370496 (-52))
  && SpecFloat.SFltb (SpecFloat.S754_finite false 9007199254740991 (-53)) s = false.
Proof.
  intros Hv. destruct s as [sg|sg| |sg m e]; [by destruct sg|by destruct sg|done|].
  cbn [SpecFloat.valid_binary] in Hv.
  assert (Hg : (e = -52 ∨ e = -53)%Z →
    (Pos.compare m 4503599627370496 = Lt → False) ∧
    (Pos.compare 9007199254740991 m = Lt → False)).
  { intros He. pose proof (binade_mantissa m e Hv He) as Hm.
    destruct (mantissa_gap m 4503599627370496 9007199254740991 Hm) as (H1 & H2 & _).
    by split. }
  revert Hg. generalize 4503599627370496%positive 9007199254740991%positive.
  intros lo hi Hg.
  unfold SpecFloat.SFltb, SpecFloat.SFcompare. destruct sg; [by rewrite andb_false_r|].
  change (PosDef.Pos.compare_cont Eq m lo) with (Pos.compare m lo).
  change (PosDef.Pos.compare_cont Eq hi m) with (Pos.compare hi m).
  destruct (Z.compare_spec e (-52)) as [He|He|He]; [| |done].
  - destruct (Hg ltac:(lia)) as [H1 _].
    destruct (Pos.compare m lo) eqn:E; [done|by destruct H1|done].
  - destruct (Z.compare_spec (-53) e) as [He'|He'|He']; [|lia|by rewrite andb_false_r].
    destruct (Hg ltac:(lia)) as [_ H2].
    destruct (Pos.compare hi m) eqn:E;
      [by rewrite andb_false_r|by destruct H2|by rewrite andb_false_r].
Qed.

Lemma no_double_above_minus_one (s : SpecFloat.spec_float) :
  SpecFloat.valid_binary FloatOps.prec FloatOps.emax s = true →
  SpecFloat.SFltb s (SpecFloat.S754_finite true 9007199254740991 (-53))
  && SpecFloat.SFltb (SpecFloat.S754_finite true 4503599627370496 (-52)) s = false.
Proof.
  intros Hv. destruct s as [sg|sg| |sg m e]; [by destruct sg|by destruct sg|done|].
  cbn [SpecFloat.valid_binary] in Hv.
  assert (Hg : (e = -52 ∨ e = -53)%Z →
    (Pos.compare m 9007199254740991 = Gt → False) ∧
    (Pos.compare 4503599627370496 m = Gt → False)).
  { intros He. pose proof (binade_mantissa m e Hv He) as Hm.
    destruct (mantissa_gap m 4503599627370496 9007199254740991 Hm) as (_ & _ & H3 & H4).
    by split. }
  revert Hg. generalize 4503599627370496%positive 9007199254740991%positive.
  intros lo hi Hg.
  unfold SpecFloat.SFltb, SpecFloat.SFcompare. destruct sg; [|done].
  change (PosDef.Pos.compare_cont Eq m hi) with (Pos.compare m hi).
  change (PosDef.Pos.compare_cont Eq lo m) with (Pos.compare lo m).
  destruct (Z.compare_spec e (-53)) as [He|He|He]; [|done|].
  - destruct (Hg ltac:(lia)) as [H3 _].
    destruct (Pos.compare m hi) eqn:E; [done|done|by destruct H3].
  - destruct (Z.compare_spec (-52) e) as [He'|He'|He']; [|by rewrite andb_false_r|lia].
    destruct (Hg ltac:(lia)) as [_ H4].
    destruct (Pos.compare lo m) eqn:E;
      [by rewrite andb_false_r|by rewrite andb_false_r|by destruct H4].
Qed.

End EulerWindows.

(** X20. In binary64 the two tolerance windows of [get_Euler_angles] are
    empty.  With [tol = 1e-16] the sums round to [1 + tol = 1] and
    [-1 - tol = -1], and [1 - tol] and [-1 + tol] are the doubles next
    to 1 and to -1; so no double [RA22] satisfies
    [(RA22 < -1 + tol) and (RA22 > -1 - tol)] or
    [(RA22 < 1 + tol) and (RA22 > 1 - tol)]: whatever the axis and the
    angle, the code takes its general branch. *)
Theorem get_Euler_angles_windows_empty (RA22 : PrimFloat.float) :
  B64.south_window RA22 = false ∧ B64.north_window RA22 = false ∧
  PrimFloat.add (PrimFloat.one) B64.tol = PrimFloat.one ∧
  PrimFloat.sub (PrimFloat.opp (PrimFloat.one)) B64.tol
  = PrimFloat.opp (PrimFloat.one).
Proof.
  pose proof (FloatAxioms.Prim2SF_valid RA22) as Hv.
  unfold B64.south_window, B64.north_window.
  rewrite !FloatAxioms.ltb_spec.
  split; [|split; [|split; vm_compute; reflexivity]].
  - replace (FloatOps.Prim2SF (PrimFloat.add _ B64.tol))
      with (SpecFloat.S754_finite true 9007199254740991 (-53))
      by (vm_compute; reflexivity).
    replace (FloatOps.Prim2SF (PrimFloat.sub _ B64.tol))
      with (SpecFloat.S754_finite true 4503599627370496 (-52))
      by (vm_compute; reflexivity).
    by apply no_double_above_minus_one.
  - replace (FloatOps.Prim2SF (PrimFloat.add _ B64.tol))
      with (SpecFloat.S754_finite false 4503599627370496 (-52))
      by (vm_compute; reflexivity).
    replace (FloatOps.Prim2SF (PrimFloat.sub _ B64.tol))
      with (SpecFloat.S754_finite false 9007199254740991 (-53))
      by (vm_compute; reflexivity).
    by apply no_double_below_one.
Qed.

(** ** A star whose grid was never filled *)

Section UnsetGrid.

(** With a [nan] latitude the distance to any spot is [nan], and no spot
    reaches the point. *)
Lemma haversine_nan_lat (lon lat2 lon2 : float) : haversine NaN lon lat2 lon2 = NaN.
Proof.
  unfold haversine, radians. cbn [fmul].
  assert (H : ∀ a, (a - NaN)%fl = NaN) by (by intros []).
  rewrite H. cbn [fdiv fsin fmul]. by destruct (fsin _).
Qed.

Lemma paint_nan_lat (lat lon : grid float) (j i : nat) (spots : list Spot.spot)
    (f : grid mcell) :
  lat j i = NaN → fold_left (Star.paint lat lon) spots f j i = f j i.
Proof.
  intros Hlat. apply paint_uncovered, Forall_forall. intros spot _.
  unfold Star.spotted. by rewrite Hlat, haversine_nan_lat.
Qed.

(** The origin has no latitude. *)
Lemma spherical_origin (s : Star.star) (j i : nat) :
  Star.P s j i = fvec 0 0 0 →
  Star.r (Star.spherical s) j i = Fin 0 ∧ Star.lat (Star.spherical s) j i = NaN.
Proof.
  intros HP. unfold Star.spherical, gmap2.
  cbn [Star.r Star.lat Star.with_sph]. rewrite HP. unfold fvec.
  cbn [vx vy vz fmul fadd].
  replace (0 * 0 + 0 * 0 + 0 * 0) with 0 by lra.
  rewrite fsqrt_Fin, sqrt_0 by lra. split; [done|].
  unfold fdiv. rewrite (proj2 (Reqb_true 0 0)) by done.
  unfold signed_inf. rewrite (proj2 (Rltb_false 0 0)) by lra. done.
Qed.

End UnsetGrid.

(** X23. No method of [Star] fills the grid points [P], which
    [__init__] leaves at zero.  On such a star, with the limb-darkening
    coefficients and [mu] of [__init__], [rotate] by any finite angle
    leaves [P] at zero, [r = 0] and a [nan] latitude at every grid
    point, and a flux map that is 1 everywhere, whatever spots were
    added: no spot ever shows. *)
Theorem rotate_unset_grid (s : Star.star) (new : list Spot.spot) (a : R) (j i : nat) :
  (∀ j i, Star.P s j i = fvec 0 0 0) → (∀ j i, Star.mu s j i = Fin 0) →
  Star.u1 s = Fin 0 → Star.u2 s = Fin 0 →
  let s' := Star.rotate (Star.add s new false) (Fin a) in
  Star.P s' j i = fvec 0 0 0 ∧ Star.r s' j i = Fin 0 ∧ Star.lat s' j i = NaN ∧
  Star.flux s' j i = Valid (Fin 1).
Proof.
  intros HP Hmu Hu1 Hu2. cbv zeta.
  destruct (rotate_fields (Star.add s new false) (Fin a))
    as (_ & _ & _ & _ & _ & _ & -> & -> & -> & _ & ->).
  set (t := Star.turn _ _ _ _).
  assert (HPt : Star.P t j i = fvec 0 0 0).
  { unfold t. rewrite turn_P. change (Star.P (Star.add s new false)) with (Star.P s).
    rewrite HP. destruct (decide _); [|done].
    rewrite radians_neg, rotate_basis_gamma. unfold fvec.
    f_equal; apply Fin_eq; ring. }
  destruct (spherical_origin t j i HPt) as [Hr Hlat].
  split; [done|]. split; [done|]. split; [done|].
  unfold Star.limb_darken, Star.calc_flux.
  cbn [Star.flux Star.flux_ma Star.with_flux Star.mu Star.u1 Star.u2 Star.r Star.lat Star.lon Star.spots].
  rewrite paint_nan_lat by done. rewrite Hr. cbn [isnan].
  change (Star.mu (Star.spherical t) j i) with (Star.mu s j i).
  change (Star.u1 (Star.spherical t)) with (Star.u1 s).
  change (Star.u2 (Star.spherical t)) with (Star.u2 s).
  rewrite Hmu, Hu1, Hu2. unfold gconst.
  cbn [mlift mlift2 msquare fsub fadd fneg fmul isfinite].
  apply f_equal, Fin_eq. lra.
Qed.

Lemma rotate_unset_grid_witness :
  let s' := Star.rotate
              (Star.add (unit_star (fvec 0 0 0)) [Spot.mk (Fin 0) (Fin 0) (Fin 90) (Fin 0)] false)
              (Fin 30) in
  Star.P s' 0%nat 0%nat = fvec 0 0 0 ∧ Star.r s' 0%nat 0%nat = Fin 0 ∧
  Star.lat s' 0%nat 0%nat = NaN ∧ Star.flux s' 0%nat 0%nat = Valid (Fin 1).
Proof.
  by apply (rotate_unset_grid (unit_star (fvec 0 0 0))
              [Spot.mk (Fin 0) (Fin 0) (Fin 90) (Fin 0)] 30 0 0).
Defined.
